(** * go-incremental: the recompute heap, the bind node and the stabilizer

    A shallow embedding of the height-indexed recompute heap
    ([recomputeHeap]), of the bind node ([bindIncr]) and of the graph
    level driver, together with the properties the specification states
    about them.

    Conventions.
    - A Go [int] that holds a height, a stabilization number or a counter
      is a [nat]: the code only ever compares and increments them.
    - A runtime panic (index out of range, nil receiver) is the [None] of
      an [option] result.
    - A node is a mutable object reached through a pointer; the heap only
      reads its identifier and its current height through [Node()].  An
      [INode] value is that view of the node at the time of the call. *)

From stdpp Require Import gmap list strings.

Set Default Proof Using "Type".

(** ** Identifiers and the heap's view of a node *)

Definition Identifier := nat.

Record INode := mkINode {
  id : Identifier;
  height : nat;
}.

#[global] Instance INode_eq_dec : EqDecision INode.
Proof. solve_decision. Defined.

(** ** The recompute heap *)

Module Heap.

(** [recomputeHeapItem]: the node and the height it was filed under. *)
Record recomputeHeapItem := mkItem {
  node : INode;
  item_height : nat;
}.

#[global] Instance recomputeHeapItem_eq_dec : EqDecision recomputeHeapItem.
Proof. solve_decision. Defined.

(** [listItem]: an entry of the keyed linked list. *)
Record listItem := mkListItem {
  key : Identifier;
  value : recomputeHeapItem;
}.

#[global] Instance listItem_eq_dec : EqDecision listItem.
Proof. solve_decision. Defined.

(** The keyed linked list [list[K,V]] behind each bucket, as the sequence
    of its entries from head to tail. *)
Abbreviation klist := (list listItem).

(** Modelled from the spec: the methods of the keyed linked list
    [list[K,V]] are not part of the sources at hand.  The specification
    describes a bucket as a doubly-linked list of node identities whose
    order is the insertion order, removed from in O(1) by key:
    [pushUnsafe] appends at the tail, [popUnsafe] takes the head,
    [popAllUnsafe] empties the list and returns its values in order,
    [removeUnsafe] drops the entry stored under a key. *)
Definition pushUnsafe (k : Identifier) (v : recomputeHeapItem) (l : klist)
  : listItem * klist :=
  let item := mkListItem k v in (item, l ++ [item]).

Definition popUnsafe (l : klist) : option (Identifier * recomputeHeapItem * klist) :=
  match l with
  | [] => None
  | it :: l' => Some (key it, value it, l')
  end.

Definition popAllUnsafe (l : klist) : list recomputeHeapItem * klist :=
  (value <$> l, []).

Definition removeUnsafe (k : Identifier) (l : klist) : klist :=
  filter (λ it, key it ≠ k) l.

Definition lenUnsafe (l : klist) : nat := length l.

Record recomputeHeap := mkHeap {
  minHeight : nat;
  maxHeight : nat;
  heights : list (option klist);
  lookup : gmap Identifier listItem;
}.

Definition set_minHeight (m : nat) (rh : recomputeHeap) : recomputeHeap :=
  mkHeap m (maxHeight rh) (heights rh) (lookup rh).

Definition newRecomputeHeap (initialHeights : nat) : recomputeHeap :=
  mkHeap 0 0 (replicate initialHeights None) ∅.

Definition MinHeight (rh : recomputeHeap) : nat := minHeight rh.
Definition MaxHeight (rh : recomputeHeap) : nat := maxHeight rh.
Definition Len (rh : recomputeHeap) : nat := size (lookup rh).

Definition Has (s : INode) (rh : recomputeHeap) : bool :=
  bool_decide (is_Some (lookup rh !! id s)).

(** [rh.heights[x] != nil && rh.heights[x].head != nil] *)
Definition has_nodes (b : option klist) : bool :=
  match b with
  | Some (_ :: _) => true
  | _ => false
  end.

(** The loop of [nextMinHeightUnsafe]: [n] iterations remain, [x] is the
    loop variable; [next] is still 0 when the loop runs out. *)
Fixpoint scan_heights (hs : list (option klist)) (x n : nat) : option nat :=
  match n with
  | 0 => Some 0
  | S n' =>
      b ← hs !! x;
      if has_nodes b then Some x else scan_heights hs (S x) n'
  end.

Definition nextMinHeightUnsafe (rh : recomputeHeap) : option nat :=
  if decide (size (lookup rh) = 0) then Some 0
  else scan_heights (heights rh) (minHeight rh)
         (S (maxHeight rh) - minHeight rh).

Definition maybeUpdateMinMaxHeights (newHeight : nat) (rh : recomputeHeap)
  : recomputeHeap :=
  if decide (size (lookup rh) = 0) then
    mkHeap newHeight newHeight (heights rh) (lookup rh)
  else
    mkHeap (if decide (newHeight < minHeight rh) then newHeight else minHeight rh)
           (if decide (maxHeight rh < newHeight) then newHeight else maxHeight rh)
           (heights rh) (lookup rh).

Definition maybeAddNewHeights (newHeight : nat) (rh : recomputeHeap)
  : recomputeHeap :=
  if decide (length (heights rh) ≤ newHeight) then
    mkHeap (minHeight rh) (maxHeight rh)
      (heights rh ++ replicate (newHeight - length (heights rh) + 1) None)
      (lookup rh)
  else rh.

Definition addNodeUnsafe (s : INode) (rh : recomputeHeap) : option recomputeHeap :=
  let rh := maybeUpdateMinMaxHeights (height s) rh in
  let rh := maybeAddNewHeights (height s) rh in
  b ← heights rh !! height s;
  let '(item, l) := pushUnsafe (id s) (mkItem s (height s)) (default [] b) in
  Some (mkHeap (minHeight rh) (maxHeight rh)
          (<[height s := Some l]> (heights rh))
          (<[id s := item]> (lookup rh))).

Definition removeItemUnsafe (item : listItem) (rh : recomputeHeap)
  : option recomputeHeap :=
  let h := item_height (value item) in
  b ← heights rh !! h;
  l ← b;
  let l' := removeUnsafe (key item) l in
  let rh' := mkHeap (minHeight rh) (maxHeight rh)
               (<[h := Some l']> (heights rh))
               (delete (key item) (lookup rh)) in
  let isLastAtHeight := bool_decide (length l' = 0) in
  if bool_decide (h = minHeight rh') && isLastAtHeight then
    m ← nextMinHeightUnsafe rh'; Some (set_minHeight m rh')
  else Some rh'.

Definition addUnsafe1 (s : INode) (rh : recomputeHeap) : option recomputeHeap :=
  match lookup rh !! id s with
  | Some current => rh' ← removeItemUnsafe current rh; addNodeUnsafe s rh'
  | None => addNodeUnsafe s rh
  end.

Fixpoint addUnsafe (nodes : list INode) (rh : recomputeHeap) : option recomputeHeap :=
  match nodes with
  | [] => Some rh
  | s :: rest => rh' ← addUnsafe1 s rh; addUnsafe rest rh'
  end.

(** [fixUnsafe] reads the node of the stored item again: [cur] gives the
    height every node has at the time of the call. *)
Definition fixUnsafe1 (cur : Identifier → nat) (i : Identifier) (rh : recomputeHeap)
  : option recomputeHeap :=
  match lookup rh !! i with
  | Some item =>
      let h := item_height (value item) in
      b ← heights rh !! h;
      l ← b;
      let rh' := mkHeap (minHeight rh) (maxHeight rh)
                   (<[h := Some (removeUnsafe (key item) l)]> (heights rh))
                   (lookup rh) in
      let n := node (value item) in
      addNodeUnsafe (mkINode (id n) (cur (id n))) rh'
  | None => Some rh
  end.

Fixpoint fixUnsafe (cur : Identifier → nat) (ids : list Identifier)
    (rh : recomputeHeap) : option recomputeHeap :=
  match ids with
  | [] => Some rh
  | i :: rest => rh' ← fixUnsafe1 cur i rh; fixUnsafe cur rest rh'
  end.

Definition Add (nodes : list INode) (rh : recomputeHeap) : option recomputeHeap :=
  addUnsafe nodes rh.

Definition Fix (cur : Identifier → nat) (ids : list Identifier)
    (rh : recomputeHeap) : option recomputeHeap :=
  fixUnsafe cur ids rh.

Definition RemoveMin (rh : recomputeHeap) : option (option INode * recomputeHeap) :=
  b ← heights rh !! minHeight rh;
  match b with
  | Some l =>
      match popUnsafe l with
      | Some (i, v, l') =>
          let rh' := mkHeap (minHeight rh) (maxHeight rh)
                       (<[minHeight rh := Some l']> (heights rh))
                       (delete i (lookup rh)) in
          if decide (lenUnsafe l' = 0) then
            m ← nextMinHeightUnsafe rh'; Some (Some (node v), set_minHeight m rh')
          else Some (Some (node v), rh')
      | None => Some (None, rh)
      end
  | None => Some (None, rh)
  end.

Definition RemoveMinHeight (rh : recomputeHeap)
  : option (list recomputeHeapItem * recomputeHeap) :=
  b ← heights rh !! minHeight rh;
  match b with
  | Some (it :: l0) =>
      let '(nodes, l') := popAllUnsafe (it :: l0) in
      let rh' := mkHeap (minHeight rh) (maxHeight rh)
                   (<[minHeight rh := Some l']> (heights rh))
                   (foldr (λ n lk, delete (id (node n)) lk) (lookup rh) nodes) in
      m ← nextMinHeightUnsafe rh'; Some (nodes, set_minHeight m rh')
  | _ => Some ([], rh)
  end.

Definition Remove (s : INode) (rh : recomputeHeap) : option (bool * recomputeHeap) :=
  match lookup rh !! id s with
  | Some item => rh' ← removeItemUnsafe item rh; Some (true, rh')
  | None => Some (false, rh)
  end.

(** *** Reading the heap *)

(** The entries filed at height [h]; a missing or [nil] list has none. *)
Definition bucket_of (hs : list (option klist)) (h : nat) : klist :=
  match hs !! h with
  | Some (Some l) => l
  | _ => []
  end.

Definition bucket (rh : recomputeHeap) (h : nat) : klist :=
  bucket_of (heights rh) h.

(** All the entries of the height lists, lowest height first. *)
Definition entries (rh : recomputeHeap) : klist :=
  mjoin (default [] <$> heights rh).

(** How many entries of the height lists carry the identifier [k]. *)
Definition count_key (k : Identifier) (l : klist) : nat :=
  length (filter (λ it, key it = k) l).

Definition count (k : Identifier) (rh : recomputeHeap) : nat :=
  count_key k (entries rh).

(** The smallest index whose height list has nodes, 0 when there is none. *)
Fixpoint first_with_nodes (hs : list (option klist)) (x : nat) : nat :=
  match hs with
  | [] => 0
  | b :: hs' => if has_nodes b then x else first_with_nodes hs' (S x)
  end.

Definition smallest_nonempty (rh : recomputeHeap) : nat :=
  first_with_nodes (heights rh) 0.

(** The property the specification states of [minHeight]. *)
Definition minHeight_exact (rh : recomputeHeap) : Prop :=
  minHeight rh = smallest_nonempty rh.

(** *** Representation invariant

    What the code maintains between calls: [lookup] and the height lists
    hold the same items, every item is filed under the height it records,
    no list holds a key twice, all nodes lie between [minHeight] and
    [maxHeight], and both are valid indexes of [heights]. *)
Record wf (rh : recomputeHeap) : Prop := mkWf {
  wf_lookup : ∀ k it, lookup rh !! k = Some it →
    key it = k ∧ id (node (value it)) = k ∧
    it ∈ bucket rh (item_height (value it));
  wf_bucket : ∀ h it, it ∈ bucket rh h →
    lookup rh !! key it = Some it ∧ item_height (value it) = h;
  wf_nodup : ∀ h, NoDup (key <$> bucket rh h);
  wf_range : ∀ h, bucket rh h ≠ [] → minHeight rh ≤ h ≤ maxHeight rh;
  wf_min_index : minHeight rh < length (heights rh);
  wf_max_index : maxHeight rh < length (heights rh);
}.

(** [minHeight] points at a list with nodes, and is 0 on the empty heap. *)
Definition min_ok (rh : recomputeHeap) : Prop :=
  if decide (size (lookup rh) = 0) then minHeight rh = 0
  else bucket rh (minHeight rh) ≠ [].

(** The heaps the code can build: a fresh heap with room for at least one
    height (the constructor is documented to pre-allocate [heights]),
    changed by any of the exported operations. *)
Inductive reachable : recomputeHeap → Prop :=
  | reach_new n : 0 < n → reachable (newRecomputeHeap n)
  | reach_Add ns rh rh' :
      reachable rh → Add ns rh = Some rh' → reachable rh'
  | reach_Fix cur ids rh rh' :
      reachable rh → Fix cur ids rh = Some rh' → reachable rh'
  | reach_Remove s rh ok rh' :
      reachable rh → Remove s rh = Some (ok, rh') → reachable rh'
  | reach_RemoveMin rh r rh' :
      reachable rh → RemoveMin rh = Some (r, rh') → reachable rh'
  | reach_RemoveMinHeight rh ns rh' :
      reachable rh → RemoveMinHeight rh = Some (ns, rh') → reachable rh'.

(** A heap that held one node and was drained again. *)
Definition drained_heap : recomputeHeap :=
  default (newRecomputeHeap 8)
    (rh ← Add [mkINode 7 3] (newRecomputeHeap 8); snd <$> RemoveMin rh).

(** *** Auxiliary states used in the proofs *)

(** The list item [addNodeUnsafe] files a node under. *)
Definition item_of (s : INode) : listItem :=
  mkListItem (id s) (mkItem s (height s)).

(** The heap once the item stored under [k] is taken out of [lookup] and
    out of its height list, before [minHeight] is looked at again. *)
Definition without (it : listItem) (rh : recomputeHeap) : recomputeHeap :=
  mkHeap (minHeight rh) (maxHeight rh)
    (<[item_height (value it) :=
         Some (removeUnsafe (key it) (bucket rh (item_height (value it))))]>
       (heights rh))
    (delete (key it) (lookup rh)).

(** The state [Add] leaves behind: the node is the last entry of the list
    of its height. *)
Definition just_added (n : INode) (rh : recomputeHeap) : Prop :=
  wf rh ∧ lookup rh !! id n = Some (item_of n) ∧
  (∃ l, bucket rh (height n) = l ++ [item_of n]) ∧
  (size (lookup rh) = 1 → minHeight rh = height n ∧ maxHeight rh = height n).

(** [wf] as a check that can be run on a given heap. *)
Definition wfb (rh : recomputeHeap) : bool :=
  bool_decide (map_Forall (λ k it,
      key it = k ∧ id (node (value it)) = k ∧
      it ∈ bucket rh (item_height (value it))) (lookup rh))
  && forallb (λ h,
       bool_decide (Forall (λ it,
          lookup rh !! key it = Some it ∧ item_height (value it) = h)
          (bucket rh h))
       && bool_decide (NoDup (key <$> bucket rh h))
       && bool_decide (bucket rh h = [] ∨ minHeight rh ≤ h ≤ maxHeight rh))
     (seq 0 (length (heights rh)))
  && bool_decide (minHeight rh < length (heights rh))
  && bool_decide (maxHeight rh < length (heights rh)).

Definition min_okb (rh : recomputeHeap) : bool :=
  if decide (size (lookup rh) = 0) then bool_decide (minHeight rh = 0)
  else bool_decide (bucket rh (minHeight rh) ≠ []).

(** *** The rest of the heap's code *)

(** The heaps built without [Fix]: a fresh heap with room for at least
    one height, changed by [Add], [Remove], [RemoveMin] and
    [RemoveMinHeight]. *)
Inductive built : recomputeHeap → Prop :=
  | built_new n : 0 < n → built (newRecomputeHeap n)
  | built_Add ns rh rh' :
      built rh → Add ns rh = Some rh' → built rh'
  | built_Remove s rh ok rh' :
      built rh → Remove s rh = Some (ok, rh') → built rh'
  | built_RemoveMin rh r rh' :
      built rh → RemoveMin rh = Some (r, rh') → built rh'
  | built_RemoveMinHeight rh ns rh' :
      built rh → RemoveMinHeight rh = Some (ns, rh') → built rh'.

(** Every item records the height its node view carries. *)
Definition recorded (rh : recomputeHeap) : Prop :=
  ∀ k it, lookup rh !! k = Some it →
    height (node (value it)) = item_height (value it).

(** The loop [for len(rh.lookup) > 0 { n := rh.RemoveMin(); ... }] of
    [Test_recomuteHeap_Add_regression], which is also the loop of the
    stabilizer: the nodes in the order they leave the heap.  A nil node
    from a heap that is not empty fails the test's assertion; [fuel]
    bounds the number of turns. *)
Fixpoint drain (fuel : nat) (rh : recomputeHeap) : option (list INode) :=
  if decide (Len rh = 0) then Some []
  else
    match fuel with
    | 0 => None
    | S fuel' =>
        '(r, rh') ← RemoveMin rh;
        n ← r;
        rest ← drain fuel' rh';
        Some (n :: rest)
    end.

(** [sanityCheck]: the two ways an item can be out of place.  [cur] gives
    the height every node has at the time of the call
    ([item.value.node.Node().height]).  The sources range over the items
    of a list in an order they do not fix; the model takes the order of
    the list, which only matters for which of several errors is
    returned. *)
Inductive sanityError :=
  | ItemHeight (heightIndex itemHeight : nat)
  | NodeHeight (heightIndex itemHeight nodeHeight : nat).

Definition sanityCheck_item (cur : Identifier → nat) (heightIndex : nat)
    (it : listItem) : option sanityError :=
  if decide (item_height (value it) ≠ heightIndex) then
    Some (ItemHeight heightIndex (item_height (value it)))
  else if decide (item_height (value it) ≠ cur (id (node (value it)))) then
    Some (NodeHeight heightIndex (item_height (value it))
            (cur (id (node (value it)))))
  else None.

Fixpoint sanityCheck_items (cur : Identifier → nat) (heightIndex : nat)
    (l : klist) : option sanityError :=
  match l with
  | [] => None
  | it :: l' =>
      match sanityCheck_item cur heightIndex it with
      | Some e => Some e
      | None => sanityCheck_items cur heightIndex l'
      end
  end.

Fixpoint sanityCheck_from (cur : Identifier → nat) (heightIndex : nat)
    (hs : list (option klist)) : option sanityError :=
  match hs with
  | [] => None
  | None :: hs' => sanityCheck_from cur (S heightIndex) hs'
  | Some l :: hs' =>
      match sanityCheck_items cur heightIndex l with
      | Some e => Some e
      | None => sanityCheck_from cur (S heightIndex) hs'
      end
  end.

(** [None] is the [nil] error. *)
Definition sanityCheck (cur : Identifier → nat) (rh : recomputeHeap)
  : option sanityError :=
  sanityCheck_from cur 0 (heights rh).

(** [RemoveMin] called [k] times, as long as it returns a node. *)
Fixpoint RemoveMin_times (k : nat) (rh : recomputeHeap)
  : option (list INode * recomputeHeap) :=
  match k with
  | 0 => Some ([], rh)
  | S k' =>
      '(r, rh1) ← RemoveMin rh;
      n ← r;
      '(ns, rh2) ← RemoveMin_times k' rh1;
      Some (n :: ns, rh2)
  end.

(** The nodes of the items [RemoveMinHeight] returns. *)
Definition nodes_of (r : list recomputeHeapItem * recomputeHeap)
  : list INode * recomputeHeap :=
  (node <$> r.1, r.2).

(** A heap with three nodes, two of them at height 1. *)
Definition three_nodes : recomputeHeap :=
  default (newRecomputeHeap 4)
    (Add [mkINode 1 1; mkINode 2 3; mkINode 3 1] (newRecomputeHeap 4)).

(** [three_nodes] after the height of node 2 went down to 0 and [Fix] was
    called on it. *)
Definition three_fixed : recomputeHeap :=
  default three_nodes (Fix (λ i, if decide (i = 2) then 0 else 1) [2] three_nodes).

End Heap.

(** Case analysis on the first [decide] of the goal (and not of a
    hypothesis). *)
Ltac goal_decide Hd :=
  match goal with
  | |- context [@decide ?P ?dec] => destruct (@decide P dec) as [Hd|Hd]
  end.

(** ** The bind node *)

Module Bind.

(** What [Stabilize] returns: [nil], or an error. *)
Inductive error :=
| ErrGraphUnset      (* fmt.Errorf("%v graph is unset", b) *)
| ErrLinkGraphUnset  (* fmt.Errorf("%v has unset graph", b) *)
| ErrUser (code : nat).

#[global] Instance error_eq_dec : EqDecision error.
Proof. solve_decision. Defined.

(** The graph a node is attached to, as far as the bind reads it. *)
Record Graph := mkGraph {
stabilizationNum : nat;
}.

(** The calls [Stabilize] makes into code that is not its own, in the
  order it makes them. *)
Inductive Call :=
| CallFn                                   (* b.fn(ctx, b.scope, b.input.Value()) *)
| CallLink (child : option Identifier) (input : option Identifier)
| CallUnlink (child : option Identifier) (input : option Identifier)
| CallNewBindChange (created : Identifier) (* WithinScope(.., &bindChangeIncr{..}) *)
| CallIBindLink (n : Identifier).          (* typed.Link(ctx) on a bind of the scope *)

#[global] Instance Call_eq_dec : EqDecision Call.
Proof. solve_decision. Defined.

(** [bindIncr], with the fields of its [Node] that [Stabilize] reads and
  writes. *)
Record bindIncr := mkBind {
n_id : Identifier;
n_graph : option Graph;
n_changedAt : nat;
n_boundAt : nat;
input : Identifier;
bindChange : option Identifier;
bound : option Identifier;
}.

Definition set_boundAt (v : nat) (b : bindIncr) : bindIncr :=
mkBind (n_id b) (n_graph b) (n_changedAt b) v (input b) (bindChange b) (bound b).
Definition set_bound (v : option Identifier) (b : bindIncr) : bindIncr :=
mkBind (n_id b) (n_graph b) (n_changedAt b) (n_boundAt b) (input b) (bindChange b) v.
Definition set_bindChange (v : option Identifier) (b : bindIncr) : bindIncr :=
mkBind (n_id b) (n_graph b) (n_changedAt b) (n_boundAt b) (input b) v (bound b).

Section bind.

(** The rest of the object graph: the other nodes, their edges, heights
    and observers.  [Link], [Unlink], [WithinScope], the node constructor
    and the [Link] method of the other binds are not in the sources at
    hand; they are taken as parameters acting on that part. *)
Context {G : Type}.

(** [n.Node().changedAt] of another node. *)
Variable changedAt_of : G → Identifier → nat.
(** [b.scope.rhsNodes]. *)
Variable rhsNodes : G → list Identifier.
(** [n.(IBind)] succeeds. *)
Variable is_IBind : G → Identifier → bool.
(** [n.Node().isNecessary()]. *)
Variable isNecessary : G → Identifier → bool.
(** The bind function applied to the input's value: the node it returns
    ([nil] is [None]) and its error. *)
Variable fn : G → G * option Identifier * option error.
Variable Link : option Identifier → option Identifier → G → G.
Variable Unlink : option Identifier → option Identifier → G → G.
(** [WithinScope(b.n.createdIn, &bindChangeIncr{n: NewNode(..), ..})]
    and the label it is given. *)
Variable newBindChange : bindIncr → G → Identifier * G.
(** [typed.Link(ctx)] of a bind node of the scope. *)
Variable IBind_Link : Identifier → G → G * option error.

(** The state [Stabilize] runs in: the bind, the rest of the object
    graph, and the calls made so far. *)
Record St := mkSt {
  st_bind : bindIncr;
  st_graph : G;
  st_calls : list Call;
}.

(** A computation either returns a value or an error; it always leaves
    a state. *)
Definition M (X : Type) : Type := St → St * (error + X).

Definition ret {X} (x : X) : M X := λ s, (s, inr x).
Definition fail {X} (e : error) : M X := λ s, (s, inl e).
Definition bind {X Y} (m : M X) (k : X → M Y) : M Y :=
  λ s, match m s with
       | (s', inr x) => k x s'
       | (s', inl e) => (s', inl e)
       end.

Local Notation "x ←- m ;; k" := (bind m (λ x, k))
  (at level 100, m at next level, right associativity).
Local Notation "m ;;; k" := (bind m (λ _, k))
  (at level 100, right associativity).

Definition get_b : M bindIncr := λ s, (s, inr (st_bind s)).
Definition get_g : M G := λ s, (s, inr (st_graph s)).
Definition modify_b (f : bindIncr → bindIncr) : M unit :=
  λ s, (mkSt (f (st_bind s)) (st_graph s) (st_calls s), inr tt).
Definition log (c : Call) : M unit :=
  λ s, (mkSt (st_bind s) (st_graph s) (st_calls s ++ [c]), inr tt).
Definition on_graph (f : G → G) : M unit :=
  λ s, (mkSt (st_bind s) (f (st_graph s)) (st_calls s), inr tt).

Definition do_Link (child inp : option Identifier) : M unit :=
  log (CallLink child inp) ;;; on_graph (Link child inp).

Definition do_Unlink (child inp : option Identifier) : M unit :=
  log (CallUnlink child inp) ;;; on_graph (Unlink child inp).

Definition do_fn : M (option Identifier * option error) :=
  log CallFn ;;;
  λ s, let '(g', r, e) := fn (st_graph s) in
       (mkSt (st_bind s) g' (st_calls s), inr (r, e)).

Definition do_IBind_Link (n : Identifier) : M unit :=
  log (CallIBindLink n) ;;;
  λ s, let '(g', e) := IBind_Link n (st_graph s) in
       (mkSt (st_bind s) g' (st_calls s),
        match e with Some e => inl e | None => inr tt end).

Definition didInputChange (b : bindIncr) (g : G) : bool :=
  bool_decide (n_changedAt b ≤ changedAt_of g (input b)).

(** The loop over [b.scope.rhsNodes] shared by [Link] and [linkNewBound]:
    the binds of the scope that are necessary are linked, up to the
    first error. *)
Fixpoint link_rhsNodes (ns : list Identifier) : M unit :=
  match ns with
  | [] => ret tt
  | n :: rest =>
      g ←- get_g ;;
      (if is_IBind g n && isNecessary g n then do_IBind_Link n else ret tt) ;;;
      link_rhsNodes rest
  end.

Definition Link_method : M unit :=
  b ←- get_b ;;
  match n_graph b with
  | None => fail ErrLinkGraphUnset
  | Some _ =>
      (if bindChange b is Some _
       then do_Link (bindChange b) (Some (input b)) else ret tt) ;;;
      (if bound b is Some _ then
         do_Link (Some (n_id b)) (bound b) ;;;
         do_Link (bound b) (bindChange b) ;;;
         g ←- get_g ;;
         link_rhsNodes (rhsNodes g)
       else ret tt)
  end.

Definition linkBindChange : M unit :=
  b ←- get_b ;;
  (λ s, let '(c, g') := newBindChange b (st_graph s) in
        (mkSt (set_bindChange (Some c) (st_bind s)) g'
           (st_calls s ++ [CallNewBindChange c]), inr tt)) ;;;
  b ←- get_b ;;
  do_Link (bindChange b) (Some (input b)).

Definition linkNewBound (newIncr : option Identifier) : M unit :=
  modify_b (set_bound newIncr) ;;;
  b ←- get_b ;;
  do_Link (Some (n_id b)) (bound b) ;;;
  do_Link (bound b) (bindChange b) ;;;
  g ←- get_g ;;
  link_rhsNodes (rhsNodes g).

Definition unlinkBindChange : M unit :=
  b ←- get_b ;;
  if bindChange b is Some _ then
    (if bound b is Some _
     then do_Unlink (bound b) (bindChange b) else ret tt) ;;;
    do_Unlink (bindChange b) (Some (input b)) ;;;
    modify_b (set_bindChange None)
  else ret tt.

Definition unlinkOldBound : M unit :=
  b ←- get_b ;;
  if bound b is Some _ then
    do_Unlink (bound b) (bindChange b) ;;;
    do_Unlink (Some (n_id b)) (bound b) ;;;
    modify_b (set_bound None)
  else ret tt.

Definition Stabilize : M unit :=
  b ←- get_b ;;
  match n_graph b with
  | None => fail ErrGraphUnset
  | Some graph =>
      g ←- get_g ;;
      if negb (didInputChange b g) then
        modify_b (set_boundAt (stabilizationNum graph))
      else
        r ←- do_fn ;;
        let '(newIncr, err) := r in
        match err with
        | Some e => fail e
        | None =>
            bindChanged ←-
              match bound b, newIncr with
              | Some old, Some new =>
                  if bool_decide (old ≠ new) then
                    unlinkOldBound ;;;
                    unlinkBindChange ;;;
                    linkBindChange ;;;
                    linkNewBound newIncr ;;;
                    ret true
                  else
                    g' ←- get_g ;;
                    let bindChanged :=
                      bool_decide (n_boundAt b < changedAt_of g' old) in
                    Link_method ;;;
                    ret bindChanged
              | None, Some new =>
                  linkBindChange ;;;
                  linkNewBound newIncr ;;;
                  ret true
              | Some old, None =>
                  unlinkOldBound ;;;
                  unlinkBindChange ;;;
                  ret true
              | None, None => ret false
              end ;;
            if bindChanged : bool
            then modify_b (set_boundAt (stabilizationNum graph))
            else ret tt
        end
  end.

(** A computation only ever adds to the calls made so far. *)
Definition extends {X} (m : M X) : Prop :=
  ∀ s, st_calls s `prefix_of` st_calls (m s).1.

(** Running [Stabilize] on a bind: the bind and the object graph it
    leaves, the calls it made, and what it returned. *)
Definition run (b : bindIncr) (g : G) : bindIncr * G * list Call * option error :=
  let '(s, r) := Stabilize (mkSt b g []) in
  (st_bind s, st_graph s, st_calls s,
   match r with inl e => Some e | inr _ => None end).

(** The calls and the object graph of the [Link] method before it walks
    the scope: the bind-change node is linked to the input, the bind to
    its right-hand side and the right-hand side to the bind-change
    node. *)
Definition Link_calls (b : bindIncr) : list Call :=
  (if bindChange b is Some _
   then [CallLink (bindChange b) (Some (input b))] else []) ++
  [CallLink (Some (n_id b)) (bound b); CallLink (bound b) (bindChange b)].

Definition Link_graph (b : bindIncr) (g : G) : G :=
  Link (bound b) (bindChange b)
    (Link (Some (n_id b)) (bound b)
       (if bindChange b is Some _
        then Link (bindChange b) (Some (input b)) g else g)).

(** The calls, the object graph and the bind of [unlinkOldBound]
    followed by [unlinkBindChange], as [Stabilize] calls them on a bind
    that is bound: the right-hand side is unlinked from the bind-change
    node and the bind from the right-hand side; [bound] being nil by
    then, [unlinkBindChange] only unlinks the bind-change node, when
    there is one, from the input.  On a bind that is not bound
    [Stabilize] calls neither. *)
Definition Unlink_calls (b : bindIncr) : list Call :=
  match bound b with
  | Some old =>
      [CallUnlink (Some old) (bindChange b);
       CallUnlink (Some (n_id b)) (Some old)] ++
      (if bindChange b is Some c
       then [CallUnlink (Some c) (Some (input b))] else [])
  | None => []
  end.

Definition Unlink_graph (b : bindIncr) (g : G) : G :=
  match bound b with
  | Some old =>
      let g' := Unlink (Some (n_id b)) (Some old)
                  (Unlink (Some old) (bindChange b) g) in
      if bindChange b is Some c
      then Unlink (Some c) (Some (input b)) g' else g'
  | None => g
  end.

Definition unbound (b : bindIncr) : bindIncr :=
  match bound b with
  | Some _ =>
      if bindChange b is Some _
      then set_bindChange None (set_bound None b) else set_bound None b
  | None => b
  end.

(** The calls [Link] makes for a list of scope nodes when none of them
    fails: one per necessary bind, in order. *)
Fixpoint relinked (g : G) (ns : list Identifier) : list Identifier :=
  match ns with
  | [] => []
  | n :: rest =>
      if is_IBind g n && isNecessary g n
      then n :: relinked (IBind_Link n g).1 rest
      else relinked g rest
  end.

(** The walk over the scope as a function of the object graph: [Link] is
    called on the nodes that are binds and necessary when the walk comes
    to them, in order, up to the first call that returns an error.  The
    nodes [Link] was called on, the object graph the walk leaves, and
    the error that stopped it. *)
Fixpoint link_walk (g : G) (ns : list Identifier)
    : list Identifier * G * option error :=
  match ns with
  | [] => ([], g, None)
  | n :: rest =>
      if is_IBind g n && isNecessary g n then
        match IBind_Link n g with
        | (g', Some e) => ([n], g', Some e)
        | (g', None) =>
            let '(linked, g'', r) := link_walk g' rest in
            (n :: linked, g'', r)
        end
      else link_walk g rest
  end.

End bind.

(** The calls that link and neither unlink nor make a bind-change
    node. *)
Definition links_only (calls : list Call) : Prop :=
  ∀ c, c ∈ calls →
    match c with
    | CallUnlink _ _ | CallNewBindChange _ => False
    | _ => True
    end.

End Bind.

(** A small world to run the bind in: the object graph is the list of
    its edges; node 1 is the input, 5 and 4 are right-hand sides, 6 is the
    bind-change node, 7 is a map node created in the scope and 8 a bind
    created in the scope. *)
Module BindEx.
Import Bind.

Definition G0 : Type := list (option Identifier * option Identifier).

Definition changedAt0 (g : G0) (i : Identifier) : nat :=
  match i with 5 => 3 | _ => 1 end.
Definition rhsNodes0 (g : G0) : list Identifier := [7; 8].
Definition is_IBind0 (g : G0) (i : Identifier) : bool := bool_decide (i = 8).
Definition isNecessary0 (g : G0) (i : Identifier) : bool := true.
Definition fn0 (g : G0) : G0 * option Identifier * option error :=
  (g, Some 5, None).
Definition Link0 (c i : option Identifier) (g : G0) : G0 := g ++ [(c, i)].
Definition Unlink0 (c i : option Identifier) (g : G0) : G0 :=
  filter (λ e, e ≠ (c, i)) g.
Definition newBindChange0 (b : bindIncr) (g : G0) : Identifier * G0 := (9, g).
Definition IBind_Link0 (n : Identifier) (g : G0) : G0 * option error :=
  (g ++ [(Some n, None)], None).

Definition run0 : bindIncr → G0 → bindIncr * G0 * list Call * option error :=
  run changedAt0 rhsNodes0 is_IBind0 isNecessary0 fn0 Link0 Unlink0
    newBindChange0 IBind_Link0.

(** The same world with a second bind, node 10, in the scope after node
    8, and a [Link] that fails on node 8. *)
Definition rhsNodes1 (g : G0) : list Identifier := [7; 8; 10].
Definition is_IBind1 (g : G0) (i : Identifier) : bool :=
  bool_decide (i = 8 ∨ i = 10).
Definition IBind_Link1 (n : Identifier) (g : G0) : G0 * option error :=
  (g ++ [(Some n, None)], if decide (n = 8) then Some (ErrUser 3) else None).

Definition run1 : bindIncr → G0 → bindIncr * G0 * list Call * option error :=
  run changedAt0 rhsNodes1 is_IBind1 isNecessary0 fn0 Link0 Unlink0
    newBindChange0 IBind_Link1.

(** The same world with a bind function that returns node 4, and with
    one that returns nil. *)
Definition fn_other (g : G0) : G0 * option Identifier * option error :=
  (g, Some 4, None).
Definition fn_nil (g : G0) : G0 * option Identifier * option error :=
  (g, None, None).

Definition run_other : bindIncr → G0 → bindIncr * G0 * list Call * option error :=
  run changedAt0 rhsNodes0 is_IBind0 isNecessary0 fn_other Link0 Unlink0
    newBindChange0 IBind_Link0.
Definition run_nil : bindIncr → G0 → bindIncr * G0 * list Call * option error :=
  run changedAt0 rhsNodes0 is_IBind0 isNecessary0 fn_nil Link0 Unlink0
    newBindChange0 IBind_Link0.

(** A bind attached to a graph at stabilization 4, bound to node 5. *)
Definition bind0 : bindIncr :=
  mkBind 2 (Some (mkGraph 4)) 1 2 1 (Some 6) (Some 5).
(** The same bind, its input unchanged since the bind changed. *)
Definition bind_quiet : bindIncr :=
  mkBind 2 (Some (mkGraph 4)) 2 2 1 (Some 6) (Some 5).
(** The same binds, not attached to a graph. *)
Definition bind_unset : bindIncr :=
  mkBind 2 None 1 2 1 (Some 6) (Some 5).
Definition bind_unset_quiet : bindIncr :=
  mkBind 2 None 2 2 1 (Some 6) (Some 5).
End BindEx.

(** ** The graph and its stabilizer *)

Module Graph.

(** Error codes of the engine, and errors returned by compute
    functions. *)
Inductive error :=
  | ErrAlreadyStabilizing
  | ErrCycleDetected
  | ErrGraphUnset
  | ErrUser (code : nat).

#[global] Instance error_eq_dec : EqDecision error.
Proof. solve_decision. Defined.

(** The kinds of node the stabilizer is modelled for: inputs, pure
    transformations of the parents' values, and observers.  Bind nodes,
    which change the graph while they are recomputed, are the subject of
    [Bind]. *)
Inductive Kind := KInput | KMap | KObserver.

#[global] Instance Kind_eq_dec : EqDecision Kind.
Proof. solve_decision. Defined.

(** What a node's [Stabilize] returns: success with the new value, cutoff
    (the value did not change), or an error. *)
Inductive StabResult (V : Type) :=
  | Success (v : V)
  | Cutoff
  | Failed (e : error).
Arguments Success {V} v.
Arguments Cutoff {V}.
Arguments Failed {V} e.

(** What listeners and compute functions are seen to do. *)
Inductive Event :=
  | EvStabilize (n : Identifier)
  | EvOnError (listener : nat) (n : Identifier) (e : error)
  | EvOnUpdate (listener : nat) (n : Identifier)
  | EvStabilizationStart (listener : nat)
  | EvStabilizationEnd (listener : nat) (e : option error).

#[global] Instance Event_eq_dec : EqDecision Event.
Proof. solve_decision. Defined.

(** Node metadata (section 3.2 of the specification).  [n_parents] are the
    dependencies, [n_children] the dependents. *)
Record Node := mkNode {
  n_id : Identifier;
  n_height : nat;
  n_parents : list Identifier;
  n_children : list Identifier;
  n_observers : list Identifier;
  n_setAt : nat;
  n_changedAt : nat;
  n_recomputedAt : nat;
  n_boundAt : nat;
  n_numRecomputes : nat;
  n_kind : Kind;
  n_onUpdate : list nat;
  n_onError : list nat;
}.

Definition set_observers (os : list Identifier) (n : Node) : Node :=
  mkNode (n_id n) (n_height n) (n_parents n) (n_children n) os (n_setAt n)
    (n_changedAt n) (n_recomputedAt n) (n_boundAt n) (n_numRecomputes n)
    (n_kind n) (n_onUpdate n) (n_onError n).
Definition set_children (cs : list Identifier) (n : Node) : Node :=
  mkNode (n_id n) (n_height n) (n_parents n) cs (n_observers n) (n_setAt n)
    (n_changedAt n) (n_recomputedAt n) (n_boundAt n) (n_numRecomputes n)
    (n_kind n) (n_onUpdate n) (n_onError n).
Definition set_parents (ps : list Identifier) (n : Node) : Node :=
  mkNode (n_id n) (n_height n) ps (n_children n) (n_observers n) (n_setAt n)
    (n_changedAt n) (n_recomputedAt n) (n_boundAt n) (n_numRecomputes n)
    (n_kind n) (n_onUpdate n) (n_onError n).
Definition set_setAt (v : nat) (n : Node) : Node :=
  mkNode (n_id n) (n_height n) (n_parents n) (n_children n) (n_observers n) v
    (n_changedAt n) (n_recomputedAt n) (n_boundAt n) (n_numRecomputes n)
    (n_kind n) (n_onUpdate n) (n_onError n).
Definition set_changedAt (v : nat) (n : Node) : Node :=
  mkNode (n_id n) (n_height n) (n_parents n) (n_children n) (n_observers n)
    (n_setAt n) v (n_recomputedAt n) (n_boundAt n) (n_numRecomputes n)
    (n_kind n) (n_onUpdate n) (n_onError n).
(** [n.recomputedAt := stabilizationNum; n.numRecomputes += 1] *)
Definition recomputed (num : nat) (n : Node) : Node :=
  mkNode (n_id n) (n_height n) (n_parents n) (n_children n) (n_observers n)
    (n_setAt n) (n_changedAt n) num (n_boundAt n) (S (n_numRecomputes n))
    (n_kind n) (n_onUpdate n) (n_onError n).
Definition set_listeners (up err : list nat) (n : Node) : Node :=
  mkNode (n_id n) (n_height n) (n_parents n) (n_children n) (n_observers n)
    (n_setAt n) (n_changedAt n) (n_recomputedAt n) (n_boundAt n)
    (n_numRecomputes n) (n_kind n) up err.

(** [IsObserving(n)]: the node is necessary when its observer set is not
    empty. *)
Definition isNecessary (n : Node) : bool :=
  bool_decide (n_observers n ≠ []).

(** The node as the recompute heap reads it. *)
Definition view (n : Node) : INode := mkINode (n_id n) (n_height n).

Section graph.

Context {V : Type} `{!Inhabited V}.

(** The compute functions of the map nodes: from the values of the
    parents, in order. *)
Variable fn : Identifier → list V → StabResult V.

(** The graph (section 3.3): the nodes it knows and their values, the
    observer set, the recompute heap, the stabilization number, the
    stabilizing flag, the queued var-sets, the lifecycle listeners;
    [events] records what listeners and compute functions were called
    with, [nextId] is the source of identifiers.  The node count of the
    graph is left out: neither the sources at hand nor the specification
    say how it is kept. *)
Record Graph := mkGraph {
  nodes : gmap Identifier Node;
  values : gmap Identifier V;
  observers : list Identifier;
  recomputeHeap : Heap.recomputeHeap;
  stabilizationNum : nat;
  stabilizing : bool;
  setDuringStabilization : list (Identifier * V);
  onStabilizationStart : list nat;
  onStabilizationEnd : list nat;
  events : list Event;
  nextId : Identifier;
}.

Definition with_nodes (x : gmap Identifier Node) (g : Graph) : Graph :=
  mkGraph x (values g) (observers g) (recomputeHeap g) (stabilizationNum g)
    (stabilizing g) (setDuringStabilization g)
    (onStabilizationStart g) (onStabilizationEnd g) (events g) (nextId g).
Definition with_values (x : gmap Identifier V) (g : Graph) : Graph :=
  mkGraph (nodes g) x (observers g) (recomputeHeap g) (stabilizationNum g)
    (stabilizing g) (setDuringStabilization g)
    (onStabilizationStart g) (onStabilizationEnd g) (events g) (nextId g).
Definition with_observers (x : list Identifier) (g : Graph) : Graph :=
  mkGraph (nodes g) (values g) x (recomputeHeap g) (stabilizationNum g)
    (stabilizing g) (setDuringStabilization g)
    (onStabilizationStart g) (onStabilizationEnd g) (events g) (nextId g).
Definition with_heap (x : Heap.recomputeHeap) (g : Graph) : Graph :=
  mkGraph (nodes g) (values g) (observers g) x (stabilizationNum g)
    (stabilizing g) (setDuringStabilization g)
    (onStabilizationStart g) (onStabilizationEnd g) (events g) (nextId g).
Definition with_stabilizationNum (x : nat) (g : Graph) : Graph :=
  mkGraph (nodes g) (values g) (observers g) (recomputeHeap g) x
    (stabilizing g) (setDuringStabilization g)
    (onStabilizationStart g) (onStabilizationEnd g) (events g) (nextId g).
Definition with_stabilizing (x : bool) (g : Graph) : Graph :=
  mkGraph (nodes g) (values g) (observers g) (recomputeHeap g)
    (stabilizationNum g) x (setDuringStabilization g)
    (onStabilizationStart g) (onStabilizationEnd g) (events g) (nextId g).
Definition with_queue (x : list (Identifier * V)) (g : Graph) : Graph :=
  mkGraph (nodes g) (values g) (observers g) (recomputeHeap g)
    (stabilizationNum g) (stabilizing g) x
    (onStabilizationStart g) (onStabilizationEnd g) (events g) (nextId g).
Definition with_events (x : list Event) (g : Graph) : Graph :=
  mkGraph (nodes g) (values g) (observers g) (recomputeHeap g)
    (stabilizationNum g) (stabilizing g)
    (setDuringStabilization g) (onStabilizationStart g)
    (onStabilizationEnd g) x (nextId g).
Definition with_nextId (x : Identifier) (g : Graph) : Graph :=
  mkGraph (nodes g) (values g) (observers g) (recomputeHeap g)
    (stabilizationNum g) (stabilizing g)
    (setDuringStabilization g) (onStabilizationStart g)
    (onStabilizationEnd g) (events g) x.

Definition fire (evs : list Event) (g : Graph) : Graph :=
  with_events (events g ++ evs) g.

Definition put_node (n : Node) (g : Graph) : Graph :=
  with_nodes (<[n_id n := n]> (nodes g)) g.

(** Modelled from the spec: the graph constructor is not part of the
    sources at hand.  Section 3.3: the stabilization number starts at 1,
    nothing is stabilizing, no node is counted. *)
Definition New (initialHeights : nat) : Graph :=
  mkGraph ∅ ∅ [] (Heap.newRecomputeHeap initialHeights) 1 false [] [] [] [] 0.

(** Modelled from the spec: the node constructors are not part of the
    sources at hand.  Section 3.2: a node gets a fresh identifier, all its
    counters are 0 and its height is one greater than the maximum height
    of its parents (0 without parents); it is linked as a child of each
    parent. *)
Definition height_above (g : Graph) (ps : list Identifier) : nat :=
  foldr (λ p h, match nodes g !! p with
                | Some pn => S (n_height pn) `max` h
                | None => h
                end) 0 ps.

Definition link_child (c : Identifier) (g : Graph) (p : Identifier) : Graph :=
  match nodes g !! p with
  | Some pn => put_node (set_children (n_children pn ++ [c]) pn) g
  | None => g
  end.

Definition newNode (k : Kind) (ps : list Identifier) (g : Graph)
  : Identifier * Graph :=
  let i := nextId g in
  let n := mkNode i (height_above g ps) ps [] [] 0 0 0 0 0 k [] [] in
  (i, foldl (link_child i) (with_nextId (S i) (put_node n g)) ps).

(** Modelled from the spec: [Var], [Map] and [Map2] are not part of the
    sources at hand (section 6.1). *)
Definition Var (v : V) (g : Graph) : Identifier * Graph :=
  let '(i, g) := newNode KInput [] g in
  (i, with_values (<[i := v]> (values g)) g).

Definition Map (a : Identifier) (g : Graph) : Identifier * Graph :=
  newNode KMap [a] g.

Definition Map2 (a b : Identifier) (g : Graph) : Identifier * Graph :=
  newNode KMap [a; b] g.


Definition OnUpdate (i : Identifier) (l : nat) (g : Graph) : Graph :=
  match nodes g !! i with
  | Some n => put_node (set_listeners (n_onUpdate n ++ [l]) (n_onError n) n) g
  | None => g
  end.

(** Modelled from the spec: [Value()] of a node is not part of the sources
    at hand for inputs and maps; the value of an observer is the value of
    its input, as [observeIncr.Value] reads it, and the zero value once
    the input is gone. *)
Definition Value (g : Graph) (i : Identifier) : V :=
  match nodes g !! i with
  | Some n =>
      match n_kind n with
      | KObserver =>
          match n_parents n with
          | p :: _ => values g !!! p
          | [] => inhabitant
          end
      | _ => values g !!! i
      end
  | None => inhabitant
  end.

(** Modelled from the spec: the [Stabilize] method of the nodes is not
    part of the sources at hand.  An input returns the value it holds, a
    map applies its function to the values of its parents, an observer
    reads through to its input. *)
Definition node_Stabilize (g : Graph) (n : Node) : StabResult V :=
  match n_kind n with
  | KInput => Success (values g !!! n_id n)
  | KMap => fn (n_id n) ((λ p, values g !!! p) <$> n_parents n)
  | KObserver =>
      match n_parents n with
      | p :: _ => Success (values g !!! p)
      | [] => Success inhabitant
      end
  end.

(** Modelled from the spec: [Graph.Stabilize] is not part of the sources
    at hand; what follows is the pseudo-code of section 4.6, statement by
    statement, over the recompute heap of the sources.  Where a node
    returns an error, sections 4.5 and 7 say that the node remains in the
    heap, to be retried by the next stabilization: the node, which
    [RemoveMin] took out for its turn, is put back with [Add] before the
    listeners are called (the pseudo-code does not show that step).

    [for each c in n.children: if c.necessary: heap.Add(c)] *)
Fixpoint add_children (g : Graph) (cs : list Identifier)
    (rh : Heap.recomputeHeap) : option Heap.recomputeHeap :=
  match cs with
  | [] => Some rh
  | c :: rest =>
      cn ← nodes g !! c;
      rh' ← (if isNecessary cn then Heap.Add [view cn] rh else Some rh);
      add_children g rest rh'
  end.

(** [stabilizing := true; stabilizationNum += 1; fire OnStabilizationStart] *)
Definition stabilizeStart (g : Graph) : Graph :=
  fire (EvStabilizationStart <$> onStabilizationStart g)
    (with_stabilizationNum (S (stabilizationNum g)) (with_stabilizing true g)).

(** [apply pending var-sets queued during stabilization]: the value is
    written, [setAt] becomes the upcoming stabilization number and the
    node is added to the heap for the next pass (section 5). *)
Fixpoint apply_pending (q : list (Identifier * V)) (g : Graph) : option Graph :=
  match q with
  | [] => Some g
  | (x, v) :: rest =>
      n ← nodes g !! x;
      let n' := set_setAt (S (stabilizationNum g)) n in
      rh ← Heap.Add [view n'] (recomputeHeap g);
      apply_pending rest
        (with_heap rh (put_node n' (with_values (<[x := v]> (values g)) g)))
  end.

(** The end of a pass that met no error. *)
Definition stabilizeEnd (g : Graph) : option Graph :=
  g' ← apply_pending (setDuringStabilization g) (with_queue [] g);
  Some (fire (flip EvStabilizationEnd None <$> onStabilizationEnd g')
          (with_stabilizing false g')).

(** One turn of the loop either goes on or leaves [Stabilize] with an
    error. *)
Inductive turn :=
  | Continue (g : Graph)
  | Return (g : Graph) (e : error).

(** The body of [while heap not empty]. *)
Definition recompute_turn (g : Graph) : option turn :=
  '(r, rh) ← Heap.RemoveMin (recomputeHeap g);
  i ← r;
  n ← nodes g !! id i;
  let g := with_heap rh g in
  if negb (isNecessary n) then Some (Continue g)
  else
    let result := node_Stabilize g n in
    let g := fire [EvStabilize (n_id n)] g in
    let n := recomputed (stabilizationNum g) n in
    let g := put_node n g in
    match result with
    | Failed e =>
        rh' ← Heap.Add [view n] (recomputeHeap g);
        let g := with_heap rh' g in
        let g := fire ((λ l, EvOnError l (n_id n) e) <$> n_onError n) g in
        let g := with_stabilizing false g in
        let g := fire (flip EvStabilizationEnd (Some e) <$> onStabilizationEnd g) g in
        Some (Return g e)
    | Cutoff => Some (Continue g)
    | Success v =>
        let n := set_changedAt (stabilizationNum g) n in
        let g := put_node n (with_values (<[n_id n := v]> (values g)) g) in
        rh' ← add_children g (n_children n) (recomputeHeap g);
        let g := with_heap rh' g in
        Some (Continue (fire ((λ l, EvOnUpdate l (n_id n)) <$> n_onUpdate n) g))
    end.

(** The loop, with a bound on the number of turns: [None] when the bound
    is reached or the heap panics. *)
Fixpoint stabilize_loop (fuel : nat) (g : Graph) : option (Graph * option error) :=
  if decide (Heap.Len (recomputeHeap g) = 0) then
    g' ← stabilizeEnd g; Some (g', None)
  else
    match fuel with
    | 0 => None
    | S fuel' =>
        t ← recompute_turn g;
        match t with
        | Continue g' => stabilize_loop fuel' g'
        | Return g' e => Some (g', Some e)
        end
    end.

Definition Stabilize (fuel : nat) (g : Graph) : option (Graph * option error) :=
  if stabilizing g then Some (g, Some ErrAlreadyStabilizing)
  else stabilize_loop fuel (stabilizeStart g).

(** Modelled from the spec: [Var.Set] is not part of the sources at hand.
    Section 5: while a stabilization is in progress the write is queued;
    otherwise the value is written and the input is put in the recompute
    heap (section 2), stamped with the upcoming stabilization number. *)
Definition Var_Set (x : Identifier) (v : V) (g : Graph) : option Graph :=
  if stabilizing g then
    Some (with_queue (setDuringStabilization g ++ [(x, v)]) g)
  else apply_pending [(x, v)] g.

(** Modelled from the spec: [observeNodes] is not part of the sources at
    hand.  Section 4.3: a depth-first walk from [root] that adds [o] to the
    observers of the nodes it reaches, skips a node that already holds
    [o], and walks on into the parents of a node that was not necessary
    before.  Such a node is put in the recompute heap, so that the next
    stabilization computes it: section 5 names observer creation among
    the callers that enqueue nodes, and in scenario 1 of section 8 the
    stabilization that follows computes what was observed. *)
Fixpoint observeNodes (fuel : nat) (o : Identifier) (g : Graph)
    (root : Identifier) : option Graph :=
  match fuel with
  | 0 => None
  | S fuel' =>
      n ← nodes g !! root;
      if bool_decide (o ∈ n_observers n) then Some g
      else
        let was := isNecessary n in
        let g := put_node (set_observers (n_observers n ++ [o]) n) g in
        if was then Some g
        else
          rh ← Heap.Add [view n] (recomputeHeap g);
          let g := with_heap rh g in
          foldl (λ og p, g' ← og; observeNodes fuel' o g' p) (Some g) (n_parents n)
  end.

(** Modelled from the spec: [unobserveNodes] is not part of the sources at
    hand.  Section 4.3: the walk of [observeNodes] in reverse: [o] is
    taken out of the observers of the nodes reached; a node whose
    observers become empty is taken out of the recompute heap, and the
    walk goes on into its parents. *)
Fixpoint unobserveNodes (fuel : nat) (o : Identifier) (g : Graph)
    (root : Identifier) : option Graph :=
  match fuel with
  | 0 => None
  | S fuel' =>
      n ← nodes g !! root;
      if bool_decide (o ∈ n_observers n) then
        let os := filter (λ x, x ≠ o) (n_observers n) in
        let g := put_node (set_observers os n) g in
        if bool_decide (os = []) then
          '(_, rh) ← Heap.Remove (view n) (recomputeHeap g);
          let g := with_heap rh g in
          foldl (λ og p, g' ← og; unobserveNodes fuel' o g' p) (Some g) (n_parents n)
        else Some g
      else Some g
  end.

(** [ObserveContext], from the sources: the observer is created and
    linked to its input, added to the graph's observers, put in the
    recompute heap, and the nodes under the input are observed.  The
    walk is given as many steps as the input is high. *)
Definition Observe (input : Identifier) (g : Graph) : option (Identifier * Graph) :=
  inp ← nodes g !! input;
  let '(o, g) := newNode KObserver [input] g in
  let g := with_observers (observers g ++ [o]) g in
  on ← nodes g !! o;
  rh ← Heap.Add [view on] (recomputeHeap g);
  g' ← observeNodes (S (n_height inp)) o (with_heap rh g) input;
  Some (o, g').

(** [observeIncr.Unobserve], from the sources: the nodes under the input
    are unobserved, the observer is removed from the graph's observers,
    unlinked from its parents, and left without children, parents and
    input. *)
Definition Unlink (c : Identifier) (g : Graph) (p : Identifier) : Graph :=
  match nodes g !! p with
  | Some pn => put_node (set_children (filter (λ x, x ≠ c) (n_children pn)) pn) g
  | None => g
  end.

Definition Unobserve (o : Identifier) (g : Graph) : option Graph :=
  on ← nodes g !! o;
  g ← (match n_parents on with
       | input :: _ =>
           inp ← nodes g !! input;
           unobserveNodes (S (n_height inp)) o g input
       | [] => Some g
       end);
  let g := with_observers (filter (λ x, x ≠ o) (observers g)) g in
  let g := foldl (Unlink o) g (n_parents on) in
  on' ← nodes g !! o;
  Some (put_node (set_children [] (set_parents [] on')) g).

(** *** What holds of a graph between operations *)

(** Every node is stored under its identifier. *)
Definition ids_ok (g : Graph) : Prop :=
  ∀ k n, nodes g !! k = Some n → n_id n = k.

(** Height validity (invariant 1 of section 3.2), along the edges to the
    dependents: a dependent is a known node and is strictly higher. *)
Definition heights_ok (g : Graph) : Prop :=
  ∀ k n c, nodes g !! k = Some n → c ∈ n_children n →
    ∃ cn, nodes g !! c = Some cn ∧ n_height n < n_height cn.

(** The bucket index of every entry of the heap is the current height of
    a known node (invariant of section 4.1). *)
Definition heap_ok (g : Graph) : Prop :=
  ∀ k it, Heap.lookup (recomputeHeap g) !! k = Some it →
    ∃ n, nodes g !! k = Some n ∧
         Heap.item_height (Heap.value it) = n_height n.

Record graph_ok (g : Graph) : Prop := mkGraphOk {
  ok_heap_wf : Heap.wf (recomputeHeap g);
  ok_heap_min : Heap.min_ok (recomputeHeap g);
  ok_ids : ids_ok g;
  ok_heights : heights_ok g;
  ok_heap : heap_ok g;
}.

(** [turns k g g']: [k] turns of the loop lead from [g] to [g'], none of
    them leaving [Stabilize]. *)
Inductive turns : nat → Graph → Graph → Prop :=
  | turns_O g : turns 0 g g
  | turns_S k g g1 g2 :
      Heap.Len (recomputeHeap g) ≠ 0 →
      recompute_turn g = Some (Continue g1) →
      turns k g1 g2 → turns (S k) g g2.

(** The states of a graph while a stabilization is in progress: after its
    start, after any number of turns of its loop, and after calls of
    [Var.Set] made meanwhile. *)
Inductive in_pass : Graph → Prop :=
  | in_pass_start g : stabilizing g = false → in_pass (stabilizeStart g)
  | in_pass_turn g g' :
      in_pass g → Heap.Len (recomputeHeap g) ≠ 0 →
      recompute_turn g = Some (Continue g') → in_pass g'
  | in_pass_Set g x v g' :
      in_pass g → Var_Set x v g = Some g' → in_pass g'.

(** The nodes whose [Stabilize] was called, in order. *)
Definition stab_ids (evs : list Event) : list Identifier :=
  omap (λ e, match e with EvStabilize n => Some n | _ => None end) evs.

(** The part of a node that a stabilization does not write. *)
Definition static (n : Node)
  : Identifier * nat * list Identifier * list Identifier * list Identifier *
    Kind * list nat * list nat :=
  (n_id n, n_height n, n_parents n, n_children n, n_observers n, n_kind n,
   n_onUpdate n, n_onError n).

(** The nodes [P] have had their turn in this pass: they are out of the
    heap, and nothing in the heap lies below them. *)
Definition settled (g : Graph) (P : list Identifier) : Prop :=
  NoDup P ∧
  ∀ p, p ∈ P →
    Heap.lookup (recomputeHeap g) !! p = None ∧
    ∃ pn, nodes g !! p = Some pn ∧
      ∀ k x, Heap.lookup (recomputeHeap g) !! k = Some x →
        n_height pn ≤ Heap.item_height (Heap.value x).

(** The queued var-sets name known nodes. *)
Definition queue_ok (g : Graph) : Prop :=
  ∀ y w, (y, w) ∈ setDuringStabilization g → is_Some (nodes g !! y).

(** [graph_ok] and [queue_ok] as a check that can be run on a given
    graph. *)
Definition graph_okb (g : Graph) : bool :=
  Heap.wfb (recomputeHeap g) && Heap.min_okb (recomputeHeap g)
  && bool_decide (map_Forall (λ k n, n_id n = k) (nodes g))
  && bool_decide (map_Forall (λ k n,
       forallb (λ c, match nodes g !! c with
                     | Some cn => bool_decide (n_height n < n_height cn)
                     | None => false
                     end) (n_children n) = true) (nodes g))
  && bool_decide (map_Forall (λ k it,
       match nodes g !! k with
       | Some n => bool_decide (Heap.item_height (Heap.value it) = n_height n)
       | None => false
       end = true) (Heap.lookup (recomputeHeap g)))
  && forallb (λ yw, bool_decide (is_Some (nodes g !! yw.1)))
       (setDuringStabilization g).

(** *** What observing relies on *)

(** The dependencies of every node are known nodes that lie strictly
    lower (invariant 1 of section 3.2, along the edges to the
    dependencies), and the identifiers in use are below the next one to
    be handed out. *)
Record links_ok (g : Graph) : Prop := mkLinksOk {
  lk_heap_wf : Heap.wf (recomputeHeap g);
  lk_ids : ids_ok g;
  lk_parents : ∀ k n p, nodes g !! k = Some n → p ∈ n_parents n →
    ∃ pn, nodes g !! p = Some pn ∧ n_height pn < n_height n;
  lk_fresh : ∀ k n, nodes g !! k = Some n →
    k < nextId g ∧ ∀ x, x ∈ n_observers n → x < nextId g;
}.

Definition links_okb (g : Graph) : bool :=
  Heap.wfb (recomputeHeap g)
  && bool_decide (map_Forall (λ k n, n_id n = k) (nodes g))
  && bool_decide (map_Forall (λ k n,
       forallb (λ p, match nodes g !! p with
                     | Some pn => bool_decide (n_height pn < n_height n)
                     | None => false
                     end) (n_parents n) = true) (nodes g))
  && bool_decide (map_Forall (λ k n,
       k < nextId g ∧ Forall (λ x, x < nextId g) (n_observers n)) (nodes g)).

(** The walk of [observeNodes] for the observer [o], seen from the graph
    [g0] it starts on: what it asks of [g0], the node it leaves where it
    came by, and the graph after it came by the nodes [M]. *)
Record walk_ok (o : Identifier) (g0 : Graph) : Prop := mkWalkOk {
  wk_ids : ids_ok g0;
  wk_parents : ∀ k n p, nodes g0 !! k = Some n → p ∈ n_parents n →
    ∃ pn, nodes g0 !! p = Some pn ∧ n_height pn < n_height n;
  wk_fresh : ∀ k n, nodes g0 !! k = Some n → o ∉ n_observers n;
}.

Definition mark (o : Identifier) (n : Node) : Node :=
  set_observers (n_observers n ++ [o]) n.

Definition observed_upto (o : Identifier) (g0 : Graph)
    (M : list Identifier) (g : Graph) : Prop :=
  (∀ k, nodes g !! k =
        if decide (k ∈ M) then mark o <$> (nodes g0 !! k) else nodes g0 !! k) ∧
  Heap.wf (recomputeHeap g).

(** The graph once [unobserveNodes] came by the nodes [U], of the nodes
    [F] that [observeNodes] had come by. *)
Definition unobserved_upto (o : Identifier) (g0 : Graph)
    (F U : list Identifier) (g : Graph) : Prop :=
  (∀ k, nodes g !! k =
        if decide (k ∈ F ∧ k ∉ U) then mark o <$> (nodes g0 !! k)
        else nodes g0 !! k) ∧
  Heap.wf (recomputeHeap g).

End graph.

End Graph.

(** ** The graphs of the tests *)

Module GraphEx.
Import Graph.

Local Open Scope string_scope.

(** [Test_Stabilize_recombinant_singleUpdate]:
    [a -> b -> c -> d -> z] and [a -> f -> e -> z]. *)
Definition edge (l : string) (vs : list string) : StabResult string :=
  match vs with
  | [v] => Success (v ++ "->" ++ l)
  | _ => Failed (ErrUser 0)
  end.

Definition fnD (i : Identifier) (vs : list string) : StabResult string :=
  match i with
  | 1 => edge "b" vs
  | 2 => edge "c" vs
  | 3 => edge "d" vs
  | 4 => edge "f" vs
  | 5 => edge "e" vs
  | 6 => match vs with
         | [v0; v1] => Success (v0 ++ "+" ++ v1 ++ "->z")
         | _ => Failed (ErrUser 0)
         end
  | _ => Failed (ErrUser 0)
  end.

Definition diamond_nodes : Graph (V := string) :=
  let g := New 8 in
  let '(a, g) := Var "a" g in
  let '(b, g) := Map a g in
  let '(c, g) := Map b g in
  let '(d, g) := Map c g in
  let '(f, g) := Map a g in
  let '(e, g) := Map f g in
  let '(z, g) := Map2 d e g in
  g.

(** The diamond with [z] (node 6) observed. *)
Definition diamond : Graph (V := string) :=
  default diamond_nodes (snd <$> Observe 6 diamond_nodes).

(** The initial stabilization, [a.Set], and one more stabilization. *)
Definition diamond_once : Graph (V := string) :=
  default diamond (fst <$> Stabilize fnD 16 diamond).

Definition diamond_set : Graph (V := string) :=
  default diamond_once (Var_Set 0 "!a" diamond_once).

Definition diamond_twice : Graph (V := string) :=
  default diamond_set (fst <$> Stabilize fnD 16 diamond_set).




(** [Test_Stabilize_setDuringStabilization]: a var (node 0) holding
    [foo] under a map (node 1) that hands its value on. *)
Definition fnS (i : Identifier) (vs : list string) : StabResult string :=
  match vs with
  | [v] => Success v
  | _ => Failed (ErrUser 0)
  end.

Definition setting : Graph (V := string) :=
  let g := New 8 in
  let '(v0, g) := Var "foo" g in
  let '(m0, g) := Map v0 g in
  default g (snd <$> Observe m0 g).

(** The stabilization of [setting] after the turn of the var, when the
    function of the map is about to run. *)
Definition setting_mid : Graph (V := string) :=
  default setting
    (match recompute_turn fnS (stabilizeStart setting) with
     | Some (Continue g) => Some g
     | _ => None
     end).

(** [Test_Observe_Unobserve]: two vars (nodes 0 and 2), a map over each
    (nodes 1 and 3), and the first map observed. *)
Definition pair : Graph (V := string) :=
  let g := New 8 in
  let '(v0, g) := Var "hello 0" g in
  let '(m0, g) := Map v0 g in
  let '(v1, g) := Var "hello 1" g in
  let '(m1, g) := Map v1 g in
  default g (snd <$> Observe m0 g).

End GraphEx.


(** * Properties of the recompute heap *)

Import Heap.

Section bucket_facts.
Implicit Types (hs : list (option klist)) (l : klist) (h : nat).

Lemma bucket_of_insert hs h h' l :
  h < length hs →
  bucket_of (<[h := Some l]> hs) h' = if decide (h' = h) then l else bucket_of hs h'.
Proof.
  intros Hlt. unfold bucket_of. case_decide as Hd.
  - subst h'. by rewrite list_lookup_insert_eq.
  - by rewrite list_lookup_insert_ne.
Qed.

Lemma bucket_of_app_nil hs n h :
  bucket_of (hs ++ replicate n None) h = bucket_of hs h.
Proof.
  unfold bucket_of. destruct (decide (h < length hs)) as [Hlt|Hge].
  - by rewrite lookup_app_l.
  - rewrite lookup_app_r; [|lia].
    rewrite (lookup_ge_None_2 hs h); [|lia].
    destruct (replicate n None !! (h - length hs)) as [o|] eqn:E; [|done].
    apply lookup_replicate in E as [-> _]. done.
Qed.

Lemma bucket_of_lookup hs h l :
  hs !! h = Some (Some l) → bucket_of hs h = l.
Proof. unfold bucket_of. by intros ->. Qed.

Lemma bucket_of_nonempty_lookup hs h :
  bucket_of hs h ≠ [] → hs !! h = Some (Some (bucket_of hs h)).
Proof.
  unfold bucket_of. destruct (hs !! h) as [[l|]|]; naive_solver.
Qed.

Lemma bucket_of_nonempty_lt hs h :
  bucket_of hs h ≠ [] → h < length hs.
Proof.
  intros H%bucket_of_nonempty_lookup. by eapply lookup_lt_Some.
Qed.

Lemma has_nodes_bucket_of hs h b :
  hs !! h = Some b → has_nodes b = true ↔ bucket_of hs h ≠ [].
Proof.
  unfold bucket_of. intros ->. destruct b as [[|??]|]; naive_solver.
Qed.

Lemma bucket_of_replicate n h : bucket_of (replicate n None) h = [].
Proof.
  unfold bucket_of.
  destruct (replicate n None !! h) as [o|] eqn:E; [|done].
  apply lookup_replicate in E as [-> _]. done.
Qed.
End bucket_facts.

(** The loop of [nextMinHeightUnsafe] stops at the first list with nodes. *)
Lemma scan_heights_found hs x n j :
  x ≤ j → j < x + n → bucket_of hs j ≠ [] →
  ∃ m, scan_heights hs x n = Some m ∧ x ≤ m ≤ j ∧ bucket_of hs m ≠ [] ∧
       ∀ i, x ≤ i < m → bucket_of hs i = [].
Proof.
  revert x. induction n as [|n IH]; intros x Hxj Hj Hne; [lia|].
  pose proof (bucket_of_nonempty_lt _ _ Hne) as Hlen.
  simpl. destruct (hs !! x) as [b|] eqn:Hb; simpl.
  2: { apply lookup_ge_None in Hb. lia. }
  destruct (has_nodes b) eqn:Hn.
  - exists x. split; [done|]. split; [lia|]. split.
    + by apply (has_nodes_bucket_of _ _ _ Hb).
    + intros i ?. lia.
  - assert (bucket_of hs x = []) as Hx.
    { destruct (decide (bucket_of hs x = [])) as [|Hc]; [done|].
      apply (has_nodes_bucket_of _ _ _ Hb) in Hc. congruence. }
    assert (x ≠ j) by (intros ->; done).
    destruct (IH (S x)) as (m & Hm & Hr & Hmne & Hbelow); [lia|lia|done|].
    exists m. split; [done|]. split; [lia|]. split; [done|].
    intros i Hi. destruct (decide (i = x)) as [->|]; [done|]. apply Hbelow. lia.
Qed.

Lemma first_with_nodes_spec hs x m :
  m < length hs → bucket_of hs m ≠ [] →
  (∀ i, i < m → bucket_of hs i = []) →
  first_with_nodes hs x = x + m.
Proof.
  revert x m. induction hs as [|b hs IH]; intros x m Hlt Hne Hbelow; simpl in *; [lia|].
  destruct m as [|m].
  - unfold bucket_of in Hne. simpl in Hne.
    destruct b as [[|??]|]; simpl; try done; lia.
  - pose proof (Hbelow 0 ltac:(lia)) as H0. unfold bucket_of in H0. simpl in H0.
    assert (has_nodes b = false) as -> by (destruct b as [[|??]|]; done).
    rewrite (IH (S x) m); [lia|lia|done|].
    intros i Hi. apply (Hbelow (S i)). lia.
Qed.

Lemma first_with_nodes_none hs x :
  (∀ i, bucket_of hs i = []) → first_with_nodes hs x = 0.
Proof.
  revert x. induction hs as [|b hs IH]; intros x Hall; simpl; [done|].
  pose proof (Hall 0) as H0. unfold bucket_of in H0. simpl in H0.
  assert (has_nodes b = false) as -> by (destruct b as [[|??]|]; done).
  apply IH. intros i. apply (Hall (S i)).
Qed.

(** *** [addNodeUnsafe] *)

Lemma addNodeUnsafe_shape s rh :
  ∃ rh', addNodeUnsafe s rh = Some rh' ∧
    lookup rh' = <[id s := item_of s]> (lookup rh) ∧
    (∀ h, bucket rh' h =
          if decide (h = height s) then bucket rh (height s) ++ [item_of s]
          else bucket rh h) ∧
    minHeight rh' = (if decide (size (lookup rh) = 0) then height s
                     else minHeight rh `min` height s) ∧
    maxHeight rh' = (if decide (size (lookup rh) = 0) then height s
                     else maxHeight rh `max` height s) ∧
    length (heights rh') = length (heights rh) `max` S (height s) ∧
    heights rh' =
      <[height s := Some (bucket rh (height s) ++ [item_of s])]>
        (heights rh ++ replicate (S (height s) - length (heights rh)) None).
Proof.
  unfold addNodeUnsafe.
  set (rh1 := maybeUpdateMinMaxHeights (height s) rh).
  set (rh2 := maybeAddNewHeights (height s) rh1).
  assert (heights rh1 = heights rh ∧ lookup rh1 = lookup rh) as [Hh1 Hl1].
  { unfold rh1, maybeUpdateMinMaxHeights. by case_decide. }
  assert (lookup rh2 = lookup rh ∧ minHeight rh2 = minHeight rh1 ∧
          maxHeight rh2 = maxHeight rh1 ∧
          (∀ h, bucket_of (heights rh2) h = bucket_of (heights rh) h) ∧
          height s < length (heights rh2) ∧
          length (heights rh2) = length (heights rh) `max` S (height s) ∧
          heights rh2 =
            heights rh ++ replicate (S (height s) - length (heights rh)) None)
    as (Hl2 & Hmin2 & Hmax2 & Hb2 & Hlen2 & Hlen2' & Hhs2).
  { unfold rh2, maybeAddNewHeights. case_decide as Hd; simpl.
    - rewrite Hh1 in Hd |- *. split_and!; try done.
      + intros h. apply bucket_of_app_nil.
      + rewrite length_app, length_replicate. lia.
      + rewrite length_app, length_replicate. lia.
      + do 2 f_equal. lia.
    - rewrite Hh1 in Hd |- *. split_and!; try done; try lia.
      replace (S (height s) - length (heights rh)) with 0 by lia.
      simpl. by rewrite app_nil_r. }
  destruct (heights rh2 !! height s) as [b|] eqn:Hb.
  2: { apply lookup_ge_None in Hb. lia. }
  simpl. eexists. split; [done|]. simpl.
  assert (default [] b = bucket rh (height s)) as ->.
  { unfold bucket. rewrite <- Hb2. unfold bucket_of. rewrite Hb. by destruct b. }
  split; [by rewrite Hl2|]. split.
  { intros h. unfold bucket at 1. simpl. rewrite bucket_of_insert by done.
    case_decide; [done|]. apply Hb2. }
  rewrite Hmin2, Hmax2, length_insert, <- Hhs2.
  unfold rh1, maybeUpdateMinMaxHeights.
  case_decide; simpl; [done|].
  split_and!; try done; repeat case_decide; lia.
Qed.

Lemma wf_lookup_empty_buckets rh :
  wf rh → size (lookup rh) = 0 → ∀ h, bucket rh h = [].
Proof.
  intros Hwf Hsz h. apply map_size_empty_inv in Hsz.
  destruct (bucket rh h) as [|it l] eqn:E; [done|].
  destruct (wf_bucket _ Hwf h it) as [Hl _]; [rewrite E; left|].
  rewrite Hsz in Hl. by rewrite lookup_empty in Hl.
Qed.

Lemma addNodeUnsafe_wf s rh :
  wf rh → lookup rh !! id s = None →
  ∃ rh', addNodeUnsafe s rh = Some rh' ∧ wf rh' ∧
    lookup rh' = <[id s := item_of s]> (lookup rh) ∧
    (∀ h, bucket rh' h =
          if decide (h = height s) then bucket rh (height s) ++ [item_of s]
          else bucket rh h) ∧
    minHeight rh' = (if decide (size (lookup rh) = 0) then height s
                     else minHeight rh `min` height s) ∧
    maxHeight rh' = (if decide (size (lookup rh) = 0) then height s
                     else maxHeight rh `max` height s).
Proof.
  intros Hwf Hfresh.
  destruct (addNodeUnsafe_shape s rh)
    as (rh' & Heq & Hlk & Hbk & Hmin & Hmax & Hlen & _).
  exists rh'. split; [done|]. split; [|done].
  assert (∀ h it, it ∈ bucket rh h → key it ≠ id s) as Hkeys.
  { intros h it Hin Hk. apply (wf_bucket _ Hwf) in Hin as [Hin _].
    rewrite Hk in Hin. congruence. }
  split.
  - intros k it. rewrite Hlk. intros Hit.
    destruct (decide (k = id s)) as [->|Hne].
    + rewrite lookup_insert_eq in Hit. injection Hit as <-. simpl.
      split_and!; try done. rewrite Hbk. rewrite decide_True by done.
      apply elem_of_app. right. by left.
    + rewrite lookup_insert_ne in Hit by done.
      destruct (wf_lookup _ Hwf _ _ Hit) as (?&?&Hin). split_and!; try done.
      rewrite Hbk. goal_decide Hd; [|done].
      rewrite Hd in Hin. apply elem_of_app. by left.
  - intros h it. rewrite Hbk, Hlk. goal_decide Hd.
    + subst h. intros [Hin| ->%list_elem_of_singleton]%elem_of_app.
      * rewrite lookup_insert_ne by (symmetry; by eapply Hkeys).
        by apply (wf_bucket _ Hwf).
      * simpl. by rewrite lookup_insert_eq.
    + intros Hin. rewrite lookup_insert_ne by (symmetry; by eapply Hkeys).
      by apply (wf_bucket _ Hwf).
  - intros h. rewrite Hbk. goal_decide Hd; [|apply (wf_nodup _ Hwf)].
    rewrite fmap_app. apply NoDup_app. split; [apply (wf_nodup _ Hwf)|].
    split; [|apply NoDup_singleton].
    intros k Hk [->|[]%not_elem_of_nil]%elem_of_cons. simpl in Hk.
    apply list_elem_of_fmap in Hk as (it & Hkey & Hin).
    by eapply Hkeys.
  - intros h. rewrite Hbk, Hmin, Hmax. goal_decide Hd.
    + subst h. intros _. repeat case_decide; lia.
    + intros Hne. goal_decide Hsz.
      * by rewrite (wf_lookup_empty_buckets _ Hwf Hsz) in Hne.
      * apply (wf_range _ Hwf) in Hne. lia.
  - rewrite Hmin, Hlen. pose proof (wf_min_index _ Hwf). case_decide; lia.
  - rewrite Hmax, Hlen. pose proof (wf_max_index _ Hwf). case_decide; lia.
Qed.

Lemma addNodeUnsafe_min_ok s rh rh' :
  wf rh → lookup rh !! id s = None → min_ok rh →
  addNodeUnsafe s rh = Some rh' → min_ok rh'.
Proof.
  intros Hwf Hfresh Hok Heq.
  destruct (addNodeUnsafe_wf s rh Hwf Hfresh)
    as (rh'' & Heq' & Hwf' & Hlk & Hbk & Hmin & Hmax).
  rewrite Heq in Heq'. injection Heq' as <-.
  unfold min_ok in *. rewrite Hlk.
  rewrite map_size_insert_None by done.
  rewrite decide_False by lia.
  rewrite Hbk, Hmin. destruct (decide (size (lookup rh) = 0)) as [Hsz|Hsz].
  - rewrite decide_True by done. by intros [_ ?]%app_eq_nil.
  - goal_decide Hd.
    + by intros [_ ?]%app_eq_nil.
    + intros Hnil. apply Hok.
      destruct (Nat.min_spec (minHeight rh) (height s)) as [[? E]|[? E]];
        rewrite E in Hnil, Hd; done.
Qed.

(** *** [removeItemUnsafe] *)

Lemma NoDup_keys_filter (P : listItem → Prop) `{!∀ x, Decision (P x)} (l : klist) :
  NoDup (key <$> l) → NoDup (key <$> filter P l).
Proof.
  intros Hnd. eapply sublist_NoDup; [exact Hnd|].
  apply fmap_sublist, sublist_filter.
Qed.

Lemma filter_keys_id (k : Identifier) (l : klist) :
  (∀ x, x ∈ l → key x ≠ k) → filter (λ x, key x ≠ k) l = l.
Proof.
  induction l as [|x l IH]; intros Hall; [done|].
  rewrite filter_cons_True by (apply Hall; left).
  f_equal. apply IH. intros y Hy. apply Hall. by right.
Qed.

(** In a well-formed heap the key [k] only occurs in the list of the
    height its item records. *)
Lemma wf_key_unique rh k it h x :
  wf rh → lookup rh !! k = Some it → x ∈ bucket rh h → key x = k →
  x = it ∧ h = item_height (value it).
Proof.
  intros Hwf Hit Hx Hk. destruct (wf_bucket _ Hwf _ _ Hx) as [Hl Hh].
  rewrite Hk, Hit in Hl. injection Hl as ->. done.
Qed.

Lemma without_bucket rh k it h :
  wf rh → lookup rh !! k = Some it →
  bucket (without it rh) h = filter (λ x, key x ≠ k) (bucket rh h).
Proof.
  intros Hwf Hit. destruct (wf_lookup _ Hwf _ _ Hit) as (Hk & _ & Hin).
  unfold bucket at 1, without. simpl.
  rewrite bucket_of_insert.
  2: { eapply bucket_of_nonempty_lt. intros E. unfold bucket in Hin.
       rewrite E in Hin. by apply not_elem_of_nil in Hin. }
  rewrite Hk. goal_decide Hd; [by subst h|].
  symmetry. apply filter_keys_id. intros x Hx Hkx.
  destruct (wf_key_unique _ _ _ _ _ Hwf Hit Hx Hkx). done.
Qed.

Lemma without_facts rh k it :
  wf rh → lookup rh !! k = Some it →
  let rh0 := without it rh in
  (∀ k' x, lookup rh0 !! k' = Some x →
     key x = k' ∧ id (node (value x)) = k' ∧ x ∈ bucket rh0 (item_height (value x))) ∧
  (∀ h x, x ∈ bucket rh0 h →
     lookup rh0 !! key x = Some x ∧ item_height (value x) = h) ∧
  (∀ h, NoDup (key <$> bucket rh0 h)) ∧
  (∀ h, bucket rh0 h ≠ [] → minHeight rh ≤ h ≤ maxHeight rh).
Proof.
  intros Hwf Hit. cbv zeta. set (rh0 := without it rh).
  pose proof (λ h, without_bucket rh k it h Hwf Hit) as Hbk. fold rh0 in Hbk.
  destruct (wf_lookup _ Hwf _ _ Hit) as (Hk & _ & Hin).
  assert (lookup rh0 = delete k (lookup rh)) as Hlk by (by rewrite <- Hk).
  split_and!.
  - intros k' x. rewrite Hlk. intros Hx.
    apply lookup_delete_Some in Hx as [Hne Hx].
    destruct (wf_lookup _ Hwf _ _ Hx) as (? & ? & ?). split_and!; try done.
    rewrite Hbk. apply list_elem_of_filter. split; [congruence|done].
  - intros h x. rewrite Hbk.
    intros [Hne Hx]%list_elem_of_filter.
    destruct (wf_bucket _ Hwf _ _ Hx) as [? ?]. split; [|done].
    rewrite Hlk. by rewrite lookup_delete_ne.
  - intros h. rewrite Hbk.
    apply NoDup_keys_filter, (wf_nodup _ Hwf).
  - intros h. rewrite Hbk. intros Hne.
    apply (wf_range _ Hwf). intros E. rewrite E in Hne. done.
Qed.

Lemma removeItemUnsafe_eq rh k it :
  wf rh → lookup rh !! k = Some it →
  removeItemUnsafe it rh =
    let rh0 := without it rh in
    if bool_decide (item_height (value it) = minHeight rh)
       && bool_decide (length (bucket rh0 (item_height (value it))) = 0)
    then m ← nextMinHeightUnsafe rh0; Some (set_minHeight m rh0)
    else Some rh0.
Proof.
  intros Hwf Hit. destruct (wf_lookup _ Hwf _ _ Hit) as (Hk & _ & Hin).
  assert (bucket rh (item_height (value it)) ≠ []) as Hne.
  { intros E. rewrite E in Hin. by apply not_elem_of_nil in Hin. }
  pose proof (bucket_of_nonempty_lookup _ _ Hne) as Hl.
  unfold removeItemUnsafe. rewrite Hl. simpl.
  unfold without, bucket in *. simpl.
  rewrite (bucket_of_insert (heights rh)) by (by eapply bucket_of_nonempty_lt).
  rewrite decide_True by done. done.
Qed.

(** Looking for the next minimum in a heap whose nodes all lie between
    [minHeight] and [maxHeight]. *)
Lemma nextMinHeightUnsafe_spec rh :
  (∀ k x, lookup rh !! k = Some x → x ∈ bucket rh (item_height (value x))) →
  (∀ h, bucket rh h ≠ [] → minHeight rh ≤ h ≤ maxHeight rh) →
  ∃ m, nextMinHeightUnsafe rh = Some m ∧
    if decide (size (lookup rh) = 0) then m = 0
    else minHeight rh ≤ m ≤ maxHeight rh ∧ bucket rh m ≠ [] ∧
         ∀ i, i < m → bucket rh i = [].
Proof.
  intros HL HR. unfold nextMinHeightUnsafe.
  destruct (decide (size (lookup rh) = 0)) as [Hsz|Hsz]; [by exists 0|].
  apply map_size_ne_0_lookup_1 in Hsz as [k [x Hx]].
  apply HL in Hx.
  assert (bucket rh (item_height (value x)) ≠ []) as Hne.
  { intros E. rewrite E in Hx. by apply not_elem_of_nil in Hx. }
  pose proof (HR _ Hne) as Hr.
  destruct (scan_heights_found (heights rh) (minHeight rh)
              (S (maxHeight rh) - minHeight rh) (item_height (value x)))
    as (m & Hm & Hrange & Hmne & Hbelow); [lia|lia|done|].
  exists m. split; [done|]. split_and!; try done; try lia.
  intros i Hi. destruct (decide (minHeight rh ≤ i)) as [Hle|Hlt].
  - apply Hbelow. lia.
  - destruct (decide (bucket rh i = [])) as [|Hc]; [done|].
    apply HR in Hc. lia.
Qed.

Lemma removeItemUnsafe_wf rh k it :
  wf rh → lookup rh !! k = Some it →
  ∃ rh', removeItemUnsafe it rh = Some rh' ∧ wf rh' ∧
    lookup rh' = delete k (lookup rh) ∧
    heights rh' = heights (without it rh) ∧
    (∀ h, bucket rh' h = filter (λ x, key x ≠ k) (bucket rh h)) ∧
    maxHeight rh' = maxHeight rh ∧
    (size (lookup rh') ≠ 0 → minHeight rh ≤ minHeight rh') ∧
    (minHeight rh' = minHeight rh ∨ item_height (value it) = minHeight rh) ∧
    (min_ok rh → min_ok rh').
Proof.
  intros Hwf Hit. rewrite (removeItemUnsafe_eq rh k it) by done.
  destruct (without_facts rh k it Hwf Hit) as (HL & HB & HN & HR).
  pose proof (λ h, without_bucket rh k it h Hwf Hit) as Hbk.
  destruct (wf_lookup _ Hwf _ _ Hit) as (Hk & _ & Hin).
  cbv zeta in *.
  assert (lookup (without it rh) = delete k (lookup rh)) as Hlk by (simpl; by rewrite Hk).
  assert (length (heights (without it rh)) = length (heights rh)) as Hlen
    by (simpl; by rewrite length_insert).
  assert (minHeight (without it rh) = minHeight rh) as Hmin0 by done.
  assert (maxHeight (without it rh) = maxHeight rh) as Hmax0 by done.
  remember (without it rh) as rh0 eqn:Hrh0. clear Hrh0.
  destruct (bool_decide (item_height (value it) = minHeight rh)
            && bool_decide (length (bucket rh0 (item_height (value it))) = 0))
    eqn:Hcase.
  - apply andb_true_iff in Hcase as [Hh%bool_decide_eq_true Hlast%bool_decide_eq_true].
    destruct (nextMinHeightUnsafe_spec rh0) as (m & Hm & Hspec).
    { intros ???. by eapply HL. }
    { rewrite Hmin0, Hmax0. done. }
    rewrite Hm. simpl. eexists. split; [done|].
    assert (∀ h, bucket (set_minHeight m rh0) h = bucket rh0 h) as Hsame by done.
    split_and!; try done.
    + split; simpl; try done.
      * intros h Hne. rewrite Hsame in Hne.
        destruct (decide (size (lookup rh0) = 0)) as [Hsz|Hsz].
        -- exfalso. apply Hne. destruct (bucket rh0 h) as [|x l] eqn:E; [done|].
           destruct (HB h x) as [Hx _]; [rewrite E; left|].
           apply map_size_empty_inv in Hsz. rewrite Hsz in Hx.
           by rewrite lookup_empty in Hx.
        -- destruct Hspec as (? & ? & Hbelow). split; [|apply HR in Hne; lia].
           destruct (decide (m ≤ h)) as [|Hlt]; [done|].
           exfalso. apply Hne, Hbelow. lia.
      * rewrite Hlen. destruct (decide (size (lookup rh0) = 0)).
        -- subst m. pose proof (wf_min_index _ Hwf). lia.
        -- destruct Hspec as (? & ? & ?). pose proof (wf_max_index _ Hwf). lia.
      * rewrite Hlen, Hmax0. apply (wf_max_index _ Hwf).
    + simpl. intros Hsz. rewrite decide_False in Hspec by done. lia.
    + by right.
    + intros _. unfold min_ok. simpl.
      destruct (decide (size (lookup rh0) = 0)); [done|].
      rewrite Hsame. by destruct Hspec as (? & ? & ?).
  - eexists. split; [done|]. split_and!; try done.
    + split; try done.
      * rewrite Hmin0, Hmax0. done.
      * rewrite Hlen, Hmin0. apply (wf_min_index _ Hwf).
      * rewrite Hlen, Hmax0. apply (wf_max_index _ Hwf).
    + intros _. lia.
    + by left.
    + intros Hok. unfold min_ok in *. rewrite Hmin0.
      apply andb_false_iff in Hcase.
      assert (bucket rh (minHeight rh) ≠ []) as Hminne.
      { rewrite decide_False in Hok; [done|].
        apply map_size_ne_0_lookup_2 with k. by eexists. }
      assert (bucket rh0 (minHeight rh) ≠ []) as Hgoal.
      { destruct Hcase as [Hh%bool_decide_eq_false|Hlast%bool_decide_eq_false].
        - rewrite Hbk. rewrite filter_keys_id; [done|].
          intros x Hx Hkx.
          destruct (wf_key_unique _ _ _ _ _ Hwf Hit Hx Hkx). congruence.
        - destruct (decide (item_height (value it) = minHeight rh)) as [E|Hh].
          + rewrite <- E. intros E'. apply Hlast. by rewrite E'.
          + rewrite Hbk. rewrite filter_keys_id; [done|].
            intros x Hx Hkx.
            destruct (wf_key_unique _ _ _ _ _ Hwf Hit Hx Hkx). congruence. }
      destruct (decide (size (lookup rh0) = 0)) as [Hsz|Hsz]; [|done].
      exfalso. destruct (bucket rh0 (minHeight rh)) as [|x l] eqn:E; [done|].
      destruct (HB (minHeight rh) x) as [Hx _]; [rewrite E; left|].
      apply map_size_empty_inv in Hsz. rewrite Hsz in Hx.
      by rewrite lookup_empty in Hx.
Qed.

(** *** [Add] of one node *)

Lemma wf_absent_keys rh k h x :
  wf rh → lookup rh !! k = None → x ∈ bucket rh h → key x ≠ k.
Proof.
  intros Hwf Hnone Hx Hk. apply (wf_bucket _ Hwf) in Hx as [Hx _].
  rewrite Hk in Hx. congruence.
Qed.

Lemma addUnsafe1_spec n rh :
  wf rh →
  ∃ rh', addUnsafe1 n rh = Some rh' ∧ wf rh' ∧
    lookup rh' = <[id n := item_of n]> (lookup rh) ∧
    (∀ h, bucket rh' h =
          filter (λ x, key x ≠ id n) (bucket rh h) ++
          (if decide (h = height n) then [item_of n] else [])) ∧
    (size (lookup rh') = 1 →
       minHeight rh' = height n ∧ maxHeight rh' = height n) ∧
    (min_ok rh → min_ok rh').
Proof.
  intros Hwf. unfold addUnsafe1.
  destruct (lookup rh !! id n) as [cur|] eqn:Hcur.
  - destruct (removeItemUnsafe_wf rh (id n) cur Hwf Hcur)
      as (rh1 & Hrm & Hwf1 & Hlk1 & _ & Hbk1 & _ & _ & _ & Hok1).
    rewrite Hrm. simpl.
    assert (lookup rh1 !! id n = None) as Hfresh
      by (rewrite Hlk1; apply lookup_delete_eq).
    destruct (addNodeUnsafe_wf n rh1 Hwf1 Hfresh)
      as (rh' & Hadd & Hwf' & Hlk & Hbk & Hmin & Hmax).
    exists rh'. split_and!; try done.
    + rewrite Hlk, Hlk1. apply insert_delete_eq.
    + intros h. rewrite Hbk. goal_decide Hd.
      * subst h. by rewrite Hbk1.
      * rewrite Hbk1. by rewrite app_nil_r.
    + rewrite Hlk, map_size_insert_None by done. intros Hsz.
      rewrite Hmin, Hmax. rewrite !decide_True by lia. done.
    + intros Hok. eapply (addNodeUnsafe_min_ok n rh1); eauto.
  - destruct (addNodeUnsafe_wf n rh Hwf Hcur)
      as (rh' & Hadd & Hwf' & Hlk & Hbk & Hmin & Hmax).
    exists rh'. split_and!; try done.
    + intros h. rewrite Hbk.
      rewrite !filter_keys_id by (intros x Hx; by eapply (wf_absent_keys rh)).
      goal_decide Hd; [by subst h|]. by rewrite app_nil_r.
    + rewrite Hlk, map_size_insert_None by done. intros Hsz.
      rewrite Hmin, Hmax. rewrite !decide_True by lia. done.
    + intros Hok. eapply (addNodeUnsafe_min_ok n rh); eauto.
Qed.

Lemma addUnsafe1_just_added n rh rh' :
  wf rh → addUnsafe1 n rh = Some rh' → just_added n rh'.
Proof.
  intros Hwf Heq.
  destruct (addUnsafe1_spec n rh Hwf) as (rh'' & Heq' & Hwf' & Hlk & Hbk & Hone & _).
  rewrite Heq in Heq'. injection Heq' as <-.
  split_and!; try done.
  - rewrite Hlk. apply lookup_insert_eq.
  - eexists. rewrite Hbk. rewrite decide_True by done. done.
Qed.

Lemma just_added_again n rh :
  just_added n rh → addUnsafe1 n rh = Some rh.
Proof.
  intros (Hwf & Hit & [l Hl] & Hone). unfold addUnsafe1. rewrite Hit.
  destruct (removeItemUnsafe_wf rh (id n) (item_of n) Hwf Hit)
    as (rh1 & Hrm & Hwf1 & Hlk1 & Hhs1 & Hbk1 & Hmax1 & Hmin1 & Hmin1' & _).
  rewrite Hrm. simpl.
  destruct (addNodeUnsafe_shape n rh1)
    as (rh' & Hadd & Hlk & Hbk & Hmin & Hmax & Hlen & Hhs).
  rewrite Hadd. f_equal.
  assert (bucket rh (height n) ≠ []) as Hne.
  { rewrite Hl. by intros [_ ?]%app_eq_nil. }
  pose proof (wf_range _ Hwf _ Hne) as Hrange.
  pose proof (bucket_of_nonempty_lookup _ _ Hne) as Hlookup.
  pose proof (bucket_of_nonempty_lt _ _ Hne) as Hlt.
  assert (filter (λ x, key x ≠ id n) (bucket rh (height n)) = l) as Hfilter.
  { rewrite Hl, filter_app, filter_cons_False, filter_nil, app_nil_r
      by (simpl; intros Hc; by apply Hc).
    apply filter_keys_id. intros x Hx Hk.
    pose proof (wf_nodup _ Hwf (height n)) as Hnd.
    rewrite Hl, fmap_app in Hnd. apply NoDup_app in Hnd as (_ & Hnd & _).
    apply (Hnd (key x)); [by apply list_elem_of_fmap_2|].
    rewrite Hk. simpl. by left. }
  assert (size (lookup rh1) = pred (size (lookup rh))) as Hsz1.
  { rewrite Hlk1. apply map_size_delete_Some. by eexists. }
  assert (size (lookup rh) ≠ 0) as Hsz.
  { apply map_size_ne_0_lookup_2 with (id n). by eexists. }
  destruct rh as [mn mx hs lk], rh' as [mn' mx' hs' lk']. simpl in *.
  f_equal.
  - rewrite Hmin. goal_decide Hd.
    + symmetry. apply Hone. lia.
    + specialize (Hmin1 Hd). destruct Hmin1' as [E|E]; lia.
  - rewrite Hmax, Hmax1. goal_decide Hd.
    + symmetry. apply Hone. lia.
    + lia.
  - rewrite Hhs, Hbk1, Hfilter, Hhs1.
    unfold removeUnsafe, bucket. simpl.
    rewrite length_insert.
    replace (S (height n) - length hs) with 0 by lia. simpl.
    rewrite app_nil_r, list_insert_insert_eq.
    apply list_insert_id. unfold bucket in Hl. simpl in Hl. by rewrite <- Hl.
  - rewrite Hlk, Hlk1, insert_delete_eq. by apply insert_id.
Qed.

(** *** The entries of the height lists and [lookup] agree *)

Lemma elem_of_entries rh x :
  x ∈ entries rh ↔ ∃ h, x ∈ bucket rh h.
Proof.
  unfold entries, bucket, bucket_of. rewrite list_elem_of_join. split.
  - intros (l & Hx & Hl). apply list_elem_of_fmap in Hl as (b & -> & Hb).
    apply list_elem_of_lookup in Hb as [h Hh]. exists h. rewrite Hh.
    destruct b; [done|]. by apply not_elem_of_nil in Hx.
  - intros [h Hx]. destruct (heights rh !! h) as [[l|]|] eqn:Hh;
      try (by apply not_elem_of_nil in Hx).
    exists l. split; [done|]. apply list_elem_of_fmap. exists (Some l).
    split; [done|]. by eapply list_elem_of_lookup_2.
Qed.

Lemma NoDup_keys_join (hs : list (option klist)) (off : nat) :
  (∀ i x, x ∈ bucket_of hs i → item_height (value x) = off + i) →
  (∀ i, NoDup (key <$> bucket_of hs i)) →
  (∀ i j x y, x ∈ bucket_of hs i → y ∈ bucket_of hs j → key x = key y → x = y) →
  NoDup (key <$> mjoin (default [] <$> hs)).
Proof.
  revert off. induction hs as [|b hs IH]; intros off Hh Hnd Hinj; simpl.
  { constructor. }
  rewrite fmap_app. apply NoDup_app. split_and!.
  - specialize (Hnd 0). unfold bucket_of in Hnd. simpl in Hnd. by destruct b.
  - intros k Hk1 Hk2.
    apply list_elem_of_fmap in Hk1 as (x & -> & Hx).
    apply list_elem_of_fmap in Hk2 as (y & Hxy & Hy).
    apply list_elem_of_join in Hy as (l & Hy & Hl).
    apply list_elem_of_fmap in Hl as (b' & -> & Hb').
    apply list_elem_of_lookup in Hb' as [j Hj].
    assert (x ∈ bucket_of (b :: hs) 0) as Hx0.
    { unfold bucket_of. simpl. by destruct b. }
    assert (y ∈ bucket_of (b :: hs) (S j)) as Hy0.
    { unfold bucket_of. simpl. rewrite Hj. destruct b'; [done|].
      by apply not_elem_of_nil in Hy. }
    pose proof (Hinj _ _ _ _ Hx0 Hy0 Hxy) as ->.
    apply Hh in Hx0. apply Hh in Hy0. lia.
  - apply (IH (S off)).
    + intros i x Hx. rewrite (Hh (S i) x); [lia|done].
    + intros i. apply (Hnd (S i)).
    + intros i j x y Hx Hy. apply (Hinj (S i) (S j)); done.
Qed.

Lemma wf_NoDup_entries rh : wf rh → NoDup (key <$> entries rh).
Proof.
  intros Hwf. apply (NoDup_keys_join _ 0).
  - intros i x Hx. by apply (wf_bucket _ Hwf) in Hx as [_ ->].
  - apply (wf_nodup _ Hwf).
  - intros i j x y Hx Hy Hk.
    apply (wf_bucket _ Hwf) in Hx as [Hx _]. apply (wf_bucket _ Hwf) in Hy as [Hy _].
    rewrite Hk in Hx. congruence.
Qed.

Lemma wf_entries_lookup rh k :
  wf rh → k ∈ key <$> entries rh ↔ is_Some (lookup rh !! k).
Proof.
  intros Hwf. rewrite list_elem_of_fmap. split.
  - intros (x & -> & Hx). apply elem_of_entries in Hx as [h Hx].
    apply (wf_bucket _ Hwf) in Hx as [Hx _]. by eexists.
  - intros [x Hx]. destruct (wf_lookup _ Hwf _ _ Hx) as (Hk & _ & Hin).
    exists x. split; [done|]. apply elem_of_entries. by eexists.
Qed.

(** [len(lookup)] is the number of entries of the height lists. *)
Lemma wf_Len_entries rh : wf rh → Len rh = length (entries rh).
Proof.
  intros Hwf. unfold Len. rewrite <- length_map_to_list.
  rewrite <- (length_fmap fst), <- (length_fmap key (entries rh)).
  apply Permutation_length, NoDup_Permutation.
  - apply NoDup_fst_map_to_list.
  - by apply wf_NoDup_entries.
  - intros k. rewrite wf_entries_lookup by done.
    rewrite list_elem_of_fmap. split.
    + intros ([k' x] & -> & Hx). apply elem_of_map_to_list in Hx. by eexists.
    + intros [x Hx]. exists (k, x). split; [done|]. by apply elem_of_map_to_list.
Qed.

Lemma count_key_NoDup k (l : klist) :
  NoDup (key <$> l) →
  count_key k l = if decide (k ∈ key <$> l) then 1 else 0.
Proof.
  unfold count_key. induction l as [|x l IH]; intros Hnd.
  { rewrite decide_False; [done|]. apply not_elem_of_nil. }
  rewrite fmap_cons in Hnd |- *. apply NoDup_cons in Hnd as [Hx Hnd].
  rewrite filter_cons. specialize (IH Hnd).
  destruct (decide (key x = k)) as [<-|Hne].
  - rewrite decide_True by left. rewrite decide_False in IH by done.
    cbn [length]. by rewrite IH.
  - rewrite IH. destruct (decide (k ∈ key <$> l)) as [Hin|Hin].
    + rewrite decide_True; [done|]. by right.
    + rewrite decide_False; [done|]. intros [?|?]%elem_of_cons; done.
Qed.

(** A well-formed heap holds every identifier at most once: once when
    [lookup] knows it, not at all otherwise. *)
Lemma wf_count rh k :
  wf rh → count k rh = if decide (is_Some (lookup rh !! k)) then 1 else 0.
Proof.
  intros Hwf. unfold count. rewrite count_key_NoDup by (by apply wf_NoDup_entries).
  destruct (decide (k ∈ key <$> entries rh)) as [Hin|Hin].
  - rewrite decide_True; [done|]. by apply wf_entries_lookup.
  - rewrite decide_False; [done|]. by rewrite <- wf_entries_lookup.
Qed.

(** *** The fresh heap *)

Lemma newRecomputeHeap_wf n : 0 < n → wf (newRecomputeHeap n).
Proof.
  intros Hn. split; simpl.
  - intros k it. by rewrite lookup_empty.
  - intros h it. unfold bucket. simpl. rewrite bucket_of_replicate.
    by intros ?%not_elem_of_nil.
  - intros h. unfold bucket. simpl. rewrite bucket_of_replicate. constructor.
  - intros h. unfold bucket. simpl. by rewrite bucket_of_replicate.
  - by rewrite length_replicate.
  - by rewrite length_replicate.
Qed.

Lemma newRecomputeHeap_min_ok n : min_ok (newRecomputeHeap n).
Proof. unfold min_ok. simpl. by rewrite decide_True. Qed.

(** *** [minHeight] and the smallest list with nodes *)

Lemma min_ok_exact rh : wf rh → min_ok rh ↔ minHeight_exact rh.
Proof.
  intros Hwf. unfold min_ok, minHeight_exact, smallest_nonempty.
  destruct (decide (size (lookup rh) = 0)) as [Hsz|Hsz].
  - rewrite first_with_nodes_none; [done|].
    apply (wf_lookup_empty_buckets _ Hwf Hsz).
  - apply map_size_ne_0_lookup_1 in Hsz as [k [x Hx]].
    destruct (wf_lookup _ Hwf _ _ Hx) as (_ & _ & Hin).
    assert (bucket rh (item_height (value x)) ≠ []) as Hne.
    { intros E. rewrite E in Hin. by apply not_elem_of_nil in Hin. }
    destruct (scan_heights_found (heights rh) 0 (S (item_height (value x)))
                (item_height (value x)))
      as (m & _ & _ & Hm & Hbelow); [lia|lia|done|].
    rewrite (first_with_nodes_spec (heights rh) 0 m);
      [|by eapply bucket_of_nonempty_lt|done|intros i ?; apply Hbelow; lia].
    simpl. split.
    + intros Hmin. pose proof (wf_range _ Hwf _ Hm).
      destruct (decide (minHeight rh = m)) as [|Hd]; [done|].
      exfalso. apply Hmin. apply Hbelow. lia.
    + intros ->. done.
Qed.

(** *** [RemoveMin] *)

Lemma RemoveMin_empty_bucket rh :
  minHeight rh < length (heights rh) →
  bucket rh (minHeight rh) = [] → RemoveMin rh = Some (None, rh).
Proof.
  intros Hlt Hnil. unfold RemoveMin.
  destruct (heights rh !! minHeight rh) as [b|] eqn:Hb.
  2: { apply lookup_ge_None in Hb. lia. }
  simpl. unfold bucket, bucket_of in Hnil. rewrite Hb in Hnil.
  destruct b as [l|]; [|done]. by subst l.
Qed.

Lemma RemoveMin_cons rh it tl :
  wf rh → bucket rh (minHeight rh) = it :: tl →
  RemoveMin rh = rh' ← removeItemUnsafe it rh; Some (Some (node (value it)), rh').
Proof.
  intros Hwf Hb.
  assert (it ∈ bucket rh (minHeight rh)) as Hin by (rewrite Hb; left).
  destruct (wf_bucket _ Hwf _ _ Hin) as [Hit Hh].
  assert (bucket rh (minHeight rh) ≠ []) as Hne by (by rewrite Hb).
  pose proof (bucket_of_nonempty_lookup _ _ Hne) as Hl.
  assert (removeUnsafe (key it) (bucket rh (item_height (value it))) = tl) as Hrm.
  { rewrite Hh, Hb. unfold removeUnsafe.
    rewrite filter_cons_False by (intros Hc; by apply Hc).
    apply filter_keys_id. intros x Hx Hk.
    pose proof (wf_nodup _ Hwf (minHeight rh)) as Hnd.
    rewrite Hb, fmap_cons in Hnd. apply NoDup_cons in Hnd as [Hnd _].
    apply Hnd. rewrite <- Hk. by apply list_elem_of_fmap_2. }
  assert (without it rh =
          mkHeap (minHeight rh) (maxHeight rh)
            (<[minHeight rh := Some tl]> (heights rh))
            (delete (key it) (lookup rh))) as Hw.
  { unfold without. by rewrite Hrm, Hh. }
  assert (bucket (without it rh) (minHeight rh) = tl) as Hbw.
  { rewrite Hw. unfold bucket. simpl.
    rewrite bucket_of_insert by (by eapply bucket_of_nonempty_lt).
    by rewrite decide_True. }
  rewrite (removeItemUnsafe_eq rh (key it) it) by done. cbv zeta.
  rewrite Hh, Hbw, bool_decide_eq_true_2 by done. rewrite Hw.
  unfold RemoveMin. rewrite Hl. fold (bucket rh (minHeight rh)). rewrite Hb.
  simpl. unfold lenUnsafe. destruct (decide (length tl = 0)) as [Hz|Hz].
  - rewrite bool_decide_eq_true_2 by done. simpl.
    by destruct (nextMinHeightUnsafe _).
  - by rewrite bool_decide_eq_false_2 by done.
Qed.

(** On a heap with nodes [RemoveMin] takes the head of the list at
    [minHeight]; no node left in the heap is lower. *)
Lemma RemoveMin_spec rh :
  wf rh → min_ok rh → size (lookup rh) ≠ 0 →
  ∃ it rh', RemoveMin rh = Some (Some (node (value it)), rh') ∧
    lookup rh !! key it = Some it ∧
    id (node (value it)) = key it ∧
    item_height (value it) = minHeight rh ∧
    wf rh' ∧ min_ok rh' ∧
    lookup rh' = delete (key it) (lookup rh) ∧
    (∀ k x, lookup rh !! k = Some x → minHeight rh ≤ item_height (value x)).
Proof.
  intros Hwf Hok Hsz. unfold min_ok in Hok. rewrite decide_False in Hok by done.
  destruct (bucket rh (minHeight rh)) as [|it tl] eqn:Hb; [done|].
  assert (it ∈ bucket rh (minHeight rh)) as Hin by (rewrite Hb; left).
  destruct (wf_bucket _ Hwf _ _ Hin) as [Hit Hh].
  destruct (wf_lookup _ Hwf _ _ Hit) as (_ & Hid & _).
  destruct (removeItemUnsafe_wf rh (key it) it Hwf Hit)
    as (rh' & Hrm & Hwf' & Hlk & _ & _ & _ & _ & _ & Hok').
  exists it, rh'. rewrite (RemoveMin_cons rh it tl) by done. rewrite Hrm. simpl.
  split_and!; try done.
  - apply Hok'. unfold min_ok. rewrite decide_False by done. by rewrite Hb.
  - intros k x Hx. destruct (wf_lookup _ Hwf _ _ Hx) as (_ & _ & Hxin).
    apply (wf_range _ Hwf). intros E. rewrite E in Hxin.
    by apply not_elem_of_nil in Hxin.
Qed.

(** *** [Add], [Remove] and [RemoveMin] keep the invariant *)

Lemma addUnsafe_spec ns rh :
  wf rh →
  ∃ rh', addUnsafe ns rh = Some rh' ∧ wf rh' ∧ (min_ok rh → min_ok rh').
Proof.
  revert rh. induction ns as [|n ns IH]; intros rh Hwf; simpl.
  { by exists rh. }
  destruct (addUnsafe1_spec n rh Hwf) as (rh1 & -> & Hwf1 & _ & _ & _ & Hok1).
  simpl. destruct (IH rh1 Hwf1) as (rh' & Heq & Hwf' & Hok').
  exists rh'. split_and!; [done|done|]. intros ?. by apply Hok', Hok1.
Qed.

Lemma addUnsafe_app ns ms rh :
  addUnsafe (ns ++ ms) rh = rh' ← addUnsafe ns rh; addUnsafe ms rh'.
Proof.
  revert rh. induction ns as [|n ns IH]; intros rh; simpl; [done|].
  destruct (addUnsafe1 n rh) as [rh1|]; simpl; [apply IH|done].
Qed.

Lemma Remove_spec s rh :
  wf rh →
  ∃ ok rh', Remove s rh = Some (ok, rh') ∧ wf rh' ∧ (min_ok rh → min_ok rh') ∧
    ok = Has s rh ∧ lookup rh' = delete (id s) (lookup rh).
Proof.
  intros Hwf. unfold Remove, Has.
  destruct (lookup rh !! id s) as [it|] eqn:Hit.
  - destruct (removeItemUnsafe_wf rh (id s) it Hwf Hit)
      as (rh' & -> & Hwf' & Hlk & _ & _ & _ & _ & _ & Hok).
    exists true, rh'. simpl. split_and!; done.
  - exists false, rh. split_and!; try done. by rewrite delete_id.
Qed.

(** After [Add], [Remove] and [RemoveMin], [minHeight] is the smallest
    index whose list has nodes, or 0 on the empty heap. *)
Lemma Add_minHeight_exact ns rh rh' :
  wf rh → minHeight_exact rh → Add ns rh = Some rh' → minHeight_exact rh'.
Proof.
  intros Hwf Hex Heq. destruct (addUnsafe_spec ns rh Hwf) as (rh'' & Heq' & Hwf' & Hok).
  unfold Add in Heq. rewrite Heq in Heq'. injection Heq' as <-.
  apply min_ok_exact; [done|]. apply Hok. by apply min_ok_exact.
Qed.

Lemma Remove_minHeight_exact s rh ok rh' :
  wf rh → minHeight_exact rh → Remove s rh = Some (ok, rh') → minHeight_exact rh'.
Proof.
  intros Hwf Hex Heq.
  destruct (Remove_spec s rh Hwf) as (ok' & rh'' & Heq' & Hwf' & Hok & _).
  rewrite Heq in Heq'. injection Heq' as <- <-.
  apply min_ok_exact; [done|]. apply Hok. by apply min_ok_exact.
Qed.

Lemma RemoveMin_wf rh r rh' :
  wf rh → RemoveMin rh = Some (r, rh') → wf rh' ∧ (min_ok rh → min_ok rh').
Proof.
  intros Hwf Heq.
  destruct (bucket rh (minHeight rh)) as [|it tl] eqn:Hb.
  - rewrite RemoveMin_empty_bucket in Heq by (done || apply (wf_min_index _ Hwf)).
    by injection Heq as <- <-.
  - rewrite (RemoveMin_cons rh it tl) in Heq by done.
    assert (it ∈ bucket rh (minHeight rh)) as Hin by (rewrite Hb; left).
    destruct (wf_bucket _ Hwf _ _ Hin) as [Hit Hh].
    destruct (removeItemUnsafe_wf rh (key it) it Hwf Hit)
      as (rh'' & Hrm & Hwf' & _ & _ & _ & _ & _ & _ & Hok').
    rewrite Hrm in Heq. simpl in Heq. by injection Heq as <- <-.
Qed.

Lemma RemoveMin_minHeight_exact rh r rh' :
  wf rh → minHeight_exact rh → RemoveMin rh = Some (r, rh') → minHeight_exact rh'.
Proof.
  intros Hwf Hex Heq. destruct (RemoveMin_wf rh r rh' Hwf Heq) as [Hwf' Hok].
  apply min_ok_exact; [done|]. apply Hok. by apply min_ok_exact.
Qed.

(** *** [Fix] keeps the representation invariant *)

Lemma wf_widen rh mn mx :
  wf rh → mn ≤ minHeight rh → maxHeight rh ≤ mx → mx < length (heights rh) →
  wf (mkHeap mn mx (heights rh) (lookup rh)).
Proof.
  intros Hwf Hmn Hmx Hlen. split; simpl.
  - apply (wf_lookup _ Hwf).
  - apply (wf_bucket _ Hwf).
  - apply (wf_nodup _ Hwf).
  - intros h Hne. apply (wf_range _ Hwf) in Hne. lia.
  - pose proof (wf_min_index _ Hwf). lia.
  - done.
Qed.

Lemma without_wf rh k it :
  wf rh → lookup rh !! k = Some it → wf (without it rh).
Proof.
  intros Hwf Hit. destruct (without_facts rh k it Hwf Hit) as (HL & HB & HN & HR).
  split; try done.
  - simpl. rewrite length_insert. apply (wf_min_index _ Hwf).
  - simpl. rewrite length_insert. apply (wf_max_index _ Hwf).
Qed.

Lemma fixUnsafe1_wf cur i rh :
  wf rh → ∃ rh', fixUnsafe1 cur i rh = Some rh' ∧ wf rh' ∧
    ∀ k, is_Some (lookup rh' !! k) ↔ is_Some (lookup rh !! k).
Proof.
  intros Hwf. unfold fixUnsafe1.
  destruct (lookup rh !! i) as [it|] eqn:Hit; [|by exists rh].
  destruct (wf_lookup _ Hwf _ _ Hit) as (Hk & Hid & Hin).
  assert (bucket rh (item_height (value it)) ≠ []) as Hne.
  { intros E. rewrite E in Hin. by apply not_elem_of_nil in Hin. }
  rewrite (bucket_of_nonempty_lookup _ _ Hne). simpl.
  fold (bucket rh (item_height (value it))).
  set (n := mkINode (id (node (value it))) (cur (id (node (value it))))).
  set (mid := mkHeap _ _ _ _).
  pose proof (without_wf rh i it Hwf Hit) as Hwf0.
  assert (lookup (without it rh) !! id n = None) as Hfresh.
  { simpl. rewrite Hid, Hk. apply lookup_delete_eq. }
  destruct (addNodeUnsafe_wf n (without it rh) Hwf0 Hfresh)
    as (rh1 & Hadd1 & Hwf1 & _).
  destruct (addNodeUnsafe_shape n (without it rh))
    as (rh1' & Hadd1' & Hlk1 & _ & Hmin1 & Hmax1 & Hlen1 & Hhs1).
  rewrite Hadd1 in Hadd1'. injection Hadd1' as <-.
  destruct (addNodeUnsafe_shape n mid)
    as (rh' & Hadd & Hlk & _ & Hmin & Hmax & Hlen & Hhs).
  exists rh'. split; [done|].
  assert (size (lookup mid) ≠ 0) as Hsz.
  { apply map_size_ne_0_lookup_2 with i. by eexists. }
  rewrite decide_False in Hmin, Hmax by done.
  assert (heights rh' = heights rh1) as Hhs_eq by (by rewrite Hhs, Hhs1).
  assert (lookup rh' = lookup rh1) as Hlk_eq.
  { rewrite Hlk, Hlk1. simpl. rewrite Hid, Hk. by rewrite insert_delete_eq. }
  split.
  - destruct rh' as [mn mx hs lk].
    cbn [heights lookup minHeight maxHeight] in Hhs_eq, Hlk_eq, Hmin, Hmax.
    rewrite Hhs_eq, Hlk_eq.
    assert (minHeight mid = minHeight (without it rh)) as Hm1 by done.
    assert (maxHeight mid = maxHeight (without it rh)) as Hm2 by done.
    assert (maxHeight mid < length (heights (without it rh))) as Hm3.
    { simpl. rewrite length_insert. apply (wf_max_index _ Hwf). }
    rewrite Hm1 in Hmin. rewrite Hm2 in Hmax, Hm3.
    destruct (decide (size (lookup (without it rh)) = 0));
      apply wf_widen; try done; lia.
  - intros k. rewrite Hlk. simpl. rewrite Hid.
    destruct (decide (k = i)) as [->|Hne'].
    + rewrite lookup_insert_eq, Hit. split; by eexists.
    + by rewrite lookup_insert_ne.
Qed.

Lemma fixUnsafe_wf cur ids rh :
  wf rh → ∃ rh', fixUnsafe cur ids rh = Some rh' ∧ wf rh'.
Proof.
  revert rh. induction ids as [|i ids IH]; intros rh Hwf; simpl; [by exists rh|].
  destruct (fixUnsafe1_wf cur i rh Hwf) as (rh1 & -> & Hwf1 & _). simpl.
  by apply IH.
Qed.

(** *** [RemoveMinHeight] *)

Lemma lookup_foldr_delete (nodes : list recomputeHeapItem) (m : gmap Identifier listItem) k :
  foldr (λ n lk, delete (id (node n)) lk) m nodes !! k =
    if decide (k ∈ (λ n, id (node n)) <$> nodes) then None else m !! k.
Proof.
  induction nodes as [|n nodes IH].
  { rewrite decide_False; [done|]. apply not_elem_of_nil. }
  cbn [foldr]. rewrite fmap_cons.
  destruct (decide (k = id (node n))) as [->|Hne].
  - rewrite lookup_delete_eq. rewrite decide_True; [done|]. left.
  - rewrite lookup_delete_ne by done. rewrite IH.
    destruct (decide (k ∈ (λ n, id (node n)) <$> nodes)) as [Hin|Hin].
    + rewrite decide_True; [done|]. by right.
    + rewrite decide_False; [done|]. intros [?|?]%elem_of_cons; done.
Qed.

Lemma RemoveMinHeight_spec rh :
  wf rh →
  ∃ nodes rh', RemoveMinHeight rh = Some (nodes, rh') ∧ wf rh' ∧
    (min_ok rh → min_ok rh') ∧
    nodes = value <$> bucket rh (minHeight rh) ∧
    ∀ k, lookup rh' !! k =
         if decide (k ∈ key <$> bucket rh (minHeight rh)) then None
         else lookup rh !! k.
Proof.
  intros Hwf. unfold RemoveMinHeight.
  pose proof (wf_min_index _ Hwf) as Hidx.
  destruct (heights rh !! minHeight rh) as [b|] eqn:Hb.
  2: { apply lookup_ge_None in Hb. lia. }
  assert (bucket rh (minHeight rh) = default [] b) as Hbk.
  { unfold bucket, bucket_of. rewrite Hb. by destruct b. }
  assert (∀ k, lookup rh !! k =
            if decide (k ∈ key <$> @nil listItem) then None else lookup rh !! k) as Hnil.
  { intros k. rewrite decide_False; [done|]. apply not_elem_of_nil. }
  destruct b as [[|it l0]|]; cbn [mbind option_bind]; simpl in Hbk.
  1,3: exists [], rh; rewrite Hbk; split_and!; done.
  set (l := it :: l0) in *.
  set (rh0 := mkHeap (minHeight rh) (maxHeight rh)
                (<[minHeight rh := Some []]> (heights rh))
                (foldr (λ n lk, delete (id (node n)) lk) (lookup rh) (value <$> l))).
  assert (∀ k, lookup rh0 !! k =
            if decide (k ∈ key <$> l) then None else lookup rh !! k) as Hlk.
  { intros k. unfold rh0. cbn [lookup]. rewrite lookup_foldr_delete.
    assert ((λ n, id (node n)) <$> (value <$> l) = key <$> l) as ->; [|done].
    rewrite <- list_fmap_compose. apply list_fmap_ext. intros j x Hx. simpl.
    apply list_elem_of_lookup_2 in Hx. rewrite <- Hbk in Hx.
    apply (wf_bucket _ Hwf) in Hx as [Hx _].
    by apply (wf_lookup _ Hwf) in Hx as (_ & ? & _). }
  assert (∀ h, bucket rh0 h = if decide (h = minHeight rh) then [] else bucket rh h)
    as Hbk0.
  { intros h. unfold bucket at 1, rh0. cbn [heights]. by rewrite bucket_of_insert. }
  assert (∀ x h, x ∈ bucket rh h → key x ∈ key <$> l → h = minHeight rh) as Hsame.
  { intros x h Hx (y & Hxy & Hy)%list_elem_of_fmap. rewrite <- Hbk in Hy.
    apply (wf_bucket _ Hwf) in Hx as [Hx Hh]. apply (wf_bucket _ Hwf) in Hy as [Hy Hh'].
    rewrite Hxy in Hx. congruence. }
  assert (∀ k x, lookup rh0 !! k = Some x →
            key x = k ∧ id (node (value x)) = k ∧
            x ∈ bucket rh0 (item_height (value x))) as HL.
  { intros k x. rewrite Hlk. destruct (decide (k ∈ key <$> l)) as [|Hnin]; [done|].
    intros Hx. destruct (wf_lookup _ Hwf _ _ Hx) as (Hk & Hid & Hin).
    split_and!; try done. rewrite Hbk0. goal_decide Hd; [|done].
    exfalso. apply Hnin. rewrite Hd, Hbk in Hin. rewrite <- Hk.
    by apply list_elem_of_fmap_2. }
  assert (∀ h x, x ∈ bucket rh0 h →
            lookup rh0 !! key x = Some x ∧ item_height (value x) = h) as HB.
  { intros h x. rewrite Hbk0. goal_decide Hd; [by intros ?%not_elem_of_nil|].
    intros Hx. destruct (wf_bucket _ Hwf _ _ Hx) as [Hx' Hh]. split; [|done].
    rewrite Hlk. rewrite decide_False; [done|].
    intros Hc. by apply Hd, (Hsame x). }
  assert (∀ h, bucket rh0 h ≠ [] → minHeight rh0 ≤ h ≤ maxHeight rh0) as HR.
  { intros h. rewrite Hbk0. goal_decide Hd; [done|]. apply (wf_range _ Hwf). }
  destruct (nextMinHeightUnsafe_spec rh0) as (m & Hm & Hspec).
  { intros ???. by eapply HL. }
  { done. }
  unfold popAllUnsafe. fold rh0. rewrite Hm. cbn [mbind option_bind].
  exists (value <$> l), (set_minHeight m rh0).
  assert (length (heights rh0) = length (heights rh)) as Hlen
    by (unfold rh0; cbn [heights]; by rewrite length_insert).
  split_and!; try done.
  - split; try done.
    + intros h. change (bucket (set_minHeight m rh0) h) with (bucket rh0 h).
      rewrite Hbk0. goal_decide Hd; [constructor|apply (wf_nodup _ Hwf)].
    + intros h Hne. change (bucket (set_minHeight m rh0) h) with (bucket rh0 h) in Hne.
      cbn [set_minHeight minHeight maxHeight].
      destruct (decide (size (lookup rh0) = 0)) as [Hsz|Hsz].
      * exfalso. apply Hne. destruct (bucket rh0 h) as [|x l1] eqn:E; [done|].
        destruct (HB h x) as [Hx _]; [rewrite E; left|].
        apply map_size_empty_inv in Hsz. rewrite Hsz in Hx.
        by rewrite lookup_empty in Hx.
      * destruct Hspec as (? & ? & Hbelow). split; [|apply HR in Hne; lia].
        destruct (decide (m ≤ h)) as [|Hlt]; [done|].
        exfalso. apply Hne, Hbelow. lia.
    + cbn [set_minHeight minHeight heights]. rewrite Hlen.
      destruct (decide (size (lookup rh0) = 0)).
      * subst m. lia.
      * destruct Hspec as (? & ? & ?). pose proof (wf_max_index _ Hwf).
        change (maxHeight rh0) with (maxHeight rh) in *. lia.
    + cbn [set_minHeight maxHeight heights]. rewrite Hlen. apply (wf_max_index _ Hwf).
  - intros _. unfold min_ok. cbn [set_minHeight lookup minHeight].
    destruct (decide (size (lookup rh0) = 0)); [done|].
    change (bucket (set_minHeight m rh0) m) with (bucket rh0 m).
    by destruct Hspec as (? & ? & ?).
  - by rewrite Hbk.
  - intros k. rewrite Hbk. apply Hlk.
Qed.

(** *** Every heap the code can build is well formed *)

Lemma reachable_wf rh : reachable rh → wf rh.
Proof.
  induction 1 as [n Hn|ns rh rh' _ IH Heq|cur ids rh rh' _ IH Heq
                  |s rh ok rh' _ IH Heq|rh r rh' _ IH Heq|rh ns rh' _ IH Heq].
  - by apply newRecomputeHeap_wf.
  - destruct (addUnsafe_spec ns rh IH) as (rh'' & Heq' & Hwf & _).
    unfold Add in Heq. congruence.
  - destruct (fixUnsafe_wf cur ids rh IH) as (rh'' & Heq' & Hwf).
    unfold Fix in Heq. congruence.
  - destruct (Remove_spec s rh IH) as (ok' & rh'' & Heq' & Hwf & _). congruence.
  - by destruct (RemoveMin_wf rh r rh' IH Heq).
  - destruct (RemoveMinHeight_spec rh IH) as (ns' & rh'' & Heq' & Hwf & _). congruence.
Qed.

(** No operation panics on a heap the code can build. *)
Lemma reachable_no_panic rh :
  reachable rh →
  (∀ ns, is_Some (Add ns rh)) ∧ (∀ cur ids, is_Some (Fix cur ids rh)) ∧
  (∀ s, is_Some (Remove s rh)) ∧ is_Some (RemoveMin rh) ∧
  is_Some (RemoveMinHeight rh).
Proof.
  intros Hwf%reachable_wf. split_and!.
  - intros ns. destruct (addUnsafe_spec ns rh Hwf) as (? & ? & _). by eexists.
  - intros cur ids. destruct (fixUnsafe_wf cur ids rh Hwf) as (? & ? & _). by eexists.
  - intros s. destruct (Remove_spec s rh Hwf) as (? & ? & ? & _). by eexists.
  - destruct (bucket rh (minHeight rh)) as [|it tl] eqn:Hb.
    + rewrite RemoveMin_empty_bucket by (done || apply (wf_min_index _ Hwf)). by eexists.
    + rewrite (RemoveMin_cons rh it tl) by done.
      assert (it ∈ bucket rh (minHeight rh)) as Hin by (rewrite Hb; left).
      destruct (wf_bucket _ Hwf _ _ Hin) as [Hit _].
      destruct (removeItemUnsafe_wf rh (key it) it Hwf Hit) as (? & -> & _).
      by eexists.
  - destruct (RemoveMinHeight_spec rh Hwf) as (? & ? & ? & _). by eexists.
Qed.

(** ** The claims about the recompute heap *)

(** C3 (as stated, for [Add], [Remove], [RemoveMin] and [RemoveMinHeight]):
    on a well-formed heap whose [minHeight] is the smallest index with
    nodes (0 when empty), it still is after the operation. *)
Lemma minHeight_exact_kept rh :
  wf rh → minHeight_exact rh →
  (∀ ns rh', Add ns rh = Some rh' → minHeight_exact rh') ∧
  (∀ s ok rh', Remove s rh = Some (ok, rh') → minHeight_exact rh') ∧
  (∀ r rh', RemoveMin rh = Some (r, rh') → minHeight_exact rh') ∧
  (∀ ns rh', RemoveMinHeight rh = Some (ns, rh') → minHeight_exact rh').
Proof.
  intros Hwf Hex. split_and!.
  - intros ns rh'. by apply Add_minHeight_exact.
  - intros s ok rh'. by apply Remove_minHeight_exact.
  - intros r rh'. by apply RemoveMin_minHeight_exact.
  - intros ns rh' Heq.
    destruct (RemoveMinHeight_spec rh Hwf) as (ns' & rh'' & Heq' & Hwf' & Hok & _).
    rewrite Heq in Heq'. injection Heq' as <- <-.
    apply min_ok_exact; [done|]. apply Hok. by apply min_ok_exact.
Qed.

(** C3, [Fix]: a heap holding one node at height 2; the node's height is
    raised to 5 (as adjusting heights does) and [Fix] is called on it.
    The node moves to the list of height 5, but [minHeight] stays 2, whose
    list is now empty: [minHeight] is not the smallest index with nodes,
    and [RemoveMin] returns nil although the heap holds a node. *)
Theorem Fix_leaves_minHeight_stale :
  ∃ rh rh',
    Add [mkINode 0 2] (newRecomputeHeap 8) = Some rh ∧ minHeight_exact rh ∧
    Fix (λ _, 5) [0] rh = Some rh' ∧
    minHeight rh' = 2 ∧ smallest_nonempty rh' = 5 ∧ ¬ minHeight_exact rh' ∧
    bucket rh' 2 = [] ∧ key <$> bucket rh' 5 = [0] ∧
    Len rh' = 1 ∧ RemoveMin rh' = Some (None, rh').
Proof.
  eexists _, _. split; [vm_compute; reflexivity|].
  split; [vm_compute; reflexivity|].
  split; [vm_compute; reflexivity|].
  split_and!; try (vm_compute; reflexivity).
  unfold minHeight_exact. vm_compute. discriminate.
Qed.

(** C4: [Add] removes the entry a node already has before it files the
    node again.  After any sequence of [Add] calls no identifier occurs
    twice in the height lists and [Len] is the number of their entries;
    adding [n] then leaves exactly one entry for [n], filed under the
    height [n] has now, [Len] grows by one only when [n] was absent; and
    adding [n] once more changes nothing. *)
Theorem Add_dedup_idempotent (rh : recomputeHeap) (ns : list INode) (n : INode) :
  wf rh →
  ∃ rh1 rh2,
    Add ns rh = Some rh1 ∧
    (∀ k, count k rh1 ≤ 1) ∧ Len rh1 = length (entries rh1) ∧
    Add [n] rh1 = Some rh2 ∧
    count (id n) rh2 = 1 ∧ (∀ k, count k rh2 ≤ 1) ∧
    lookup rh2 !! id n = Some (item_of n) ∧
    Len rh2 = (if Has n rh1 then Len rh1 else S (Len rh1)) ∧
    Len rh2 = length (entries rh2) ∧
    Add [n] rh2 = Some rh2 ∧ Add [n; n] rh1 = Some rh2.
Proof.
  intros Hwf.
  destruct (addUnsafe_spec ns rh Hwf) as (rh1 & Hadd1 & Hwf1 & _).
  destruct (addUnsafe1_spec n rh1 Hwf1) as (rh2 & Hadd2 & Hwf2 & Hlk2 & _).
  pose proof (addUnsafe1_just_added n rh1 rh2 Hwf1 Hadd2) as Hja.
  pose proof (just_added_again n rh2 Hja) as Hagain.
  assert (∀ rh0, wf rh0 → ∀ k, count k rh0 ≤ 1) as Hle.
  { intros rh0 Hwf0 k. rewrite wf_count by done. case_decide; lia. }
  exists rh1, rh2. unfold Add. cbn [addUnsafe]. rewrite Hadd2. cbn [mbind option_bind].
  rewrite Hagain. cbn [mbind option_bind].
  split_and!; try done; try (by apply Hle); try (by apply wf_Len_entries).
  - rewrite wf_count by done. rewrite decide_True; [done|].
    rewrite Hlk2, lookup_insert_eq. by eexists.
  - rewrite Hlk2. apply lookup_insert_eq.
  - unfold Len, Has. rewrite Hlk2.
    destruct (lookup rh1 !! id n) as [it|] eqn:Hit.
    + rewrite bool_decide_eq_true_2 by (by eexists).
      rewrite map_size_insert_Some; [done|by eexists].
    + rewrite bool_decide_eq_false_2 by (by intros [? ?]).
      by rewrite map_size_insert_None.
Qed.

(** C10: [RemoveMin] on an empty heap returns nil and leaves the heap as it
    is; [Len] stays 0, [minHeight] and [maxHeight] keep their values. *)
Theorem RemoveMin_empty_heap (rh : recomputeHeap) :
  wf rh → Len rh = 0 →
  ∃ rh', RemoveMin rh = Some (None, rh') ∧ rh' = rh ∧ Len rh' = 0 ∧
    minHeight rh' = minHeight rh ∧ maxHeight rh' = maxHeight rh.
Proof.
  intros Hwf Hlen. exists rh. split_and!; try done.
  apply RemoveMin_empty_bucket; [apply (wf_min_index _ Hwf)|].
  by apply wf_lookup_empty_buckets.
Qed.

Lemma drained_heap_reachable : reachable drained_heap.
Proof.
  eapply reach_RemoveMin with (r := Some (mkINode 7 3)).
  - eapply reach_Add with (ns := [mkINode 7 3]).
    + apply (reach_new 8). lia.
    + vm_compute. reflexivity.
  - vm_compute. reflexivity.
Qed.

Lemma Add_dedup_idempotent_witness :
  wf (newRecomputeHeap 8) ∧
  ∃ rh1 rh2,
    Add [mkINode 3 0; mkINode 4 3; mkINode 1 1] (newRecomputeHeap 8) = Some rh1 ∧
    (∀ k, count k rh1 ≤ 1) ∧ Len rh1 = length (entries rh1) ∧
    Add [mkINode 3 2] rh1 = Some rh2 ∧
    count 3 rh2 = 1 ∧ (∀ k, count k rh2 ≤ 1) ∧
    lookup rh2 !! 3 = Some (item_of (mkINode 3 2)) ∧
    Len rh2 = (if Has (mkINode 3 2) rh1 then Len rh1 else S (Len rh1)) ∧
    Len rh2 = length (entries rh2) ∧
    Add [mkINode 3 2] rh2 = Some rh2 ∧
    Add [mkINode 3 2; mkINode 3 2] rh1 = Some rh2.
Proof.
  assert (wf (newRecomputeHeap 8)) as Hwf by (apply newRecomputeHeap_wf; lia).
  split; [exact Hwf|].
  exact (Add_dedup_idempotent (newRecomputeHeap 8)
           [mkINode 3 0; mkINode 4 3; mkINode 1 1] (mkINode 3 2) Hwf).
Defined.

Lemma RemoveMin_empty_heap_witness :
  wf drained_heap ∧ Len drained_heap = 0 ∧
  ∃ rh', RemoveMin drained_heap = Some (None, rh') ∧ rh' = drained_heap ∧
    Len rh' = 0 ∧
    minHeight rh' = minHeight drained_heap ∧ maxHeight rh' = maxHeight drained_heap.
Proof.
  assert (wf drained_heap) as Hwf by (apply reachable_wf, drained_heap_reachable).
  assert (Len drained_heap = 0) as Hlen by (vm_compute; reflexivity).
  split; [exact Hwf|]. split; [exact Hlen|].
  exact (RemoveMin_empty_heap drained_heap Hwf Hlen).
Defined.


(** * Properties of the bind node *)

Section bind_facts.
Import Bind.

Context {G : Type}.
Variable changedAt_of : G → Identifier → nat.
Variable rhsNodes : G → list Identifier.
Variable is_IBind : G → Identifier → bool.
Variable isNecessary : G → Identifier → bool.
Variable fn : G → G * option Identifier * option error.
Variable Link : option Identifier → option Identifier → G → G.
Variable Unlink : option Identifier → option Identifier → G → G.
Variable newBindChange : bindIncr → G → Identifier * G.
Variable IBind_Link : Identifier → G → G * option error.

Local Abbreviation Stabilize :=
  (Stabilize changedAt_of rhsNodes is_IBind isNecessary fn Link Unlink
     newBindChange IBind_Link).
Local Abbreviation run :=
  (run changedAt_of rhsNodes is_IBind isNecessary fn Link Unlink
     newBindChange IBind_Link).
Local Abbreviation link_rhsNodes := (link_rhsNodes is_IBind isNecessary IBind_Link).
Local Abbreviation relinked := (relinked is_IBind isNecessary IBind_Link).
Local Abbreviation link_walk := (link_walk is_IBind isNecessary IBind_Link).
Local Abbreviation Link_method :=
  (Link_method rhsNodes is_IBind isNecessary Link IBind_Link).
Local Abbreviation linkNewBound :=
  (linkNewBound rhsNodes is_IBind isNecessary Link IBind_Link).

Lemma extends_ret {X} (x : X) : extends (G:=G) (ret x).
Proof. intros s. done. Qed.

Lemma extends_fail {X} e : extends (G:=G) (fail (X := X) e).
Proof. intros s. done. Qed.

Lemma extends_bind {X Y} (m : M X) (k : X → M Y) :
  extends m → (∀ x, extends (k x)) → extends (G:=G) (bind m k).
Proof.
  intros Hm Hk s. unfold bind. specialize (Hm s).
  destruct (m s) as [s' [e|x]]; simpl in *; [done|].
  etrans; [exact Hm|]. apply Hk.
Qed.

Lemma extends_get_b : extends (G:=G) get_b.
Proof. intros s. done. Qed.

Lemma extends_get_g : extends (G:=G) get_g.
Proof. intros s. done. Qed.

Lemma extends_modify_b f : extends (G:=G) (modify_b f).
Proof. intros s. done. Qed.

Lemma extends_log c : extends (G:=G) (log c).
Proof. intros s. simpl. by apply prefix_app_r. Qed.

Lemma extends_on_graph f : extends (G:=G) (on_graph f).
Proof. intros s. done. Qed.

Lemma extends_do_Link c i : extends (G:=G) (do_Link Link c i).
Proof.
  apply extends_bind; [apply extends_log|]. intros _. apply extends_on_graph.
Qed.

Lemma extends_do_Unlink c i : extends (G:=G) (do_Unlink Unlink c i).
Proof.
  apply extends_bind; [apply extends_log|]. intros _. apply extends_on_graph.
Qed.

Lemma extends_do_IBind_Link n : extends (G:=G) (do_IBind_Link IBind_Link n).
Proof.
  apply extends_bind; [apply extends_log|]. intros _ s.
  by destruct (IBind_Link n (st_graph s)) as [g' [e|]].
Qed.

Lemma extends_link_rhsNodes ns : extends (G:=G) (link_rhsNodes ns).
Proof.
  induction ns as [|n ns IH]; simpl; [apply extends_ret|].
  apply extends_bind; [apply extends_get_g|]. intros g0.
  apply extends_bind; [|by intros _].
  destruct (is_IBind g0 n && isNecessary g0 n);
    [apply extends_do_IBind_Link|apply extends_ret].
Qed.

Lemma extends_Link_method : extends (G:=G) Link_method.
Proof.
  apply extends_bind; [apply extends_get_b|]. intros b.
  destruct (n_graph b); [|apply extends_fail].
  apply extends_bind.
  { destruct (bindChange b); [apply extends_do_Link|apply extends_ret]. }
  intros _. destruct (bound b); [|apply extends_ret].
  apply extends_bind; [apply extends_do_Link|]. intros _.
  apply extends_bind; [apply extends_do_Link|]. intros _.
  apply extends_bind; [apply extends_get_g|]. intros g0.
  apply extends_link_rhsNodes.
Qed.

Lemma extends_linkBindChange : extends (G:=G) (linkBindChange Link newBindChange).
Proof.
  apply extends_bind; [apply extends_get_b|]. intros b.
  apply extends_bind.
  { intros s. destruct (newBindChange b (st_graph s)) as [c g'].
    simpl. by apply prefix_app_r. }
  intros _. apply extends_bind; [apply extends_get_b|]. intros b'.
  apply extends_do_Link.
Qed.

Lemma extends_linkNewBound newIncr : extends (G:=G) (linkNewBound newIncr).
Proof.
  apply extends_bind; [apply extends_modify_b|]. intros _.
  apply extends_bind; [apply extends_get_b|]. intros b.
  apply extends_bind; [apply extends_do_Link|]. intros _.
  apply extends_bind; [apply extends_do_Link|]. intros _.
  apply extends_bind; [apply extends_get_g|]. intros g0.
  apply extends_link_rhsNodes.
Qed.

Lemma extends_unlinkBindChange : extends (G:=G) (unlinkBindChange Unlink).
Proof.
  apply extends_bind; [apply extends_get_b|]. intros b.
  destruct (bindChange b); [|apply extends_ret].
  apply extends_bind.
  { destruct (bound b); [apply extends_do_Unlink|apply extends_ret]. }
  intros _. apply extends_bind; [apply extends_do_Unlink|]. intros _.
  apply extends_modify_b.
Qed.

Lemma extends_unlinkOldBound : extends (G:=G) (unlinkOldBound Unlink).
Proof.
  apply extends_bind; [apply extends_get_b|]. intros b.
  destruct (bound b); [|apply extends_ret].
  apply extends_bind; [apply extends_do_Unlink|]. intros _.
  apply extends_bind; [apply extends_do_Unlink|]. intros _.
  apply extends_modify_b.
Qed.

Create HintDb extends.
#[local] Hint Resolve extends_ret extends_fail extends_get_b extends_get_g
  extends_modify_b extends_log extends_on_graph extends_do_Link
  extends_do_Unlink extends_do_IBind_Link extends_link_rhsNodes
  extends_Link_method extends_linkBindChange extends_linkNewBound
  extends_unlinkBindChange extends_unlinkOldBound : extends.

Ltac extends_step :=
  first
    [ solve [eauto with extends]
    | match goal with
      | |- extends (match ?x with _ => _ end) => destruct x
      end
    | apply extends_bind; [|intros ?] ].

(** What follows the call of the bind function in [Stabilize]. *)
Lemma extends_after_fn (b : bindIncr) (graph : Graph)
    (r : option Identifier * option error) :
  extends (G:=G)
    (let '(newIncr, err) := r in
     match err with
     | Some e => fail e
     | None =>
         bind
           match bound b, newIncr with
           | Some old, Some new =>
               if bool_decide (old ≠ new) then
                 bind (unlinkOldBound Unlink) (λ _,
                 bind (unlinkBindChange Unlink) (λ _,
                 bind (linkBindChange Link newBindChange) (λ _,
                 bind (linkNewBound newIncr) (λ _, ret true))))
               else
                 bind get_g (λ g',
                   let bindChanged :=
                     bool_decide (n_boundAt b < changedAt_of g' old) in
                   bind Link_method (λ _, ret bindChanged))
           | None, Some new =>
               bind (linkBindChange Link newBindChange) (λ _,
               bind (linkNewBound newIncr) (λ _, ret true))
           | Some old, None =>
               bind (unlinkOldBound Unlink) (λ _,
               bind (unlinkBindChange Unlink) (λ _, ret true))
           | None, None => ret false
           end
           (λ bindChanged : bool,
              if bindChanged
              then modify_b (set_boundAt (stabilizationNum graph))
              else ret tt)
     end).
Proof.
  destruct r as [newIncr [e|]]; [apply extends_fail|].
  apply extends_bind.
  - destruct (bound b) as [old|], newIncr as [new|]; repeat extends_step.
  - intros [|]; eauto with extends.
Qed.

(** C1 (amended): for a bind attached to a graph, [Stabilize] calls the
    bind function exactly when the input's [changedAt] is at least the
    bind's.  When the input did not change it makes no call at all,
    sets [boundAt] to the graph's [stabilizationNum], leaves [bound],
    [bindChange] and the object graph alone and returns [nil]. *)
Theorem Stabilize_input_gate (b : bindIncr) (g : G) (gr : Graph) :
  n_graph b = Some gr →
  let '(b', g', calls, res) := run b g in
  (CallFn ∈ calls ↔ n_changedAt b ≤ changedAt_of g (input b)) ∧
  (changedAt_of g (input b) < n_changedAt b →
     calls = [] ∧ res = None ∧ g' = g ∧
     n_boundAt b' = stabilizationNum gr ∧
     bound b' = bound b ∧ bindChange b' = bindChange b).
Proof.
  intros Hgr. unfold Bind.run.
  destruct (Stabilize (mkSt b g [])) as [s' r] eqn:E.
  unfold Bind.Stabilize in E. unfold bind at 1 in E. cbn [get_b st_bind] in E.
  rewrite Hgr in E. unfold bind at 1 in E. cbn [get_g st_graph] in E.
  unfold didInputChange in E.
  destruct (decide (n_changedAt b ≤ changedAt_of g (input b))) as [Hle|Hlt].
  - rewrite bool_decide_eq_true_2 in E by done. cbn [negb] in E.
    split; [|intros ?; lia]. split; [done|]. intros _.
    unfold bind at 1, do_fn at 1, bind at 1, log at 1 in E. cbn in E.
    destruct (fn g) as [[g1 newIncr] err]. cbn in E.
    pose proof (extends_after_fn b gr (newIncr, err) (mkSt b g1 [CallFn])) as Hext.
    cbn in Hext. rewrite E in Hext. cbn in Hext.
    destruct Hext as [rest Hrest]. rewrite Hrest. left.
  - rewrite bool_decide_eq_false_2 in E by done. cbn in E.
    injection E as <- <-. cbn.
    split; [|done]. split; [by intros ?%not_elem_of_nil|]. intros ?. lia.
Qed.

Lemma link_rhsNodes_spec ns s s' r :
  link_rhsNodes ns s = (s', r) →
  ∃ linked,
    st_bind s' = st_bind s ∧
    st_calls s' = st_calls s ++ (CallIBindLink <$> linked) ∧
    linked `prefix_of` relinked (st_graph s) ns ∧
    (∀ u, r = inr u → linked = relinked (st_graph s) ns).
Proof.
  revert s. induction ns as [|n ns IH]; intros s E.
  { injection E as <- <-. exists []. cbn. rewrite app_nil_r. done. }
  cbn [Bind.link_rhsNodes Bind.relinked] in E |- *.
  unfold bind at 1 in E. cbn [get_g] in E.
  destruct (is_IBind (st_graph s) n && isNecessary (st_graph s) n).
  - unfold bind at 1, do_IBind_Link, bind at 1, log in E. cbn in E.
    destruct (IBind_Link n (st_graph s)) as [g' [e|]] eqn:E'; cbn in E.
    + injection E as <- <-. exists [n]. cbn. split_and!; try done.
      by apply prefix_cons, prefix_nil.
    + apply IH in E as (linked & Hb & Hc & Hp & Hok). cbn in *.
      exists (n :: linked). split_and!; try done.
      * rewrite Hc, <- app_assoc. done.
      * by apply prefix_cons.
      * intros u Hu. f_equal. by eapply Hok.
  - unfold bind at 1, ret in E. by apply IH.
Qed.

(** The loop over the scope does what [link_walk] says. *)
Lemma link_rhsNodes_walk ns : ∀ s,
  link_rhsNodes ns s =
    let '(linked, g', err) := link_walk (st_graph s) ns in
    (mkSt (st_bind s) g' (st_calls s ++ (CallIBindLink <$> linked)),
     match err with Some e => inl e | None => inr () end).
Proof.
  induction ns as [|n ns IH]; intros s.
  { cbn. rewrite app_nil_r. by destruct s. }
  cbn [Bind.link_rhsNodes Bind.link_walk].
  unfold bind at 1. cbn [get_g].
  destruct (is_IBind (st_graph s) n && isNecessary (st_graph s) n).
  - unfold bind at 1, do_IBind_Link, bind at 1, log. cbn [st_bind st_graph st_calls].
    destruct (IBind_Link n (st_graph s)) as [g' [e|]] eqn:E'.
    + done.
    + rewrite IH. cbn [st_bind st_graph st_calls].
      destruct (link_walk g' ns) as [[linked g''] err].
      cbn [fmap list_fmap]. by rewrite <- app_assoc.
  - unfold bind at 1, ret. apply IH.
Qed.

(** The nodes the walk calls [Link] on are nodes of the scope, in the
    order of the scope; they are the first of those it calls [Link] on
    when no call fails, and all of them when it meets no error. *)
Lemma link_walk_spec ns : ∀ g,
  let '(linked, g', err) := link_walk g ns in
  linked `sublist_of` ns ∧
  linked `prefix_of` relinked g ns ∧
  (err = None → linked = relinked g ns).
Proof.
  induction ns as [|n ns IH]; intros g; cbn [Bind.link_walk Bind.relinked].
  { split_and!; done. }
  destruct (is_IBind g n && isNecessary g n).
  - destruct (IBind_Link n g) as [g' [e|]] eqn:E'; cbn [fst].
    + split_and!; [|by apply prefix_cons, prefix_nil|done].
      apply sublist_skip, sublist_nil_l.
    + specialize (IH g'). destruct (link_walk g' ns) as [[linked g''] err].
      destruct IH as (Hsub & Hpre & Hall). split_and!.
      * by apply sublist_skip.
      * by apply prefix_cons.
      * intros Herr. f_equal. by apply Hall.
  - specialize (IH g). destruct (link_walk g ns) as [[linked g''] err].
    destruct IH as (Hsub & Hpre & Hall). split_and!; [|done|done].
    by apply sublist_cons.
Qed.

(** C6 (amended): a bind attached to a graph whose input changed and
    whose function returns, without error, a node with the identifier of
    the node it is bound to.  [bound] and [bindChange] stay as they are;
    the bind-change node, the bind and the right-hand side are linked
    again; then [Link] is called on the nodes of [rhsNodes] that are
    binds and necessary, in order, up to the first call that returns an
    error ([link_walk]).  When none fails [Stabilize] returns [nil] and
    [boundAt] becomes the [stabilizationNum] exactly when the bound
    node's [changedAt] is above the bind's [boundAt] (it keeps its value
    otherwise); when one fails [Stabilize] returns the error of that
    call and [boundAt] keeps its value. *)
Theorem Stabilize_same_rhs (b : bindIncr) (g g1 : G) (gr : Graph) (old : Identifier) :
  n_graph b = Some gr →
  n_changedAt b ≤ changedAt_of g (input b) →
  bound b = Some old →
  fn g = (g1, Some old, None) →
  let g2 := Link_graph Link b g1 in
  let '(linked, g3, err) := link_walk g2 (rhsNodes g2) in
  let '(b', g', calls, res) := run b g in
  bound b' = Some old ∧ bindChange b' = bindChange b ∧
  calls = [CallFn] ++ Link_calls b ++ (CallIBindLink <$> linked) ∧
  linked `sublist_of` rhsNodes g2 ∧
  linked `prefix_of` relinked g2 (rhsNodes g2) ∧
  (err = None → linked = relinked g2 (rhsNodes g2)) ∧
  g' = g3 ∧ res = err ∧
  n_boundAt b' =
    match err with
    | None => if bool_decide (n_boundAt b < changedAt_of g1 old)
              then stabilizationNum gr else n_boundAt b
    | Some _ => n_boundAt b
    end.
Proof.
  intros Hgr Hle Hbound Hfn. cbv zeta.
  pose proof (link_walk_spec (rhsNodes (Link_graph Link b g1))
                (Link_graph Link b g1)) as Hspec.
  destruct (link_walk (Link_graph Link b g1) (rhsNodes (Link_graph Link b g1)))
    as [[linked g3] err] eqn:Ewalk.
  destruct Hspec as (Hsub & Hpre & Hall).
  unfold Bind.run.
  destruct (Stabilize (mkSt b g [])) as [s' r] eqn:E.
  unfold Bind.Stabilize in E. unfold bind at 1 in E. cbn [get_b st_bind] in E.
  rewrite Hgr in E. unfold bind at 1 in E. cbn [get_g st_graph] in E.
  unfold didInputChange in E.
  rewrite bool_decide_eq_true_2 in E by done. cbn [negb] in E.
  unfold bind at 1, do_fn at 1, bind at 1, log at 1 in E. cbn in E.
  rewrite Hfn in E. cbn in E.
  rewrite Hbound in E.
  rewrite bool_decide_eq_false_2 in E by (intros Hc; by apply Hc).
  unfold bind at 1 in E. unfold bind at 1 in E. cbn [get_g st_graph] in E.
  unfold bind at 1 in E. unfold Bind.Link_method at 1 in E.
  unfold bind at 1 in E. cbn [get_b st_bind] in E. rewrite Hgr, Hbound in E.
  set (s1 := mkSt b g1 [CallFn]) in E.
  assert (∃ s2, (bind
            (if bindChange b is Some _
             then do_Link Link (bindChange b) (Some (input b)) else ret tt)
            (λ _, bind (do_Link Link (Some (n_id b)) (Some old))
               (λ _, bind (do_Link Link (Some old) (bindChange b))
                  (λ _, bind get_g (λ g0, link_rhsNodes (rhsNodes g0))))) s1)
          = link_rhsNodes (rhsNodes (Link_graph Link b g1)) s2 ∧
          s2 = mkSt b (Link_graph Link b g1) ([CallFn] ++ Link_calls b))
    as (s2 & Heq & Hs2).
  { eexists. split; [|reflexivity].
    unfold Link_graph, Link_calls. rewrite Hbound.
    destruct (bindChange b); reflexivity. }
  rewrite Heq, link_rhsNodes_walk, Hs2 in E.
  cbn [st_bind st_graph st_calls] in E. rewrite Ewalk in E.
  destruct err as [e|].
  - injection E as <- <-. cbn. done.
  - cbn in E. unfold ret in E.
    destruct (bool_decide (n_boundAt b < changedAt_of g1 old)); cbn in E;
      injection E as <- <-; cbn; done.
Qed.

End bind_facts.

(** ** The bind in a small world *)

Section bind_examples.
Import Bind BindEx.

Lemma Stabilize_input_gate_witness :
  n_graph bind_quiet = Some (mkGraph 4) ∧
  let '(b', g', calls, res) := run0 bind_quiet [] in
  (CallFn ∈ calls ↔ n_changedAt bind_quiet ≤ changedAt0 [] (input bind_quiet)) ∧
  (changedAt0 [] (input bind_quiet) < n_changedAt bind_quiet →
     calls = [] ∧ res = None ∧ g' = [] ∧
     n_boundAt b' = 4 ∧
     bound b' = bound bind_quiet ∧ bindChange b' = bindChange bind_quiet).
Proof.
  split; [reflexivity|].
  exact (Stabilize_input_gate changedAt0 rhsNodes0 is_IBind0 isNecessary0 fn0
           Link0 Unlink0 newBindChange0 IBind_Link0 bind_quiet [] (mkGraph 4)
           eq_refl).
Defined.

(** C1 as stated fails on a bind that is not attached to a graph:
    [Stabilize] returns the graph-unset error before it looks at the
    input.  With an input that changed the bind function is not called;
    with an input that did not change [Stabilize] does not return
    [nil]. *)
Lemma Stabilize_input_gate_graph_unset :
  ¬ (let '(b', g', calls, res) := run0 bind_unset [] in
     (CallFn ∈ calls ↔
        n_changedAt bind_unset ≤ changedAt0 [] (input bind_unset))) ∧
  ¬ (let '(b', g', calls, res) := run0 bind_unset_quiet [] in
     (changedAt0 [] (input bind_unset_quiet) < n_changedAt bind_unset_quiet →
        res = None)) ∧
  run0 bind_unset [] = (bind_unset, [], [], Some ErrGraphUnset) ∧
  run0 bind_unset_quiet [] = (bind_unset_quiet, [], [], Some ErrGraphUnset).
Proof.
  split_and!; try reflexivity.
  - cbn. intros [_ H]. specialize (H ltac:(lia)).
    by apply not_elem_of_nil in H.
  - cbn. intros H. specialize (H ltac:(lia)). discriminate.
Qed.

(** The bind of the small world, its scope relinked without error, and
    the same bind in the world where [Link] fails on the first bind of
    the scope: the walk stops there, [Stabilize] returns that error and
    [boundAt] stays at 2. *)
Lemma Stabilize_same_rhs_witness :
  n_graph bind0 = Some (mkGraph 4) ∧
  n_changedAt bind0 ≤ changedAt0 [] (input bind0) ∧
  bound bind0 = Some 5 ∧
  fn0 [] = ([], Some 5, None) ∧
  (let '(b', g', calls, res) := run0 bind0 [] in
   bound b' = Some 5 ∧ bindChange b' = bindChange bind0 ∧
   calls = [CallFn] ++ Link_calls bind0 ++ [CallIBindLink 8] ∧
   res = None ∧ n_boundAt b' = 4) ∧
  (let '(b', g', calls, res) := run1 bind0 [] in
   bound b' = Some 5 ∧ bindChange b' = bindChange bind0 ∧
   calls = [CallFn] ++ Link_calls bind0 ++ [CallIBindLink 8] ∧
   res = Some (ErrUser 3) ∧ n_boundAt b' = 2).
Proof.
  assert (n_changedAt bind0 ≤ changedAt0 [] (input bind0)) as Hle
    by (vm_compute; lia).
  split; [reflexivity|]. split; [exact Hle|].
  split; [reflexivity|]. split; [reflexivity|]. split.
  - pose proof (Stabilize_same_rhs changedAt0 rhsNodes0 is_IBind0 isNecessary0
                  fn0 Link0 Unlink0 newBindChange0 IBind_Link0 bind0 [] []
                  (mkGraph 4) 5 eq_refl Hle eq_refl eq_refl) as H.
    cbv zeta in H.
    destruct (link_walk is_IBind0 isNecessary0 IBind_Link0
                (Link_graph Link0 bind0 []) (rhsNodes0 (Link_graph Link0 bind0 [])))
      as [[linked g3] err] eqn:Ewalk.
    vm_compute in Ewalk. injection Ewalk as <- <- <-.
    unfold run0.
    destruct (run changedAt0 rhsNodes0 is_IBind0 isNecessary0 fn0 Link0 Unlink0
                newBindChange0 IBind_Link0 bind0 []) as [[[b' g'] calls] res].
    destruct H as (H1 & H2 & H3 & _ & _ & _ & _ & H8 & H9).
    split; [exact H1|]. split; [exact H2|]. split; [exact H3|].
    split; [exact H8|]. exact H9.
  - pose proof (Stabilize_same_rhs changedAt0 rhsNodes1 is_IBind1 isNecessary0
                  fn0 Link0 Unlink0 newBindChange0 IBind_Link1 bind0 [] []
                  (mkGraph 4) 5 eq_refl Hle eq_refl eq_refl) as H.
    cbv zeta in H.
    destruct (link_walk is_IBind1 isNecessary0 IBind_Link1
                (Link_graph Link0 bind0 []) (rhsNodes1 (Link_graph Link0 bind0 [])))
      as [[linked g3] err] eqn:Ewalk.
    vm_compute in Ewalk. injection Ewalk as <- <- <-.
    unfold run1.
    destruct (run changedAt0 rhsNodes1 is_IBind1 isNecessary0 fn0 Link0 Unlink0
                newBindChange0 IBind_Link1 bind0 []) as [[[b' g'] calls] res].
    destruct H as (H1 & H2 & H3 & _ & _ & _ & _ & H8 & H9).
    split; [exact H1|]. split; [exact H2|]. split; [exact H3|].
    split; [exact H8|]. exact H9.
Defined.

(** C6 as stated fails on the nodes of the scope that are not binds:
    node 7 is in [rhsNodes] and necessary, the bind function returns the
    node the bind is bound to, and no call links node 7 again. *)
Lemma Stabilize_same_rhs_only_binds_relinked :
  n_changedAt bind0 ≤ changedAt0 [] (input bind0) ∧
  fn0 [] = ([], bound bind0, None) ∧
  let '(b', g', calls, res) := run0 bind0 [] in
  ¬ (∀ n, n ∈ rhsNodes0 g' → isNecessary0 g' n = true →
       CallIBindLink n ∈ calls ∨
       ∃ m, CallLink (Some n) m ∈ calls ∨ CallLink m (Some n) ∈ calls).
Proof.
  split; [vm_compute; lia|]. split; [reflexivity|].
  destruct (run0 bind0 []) as [[[b' g'] calls] res] eqn:E.
  vm_compute in E. injection E as <- <- <- <-.
  intros H. destruct (H 7) as [Hc|[m [Hc|Hc]]].
  - unfold rhsNodes0. left.
  - reflexivity.
  - repeat (apply elem_of_cons in Hc as [Hc|Hc]; [discriminate|]).
    by apply not_elem_of_nil in Hc.
  - repeat (apply elem_of_cons in Hc as [Hc|Hc]; [discriminate|]).
    by apply not_elem_of_nil in Hc.
  - repeat (apply elem_of_cons in Hc as [Hc|Hc]; [discriminate|]).
    by apply not_elem_of_nil in Hc.
Qed.

End bind_examples.


(** * Properties of the stabilizer *)

Section graph_facts.
Import Heap Graph.

Context {V : Type} `{!Inhabited V}.
Variable fn : Identifier → list V → StabResult V.

Local Abbreviation Graph := (Graph (V := V)).
Local Abbreviation node_Stabilize := (node_Stabilize fn).
Local Abbreviation recompute_turn := (recompute_turn fn).
Local Abbreviation stabilize_loop := (stabilize_loop fn).
Local Abbreviation Stabilize := (Stabilize fn).
Local Abbreviation turns := (turns fn).
Local Abbreviation in_pass := (in_pass fn).

Implicit Types (g : Graph) (n : Node) (rh : Heap.recomputeHeap).

#[local] Arguments Heap.Add : simpl never.
#[local] Arguments Heap.RemoveMin : simpl never.
#[local] Arguments Heap.Remove : simpl never.

(** Inversion of a successful monadic step. *)
Ltac bind_inv H :=
  match type of H with
  | (?m ≫= _) = Some _ =>
      let E := fresh "E" in
      destruct m eqn:E; [cbn [mbind option_bind] in H|discriminate H]
  end.

(** *** The stabilizing flag *)

Lemma apply_pending_stabilizing q g g' :
  apply_pending q g = Some g' → stabilizing g' = stabilizing g.
Proof.
  revert g. induction q as [|[x v] q IH]; intros g Heq; cbn [apply_pending] in Heq.
  { by injection Heq as <-. }
  do 2 bind_inv Heq. by apply IH in Heq.
Qed.

Lemma recompute_turn_stabilizing g g' :
  recompute_turn g = Some (Continue g') → stabilizing g' = stabilizing g.
Proof.
  unfold Graph.recompute_turn. intros Heq.
  bind_inv Heq. destruct p as [r rh]. do 2 bind_inv Heq.
  destruct (negb (isNecessary n)); [by injection Heq as <-|].
  destruct (Graph.node_Stabilize _ _ _) as [v| |e].
  - bind_inv Heq. by injection Heq as <-.
  - by injection Heq as <-.
  - by bind_inv Heq.
Qed.

Lemma in_pass_stabilizing g : in_pass g → stabilizing g = true.
Proof.
  induction 1 as [g Hg|g g' _ IH _ Hturn|g x v g' _ IH Hset].
  - done.
  - by rewrite (recompute_turn_stabilizing g g').
  - unfold Var_Set in Hset. rewrite IH in Hset. by injection Hset as <-.
Qed.

(** C9: while a stabilization of a graph is in progress, [Stabilize]
    called on that graph returns [AlreadyStabilizing] and leaves the graph
    as it is: no node is recomputed, no listener is called. *)
Theorem Stabilize_already_stabilizing (g : Graph) (fuel : nat) :
  in_pass g →
  Stabilize fuel g = Some (g, Some ErrAlreadyStabilizing).
Proof.
  intros Hin. unfold Graph.Stabilize. by rewrite (in_pass_stabilizing g Hin).
Qed.

(** *** The heap seen from the graph *)

Lemma Add_one x rh :
  Heap.wf rh →
  ∃ rh', Heap.Add [x] rh = Some rh' ∧ Heap.wf rh' ∧
    (Heap.min_ok rh → Heap.min_ok rh') ∧
    Heap.lookup rh' = <[id x := item_of x]> (Heap.lookup rh).
Proof.
  intros Hwf. destruct (addUnsafe1_spec x rh Hwf) as (rh' & Heq & Hwf' & Hlk & _ & _ & Hok).
  exists rh'. unfold Heap.Add. cbn [addUnsafe]. rewrite Heq. done.
Qed.

Lemma add_children_spec g cs rh :
  Heap.wf rh → ids_ok g → (∀ c, c ∈ cs → is_Some (nodes g !! c)) →
  ∃ rh', add_children g cs rh = Some rh' ∧ Heap.wf rh' ∧
    (Heap.min_ok rh → Heap.min_ok rh') ∧
    (∀ k it, Heap.lookup rh' !! k = Some it →
       Heap.lookup rh !! k = Some it ∨
       ∃ cn, k ∈ cs ∧ nodes g !! k = Some cn ∧ it = item_of (view cn)) ∧
    (∀ k, is_Some (Heap.lookup rh !! k) → is_Some (Heap.lookup rh' !! k)).
Proof.
  intros Hwf Hids. revert rh Hwf.
  induction cs as [|c cs IH]; intros rh Hwf Hknown; cbn [add_children].
  { exists rh. split_and!; try done. intros k it ?. by left. }
  destruct (Hknown c) as [cn Hcn]; [left|]. rewrite Hcn. cbn [mbind option_bind].
  assert (∀ c', c' ∈ cs → is_Some (nodes g !! c')) as Hknown'.
  { intros c' ?. apply Hknown. by right. }
  destruct (isNecessary cn).
  - destruct (Add_one (view cn) rh Hwf) as (rh1 & -> & Hwf1 & Hok1 & Hlk1).
    cbn [mbind option_bind].
    destruct (IH rh1 Hwf1 Hknown') as (rh' & Heq & Hwf' & Hok' & Hin & Hkeep).
    exists rh'. split_and!; try done.
    + intros ?. by apply Hok', Hok1.
    + intros k it Hit. destruct (Hin k it Hit) as [Hold|(cn' & ? & ? & ?)].
      * rewrite Hlk1 in Hold. cbn [view id] in Hold.
        rewrite (Hids _ _ Hcn) in Hold.
        destruct (decide (k = c)) as [->|Hne].
        -- rewrite lookup_insert_eq in Hold. injection Hold as <-.
           right. exists cn. split_and!; try done. left.
        -- rewrite lookup_insert_ne in Hold by done. by left.
      * right. exists cn'. split_and!; try done. by right.
    + intros k Hk. apply Hkeep. rewrite Hlk1.
      destruct (decide (id (view cn) = k)) as [->|Hne].
      * rewrite lookup_insert_eq. by eexists.
      * by rewrite lookup_insert_ne.
  - cbn [mbind option_bind].
    destruct (IH rh Hwf Hknown') as (rh' & Heq & Hwf' & Hok' & Hin & Hkeep).
    exists rh'. split_and!; try done.
    intros k it Hit. destruct (Hin k it Hit) as [Hold|(cn' & ? & ? & ?)]; [by left|].
    right. exists cn'. split_and!; try done. by right.
Qed.

(** *** One turn of the loop *)

(** The graphs a turn can leave, for a node [n] taken out of the heap
    and the heap [rh] it leaves. *)
Lemma recompute_turn_eq g it rh n :
  Heap.RemoveMin (recomputeHeap g) = Some (Some (node (value it)), rh) →
  nodes g !! id (node (value it)) = Some n →
  recompute_turn g =
    let g0 := with_heap rh g in
    if negb (isNecessary n) then Some (Continue g0)
    else
      let n1 := recomputed (stabilizationNum g) n in
      let g1 := put_node n1 (fire [EvStabilize (n_id n)] g0) in
      match node_Stabilize g0 n with
      | Failed e =>
          rh' ← Heap.Add [view n] rh;
          Some (Return
                  (fire (flip EvStabilizationEnd (Some e) <$> onStabilizationEnd g)
                     (with_stabilizing false
                        (fire ((λ l, EvOnError l (n_id n) e) <$> n_onError n)
                           (with_heap rh' g1))))
                  e)
      | Cutoff => Some (Continue g1)
      | Success v =>
          let n2 := set_changedAt (stabilizationNum g) n1 in
          let g2 := put_node n2 (with_values (<[n_id n := v]> (values g)) g1) in
          rh' ← add_children g2 (n_children n) rh;
          Some (Continue
                  (fire ((λ l, EvOnUpdate l (n_id n)) <$> n_onUpdate n)
                     (with_heap rh' g2)))
      end.
Proof.
  intros Hrm Hn. unfold Graph.recompute_turn. rewrite Hrm.
  cbn [mbind option_bind]. rewrite Hn. done.
Qed.

(** *** The part of the nodes a pass does not write *)

Lemma static_eq n n' :
  static n = static n' →
  n_id n = n_id n' ∧ n_height n = n_height n' ∧ n_parents n = n_parents n' ∧
  n_children n = n_children n' ∧ n_observers n = n_observers n' ∧
  n_kind n = n_kind n' ∧ n_onUpdate n = n_onUpdate n' ∧ n_onError n = n_onError n'.
Proof. unfold static. intros H. injection H as ? ? ? ? ? ? ? ?. done. Qed.


Lemma static_view n n' : static n = static n' → view n = view n'.
Proof. intros (Hi&Hh&_)%static_eq. unfold view. by rewrite Hi, Hh. Qed.

Lemma statics_lookup g g' k n' :
  static <$> nodes g' = static <$> nodes g → nodes g' !! k = Some n' →
  ∃ n, nodes g !! k = Some n ∧ static n = static n'.
Proof.
  intros Hst Hn'. assert ((static <$> nodes g) !! k = Some (static n')) as Hk.
  { rewrite <- Hst, lookup_fmap, Hn'. done. }
  rewrite lookup_fmap in Hk. destruct (nodes g !! k) as [n|]; [|done].
  apply (inj Some) in Hk. by exists n.
Qed.

Lemma statics_put g n n' :
  nodes g !! n_id n' = Some n → static n' = static n →
  static <$> nodes (put_node n' g) = static <$> nodes g.
Proof.
  intros Hn Hst. cbn. rewrite fmap_insert, Hst. apply insert_id.
  by rewrite lookup_fmap, Hn.
Qed.

Lemma statics_ids_ok g g' :
  static <$> nodes g' = static <$> nodes g → ids_ok g → ids_ok g'.
Proof.
  intros Hst Hids k n' Hn'.
  destruct (statics_lookup g g' k n' Hst Hn') as (n & Hn & (Hi&_)%static_eq).
  rewrite <- Hi. by apply Hids.
Qed.

Lemma statics_heights_ok g g' :
  static <$> nodes g' = static <$> nodes g → heights_ok g → heights_ok g'.
Proof.
  intros Hst Hh k n' c Hn' Hc.
  destruct (statics_lookup g g' k n' Hst Hn') as (n & Hn & (_&Hhn&_&Hch&_)%static_eq).
  rewrite <- Hch in Hc. destruct (Hh k n c Hn Hc) as (cn & Hcn & Hlt).
  symmetry in Hst.
  destruct (statics_lookup g' g c cn Hst Hcn) as (cn' & Hcn' & (_&Hhc&_)%static_eq).
  exists cn'. split; [done|]. lia.
Qed.

Lemma statics_heap_ok g g' :
  static <$> nodes g' = static <$> nodes g →
  recomputeHeap g' = recomputeHeap g → heap_ok g → heap_ok g'.
Proof.
  intros Hst Hrh Hok k it. rewrite Hrh. intros Hit.
  destruct (Hok k it Hit) as (n & Hn & Hh). symmetry in Hst.
  destruct (statics_lookup g' g k n Hst Hn) as (n' & Hn' & (_&Hhn&_)%static_eq).
  exists n'. split; [done|]. lia.
Qed.

Lemma stab_ids_app (a b : list Event) : stab_ids (a ++ b) = stab_ids a ++ stab_ids b.
Proof. unfold stab_ids. apply omap_app. Qed.

Lemma stab_ids_fmap_nil {A} (f : A → Event) (l : list A) :
  (∀ x, match f x with EvStabilize _ => False | _ => True end) →
  stab_ids (f <$> l) = [].
Proof.
  intros Hf. induction l as [|x l IH]; [done|]. cbn.
  specialize (Hf x). destruct (f x); try done; apply IH.
Qed.

(** The node [RemoveMin] hands to a turn. *)
Lemma turn_pop g :
  graph_ok g → Heap.Len (recomputeHeap g) ≠ 0 →
  ∃ it rh n,
    Heap.RemoveMin (recomputeHeap g) = Some (Some (node (value it)), rh) ∧
    Heap.lookup (recomputeHeap g) !! n_id n = Some it ∧
    id (node (value it)) = n_id n ∧
    nodes g !! n_id n = Some n ∧
    Heap.wf rh ∧ Heap.min_ok rh ∧
    Heap.lookup rh = delete (n_id n) (Heap.lookup (recomputeHeap g)) ∧
    (∀ k x, Heap.lookup (recomputeHeap g) !! k = Some x →
       n_height n ≤ item_height (value x)).
Proof.
  intros [Hwf Hmin Hids Hh Hheap] Hlen.
  destruct (RemoveMin_spec (recomputeHeap g) Hwf Hmin Hlen)
    as (it & rh & Hrm & Hit & Hid & Hih & Hwf' & Hmin' & Hlk & Hle).
  destruct (Hheap _ _ Hit) as (n & Hn & Hhn).
  pose proof (Hids _ _ Hn) as Hk.
  exists it, rh, n. rewrite Hk. split_and!; try done.
  intros k x Hx. rewrite <- Hhn, Hih. by eapply Hle.
Qed.

Lemma turn_return g g' e :
  graph_ok g → Heap.Len (recomputeHeap g) ≠ 0 →
  recompute_turn g = Some (Return g' e) →
  ∃ n rh,
    nodes g !! n_id n = Some n ∧
    is_Some (Heap.lookup (recomputeHeap g) !! n_id n) ∧
    isNecessary n = true ∧
    node_Stabilize (with_heap rh g) n = Failed e ∧
    Heap.Add [view n] rh = Some (recomputeHeap g') ∧
    Heap.wf (recomputeHeap g') ∧ Heap.min_ok (recomputeHeap g') ∧
    Heap.lookup (recomputeHeap g') =
      <[n_id n := item_of (view n)]> (Heap.lookup (recomputeHeap g)) ∧
    events g' =
      events g ++ [EvStabilize (n_id n)] ++
      ((λ l, EvOnError l (n_id n) e) <$> n_onError n) ++
      (flip EvStabilizationEnd (Some e) <$> onStabilizationEnd g) ∧
    stabilizing g' = false ∧
    nodes g' = <[n_id n := recomputed (stabilizationNum g) n]> (nodes g) ∧
    values g' = values g ∧
    setDuringStabilization g' = setDuringStabilization g.
Proof.
  intros Hok Hlen Hturn.
  destruct (turn_pop g Hok Hlen) as (it & rh & n & Hrm & Hit & Hid & Hn & Hwf & Hmin & Hlk & Hle).
  rewrite <- Hid in Hn. rewrite (recompute_turn_eq g it rh n Hrm Hn) in Hturn.
  rewrite Hid in Hn. cbv zeta in Hturn.
  destruct (isNecessary n) eqn:Hnec; cbn [negb] in Hturn; [|done].
  destruct (node_Stabilize (with_heap rh g) n) as [v| |e'] eqn:Hres.
  - by bind_inv Hturn.
  - done.
  - destruct (Add_one (view n) rh Hwf) as (rh' & Hadd & Hwf' & Hmin' & Hlk').
    rewrite Hadd in Hturn. cbn [mbind option_bind] in Hturn.
    injection Hturn as <- <-. exists n, rh. split_and!; try done.
    + by apply Hmin'.
    + cbn. rewrite Hlk', Hlk. cbn. apply insert_delete_eq.
    + cbn. by rewrite <- !app_assoc.
Qed.

Lemma turn_continue g g' :
  graph_ok g → Heap.Len (recomputeHeap g) ≠ 0 →
  recompute_turn g = Some (Continue g') →
  ∃ n,
    nodes g !! n_id n = Some n ∧
    is_Some (Heap.lookup (recomputeHeap g) !! n_id n) ∧
    (∀ k x, Heap.lookup (recomputeHeap g) !! k = Some x →
       n_height n ≤ item_height (value x)) ∧
    graph_ok g' ∧
    static <$> nodes g' = static <$> nodes g ∧
    stab_ids (events g') =
      stab_ids (events g) ++ (if isNecessary n then [n_id n] else []) ∧
    Heap.lookup (recomputeHeap g') !! n_id n = None ∧
    (∀ k x, Heap.lookup (recomputeHeap g') !! k = Some x →
       Heap.lookup (recomputeHeap g) !! k = Some x ∨
       ∃ cn, k ∈ n_children n ∧ nodes g !! k = Some cn ∧
             item_height (value x) = n_height cn) ∧
    stabilizationNum g' = stabilizationNum g ∧
    setDuringStabilization g' = setDuringStabilization g ∧
    (∀ k, k ≠ n_id n → values g' !! k = values g !! k) ∧
    (n_kind n = KInput → values g' !!! n_id n = values g !!! n_id n).
Proof.
  intros Hok Hlen Hturn.
  destruct (turn_pop g Hok Hlen) as (it & rh & n & Hrm & Hit & Hid & Hn & Hwf & Hmin & Hlk & Hle).
  destruct Hok as [Hwf0 Hmin0 Hids Hh Hheap].
  rewrite <- Hid in Hn. rewrite (recompute_turn_eq g it rh n Hrm Hn) in Hturn.
  rewrite Hid in Hn. cbv zeta in Hturn.
  exists n. split; [done|]. split; [by eexists|]. split; [done|].
  assert (heap_ok (with_heap rh g)) as Hheap1.
  { intros k x. cbn. rewrite Hlk. intros [_ Hx]%lookup_delete_Some. by apply Hheap. }
  destruct (isNecessary n) eqn:Hnec; cbn [negb] in Hturn.
  2: { injection Hturn as <-. split_and!.
       - by split.
       - done.
       - cbn. by rewrite app_nil_r.
       - cbn. rewrite Hlk. apply lookup_delete_eq.
       - intros k x. cbn. rewrite Hlk. intros [_ Hx]%lookup_delete_Some. by left.
       - done.
       - done.
       - done.
       - done. }
  set (n1 := recomputed (stabilizationNum g) n) in *.
  set (g1 := put_node n1 (fire [EvStabilize (n_id n)] (with_heap rh g))) in *.
  assert (static <$> nodes g1 = static <$> nodes g) as Hst1.
  { apply (statics_put (fire [EvStabilize (n_id n)] (with_heap rh g)) n n1); done. }
  assert (stab_ids (events g1) = stab_ids (events g) ++ [n_id n]) as Hev1.
  { cbn. by rewrite stab_ids_app. }
  destruct (node_Stabilize (with_heap rh g) n) as [v| |e'] eqn:Hres;
    [| |by bind_inv Hturn].
  - set (n2 := set_changedAt (stabilizationNum g) n1) in *.
    set (g2 := put_node n2 (with_values (<[n_id n := v]> (values g)) g1)) in *.
    assert (static <$> nodes g2 = static <$> nodes g) as Hst2.
    { rewrite <- Hst1.
      apply (statics_put (with_values (<[n_id n := v]> (values g)) g1) n1 n2); [|done].
      cbn. apply lookup_insert_eq. }
    assert (∀ c, c ∈ n_children n → is_Some (nodes g2 !! c)) as Hknown.
    { intros c Hc. destruct (Hh _ _ c Hn Hc) as (cn & Hcn & _).
      assert ((static <$> nodes g2) !! c = Some (static cn)) as Hc2
        by (by rewrite Hst2, lookup_fmap, Hcn).
      rewrite lookup_fmap in Hc2. destruct (nodes g2 !! c); [by eexists|done]. }
    destruct (add_children_spec g2 (n_children n) rh)
      as (rh' & Hadd & Hwf' & Hmin' & Hin & Hkeep).
    { done. }
    { by apply (statics_ids_ok g). }
    { done. }
    rewrite Hadd in Hturn. cbn [mbind option_bind] in Hturn.
    injection Hturn as <-.
    assert (∀ k x, Heap.lookup rh' !! k = Some x →
              Heap.lookup (recomputeHeap g) !! k = Some x ∧ k ≠ n_id n ∨
              ∃ cn, k ∈ n_children n ∧ nodes g !! k = Some cn ∧
                    item_height (value x) = n_height cn) as Hin'.
    { intros k x Hx. destruct (Hin k x Hx) as [Hold|(cn & Hk & Hcn & ->)].
      - left. rewrite Hlk in Hold.
        by apply lookup_delete_Some in Hold as [? ?].
      - right. destruct (statics_lookup g g2 k cn Hst2 Hcn) as (cn0 & Hcn0 & (_&Hhc&_)%static_eq).
        exists cn0. split_and!; try done; cbn; lia. }
    split_and!; try done.
    + split; cbn [recomputeHeap with_heap fire with_events]; try done.
      * by apply Hmin'.
      * apply (statics_ids_ok g); [|done]. exact Hst2.
      * apply (statics_heights_ok g); [|done]. exact Hst2.
      * intros k x Hx. cbn in Hx. cbn [nodes fire with_heap with_events].
        destruct (Hin' k x Hx) as [[Hold _]|(cn & Hk & Hcn & Hhc)].
        -- destruct (Hheap k x Hold) as (m & Hm & Hhm).
           assert ((static <$> nodes g2) !! k = Some (static m)) as Hk2
             by (by rewrite Hst2, lookup_fmap, Hm).
           rewrite lookup_fmap in Hk2. destruct (nodes g2 !! k) as [m2|] eqn:Hm2; [|done].
           apply (inj Some) in Hk2. apply static_eq in Hk2 as (_&Hhm2&_).
           exists m2. split; [done|]. lia.
        -- assert ((static <$> nodes g2) !! k = Some (static cn)) as Hk2
             by (by rewrite Hst2, lookup_fmap, Hcn).
           rewrite lookup_fmap in Hk2. destruct (nodes g2 !! k) as [m2|] eqn:Hm2; [|done].
           apply (inj Some) in Hk2. apply static_eq in Hk2 as (_&Hhm2&_).
           exists m2. split; [done|]. lia.
    + cbn [events fire with_events with_heap]. rewrite stab_ids_app.
      rewrite (stab_ids_fmap_nil (λ l, EvOnUpdate l (n_id n))) by done.
      rewrite app_nil_r. exact Hev1.
    + cbn [recomputeHeap with_heap fire with_events].
      destruct (Heap.lookup rh' !! n_id n) as [x|] eqn:Hx; [|done]. exfalso.
      destruct (Hin' _ _ Hx) as [[_ Hne]|(cn & Hk & Hcn & Hhc)]; [done|].
      destruct (Hh _ _ _ Hn Hk) as (cn' & Hcn' & Hlt).
      rewrite Hn in Hcn'. injection Hcn' as <-. lia.
    + intros k x Hx. cbn in Hx. destruct (Hin' k x Hx) as [[? _]|?]; [by left|by right].
    + intros k Hne. cbn. by rewrite lookup_insert_ne.
    + intros Hkind. cbn. rewrite lookup_total_insert_eq.
      unfold Graph.node_Stabilize in Hres. rewrite Hkind in Hres.
      by injection Hres as <-.
  - injection Hturn as <-. split_and!; try done.
    + split; try done.
      * by apply (statics_ids_ok g).
      * by apply (statics_heights_ok g).
      * apply (statics_heap_ok (with_heap rh g)); try done.
    + cbn. rewrite Hlk. apply lookup_delete_eq.
    + intros k x. cbn. rewrite Hlk. intros [_ Hx]%lookup_delete_Some. by left.
Qed.

(** *** Turns keep the graph in order *)

Lemma turns_graph_ok k g g' :
  graph_ok g → turns k g g' →
  graph_ok g' ∧ static <$> nodes g' = static <$> nodes g ∧
  stabilizationNum g' = stabilizationNum g ∧
  setDuringStabilization g' = setDuringStabilization g ∧
  stabilizing g' = stabilizing g.
Proof.
  intros Hok Hturns. induction Hturns as [g|k g g1 g2 Hlen Hturn _ IH]; [done|].
  destruct (turn_continue g g1 Hok Hlen Hturn)
    as (n & _ & _ & _ & Hok1 & Hst1 & _ & _ & _ & Hnum & Hq & _).
  destruct (IH Hok1) as (Hok2 & Hst2 & Hnum2 & Hq2 & Hflag2).
  split_and!; try done; try congruence.
  rewrite Hflag2. by apply recompute_turn_stabilizing.
Qed.

Lemma stabilize_loop_turns k fuel g g' :
  turns k g g' → stabilize_loop (k + fuel) g = stabilize_loop fuel g'.
Proof.
  induction 1 as [g|k g g1 g2 Hlen Hturn _ IH]; [done|].
  cbn [Nat.add Graph.stabilize_loop]. rewrite decide_False by done.
  rewrite Hturn. cbn [mbind option_bind]. exact IH.
Qed.

Lemma stabilizeStart_ok g : graph_ok g → graph_ok (stabilizeStart g).
Proof. intros [? ? ? ? ?]. by split. Qed.

(** *** The queued var-sets *)

Lemma apply_pending_app q1 q2 g :
  apply_pending (q1 ++ q2) g = g' ← apply_pending q1 g; apply_pending q2 g'.
Proof.
  revert g. induction q1 as [|[x v] q1 IH]; intros g; [done|].
  cbn [app apply_pending]. destruct (nodes g !! x) as [n|]; [|done].
  cbn [mbind option_bind]. destruct (Heap.Add _ _) as [rh|]; [|done].
  cbn [mbind option_bind]. apply IH.
Qed.

(** Writing one queued value. *)
Lemma apply_pending_one x v g n :
  Heap.wf (recomputeHeap g) → ids_ok g → nodes g !! x = Some n →
  ∃ g' rh,
    apply_pending [(x, v)] g = Some g' ∧
    Heap.Add [view (set_setAt (S (stabilizationNum g)) n)] (recomputeHeap g) = Some rh ∧
    g' = with_heap rh (put_node (set_setAt (S (stabilizationNum g)) n)
                         (with_values (<[x := v]> (values g)) g)) ∧
    Heap.wf rh ∧ (Heap.min_ok (recomputeHeap g) → Heap.min_ok rh) ∧
    Heap.lookup rh =
      <[x := item_of (view n)]> (Heap.lookup (recomputeHeap g)).
Proof.
  intros Hwf Hids Hn. cbn [apply_pending]. rewrite Hn. cbn [mbind option_bind].
  destruct (Add_one (view (set_setAt (S (stabilizationNum g)) n)) (recomputeHeap g) Hwf)
    as (rh & Hadd & Hwf' & Hmin & Hlk).
  rewrite Hadd. cbn [mbind option_bind]. eexists _, rh. split_and!; try done.
  rewrite Hlk. cbn. by rewrite (Hids _ _ Hn).
Qed.

Lemma apply_pending_ok q g :
  graph_ok g → (∀ y w, (y, w) ∈ q → is_Some (nodes g !! y)) →
  ∃ g', apply_pending q g = Some g' ∧ graph_ok g' ∧
    static <$> nodes g' = static <$> nodes g ∧
    stabilizationNum g' = stabilizationNum g ∧
    stabilizing g' = stabilizing g ∧
    events g' = events g ∧
    onStabilizationEnd g' = onStabilizationEnd g ∧
    setDuringStabilization g' = setDuringStabilization g ∧
    (∀ k, is_Some (Heap.lookup (recomputeHeap g) !! k) →
          is_Some (Heap.lookup (recomputeHeap g') !! k)) ∧
    (∀ k, k ∉ q.*1 → values g' !! k = values g !! k ∧ nodes g' !! k = nodes g !! k).
Proof.
  revert g. induction q as [|[x v] q IH]; intros g Hok Hknown.
  { exists g. split_and!; done. }
  destruct (Hknown x v) as [n Hn]; [left|].
  destruct Hok as [Hwf Hmin Hids Hh Hheap].
  destruct (apply_pending_one x v g n Hwf Hids Hn)
    as (g1 & rh & _ & Hadd & Hg1 & Hwf1 & Hmin1 & Hlk1).
  cbn [apply_pending]. rewrite Hn. cbn [mbind option_bind].
  rewrite Hadd. cbn [mbind option_bind]. rewrite <- Hg1.
  pose proof (Hids _ _ Hn) as Hidn.
  assert (static <$> nodes g1 = static <$> nodes g) as Hst1.
  { rewrite Hg1.
    apply (statics_put (with_values (<[x:=v]> (values g)) g) n
             (set_setAt (S (stabilizationNum g)) n)); [|done].
    cbn. by rewrite Hidn. }
  assert (graph_ok g1) as Hok1.
  { split.
    - by rewrite Hg1.
    - rewrite Hg1. by apply Hmin1.
    - by apply (statics_ids_ok g).
    - by apply (statics_heights_ok g).
    - intros k it. rewrite Hg1 at 1. cbn [recomputeHeap with_heap]. rewrite Hlk1.
      intros Hit. destruct (decide (k = x)) as [->|Hne].
      + rewrite lookup_insert_eq in Hit. injection Hit as <-.
        assert ((static <$> nodes g1) !! x = Some (static n)) as Hx
          by (by rewrite Hst1, lookup_fmap, Hn).
        rewrite lookup_fmap in Hx. destruct (nodes g1 !! x) as [m|]; [|done].
        apply (inj Some) in Hx. apply static_eq in Hx as (_&Hhm&_).
        exists m. split; [done|]. cbn. lia.
      + rewrite lookup_insert_ne in Hit by done.
        destruct (Hheap k it Hit) as (m & Hm & Hhm).
        assert ((static <$> nodes g1) !! k = Some (static m)) as Hx
          by (by rewrite Hst1, lookup_fmap, Hm).
        rewrite lookup_fmap in Hx. destruct (nodes g1 !! k) as [m'|]; [|done].
        apply (inj Some) in Hx. apply static_eq in Hx as (_&Hhm'&_).
        exists m'. split; [done|]. lia. }
  destruct (IH g1 Hok1) as (g' & Heq & Hok' & Hst' & Hnum' & Hflag' & Hev' & Hend' & Hq' & Hkeep' & Hsame').
  { intros y w Hy. destruct (Hknown y w) as [m Hm]; [by right|].
    assert ((static <$> nodes g1) !! y = Some (static m)) as Hx
      by (by rewrite Hst1, lookup_fmap, Hm).
    rewrite lookup_fmap in Hx. destruct (nodes g1 !! y); [by eexists|done]. }
  exists g'. split; [done|]. split; [done|].
  split; [congruence|].
  rewrite Hnum', Hflag', Hev', Hend', Hq', Hg1. split_and!; try done.
  - intros k Hk. apply Hkeep'. rewrite Hg1. cbn [recomputeHeap with_heap].
    rewrite Hlk1. destruct (decide (x = k)) as [->|Hne].
    + rewrite lookup_insert_eq. by eexists.
    + by rewrite lookup_insert_ne.
  - intros k Hk. rewrite fmap_cons in Hk. cbn in Hk.
    apply not_elem_of_cons in Hk as [Hne Hk].
    destruct (Hsame' k Hk) as [Hv Hn']. rewrite Hv, Hn', Hg1. cbn.
    rewrite Hidn. by rewrite !lookup_insert_ne.
Qed.

(** *** The checks are sound *)

Lemma wfb_sound rh : Heap.wfb rh = true → Heap.wf rh.
Proof.
  unfold Heap.wfb. intros H.
  apply andb_prop in H as [H Hmax]. apply andb_prop in H as [H Hmin].
  apply andb_prop in H as [Hl Hb].
  apply bool_decide_eq_true_1 in Hl. apply bool_decide_eq_true_1 in Hmin.
  apply bool_decide_eq_true_1 in Hmax.
  assert (∀ h, h < length (heights rh) →
            Forall (λ it, Heap.lookup rh !! key it = Some it ∧
                          item_height (value it) = h) (bucket rh h) ∧
            NoDup (key <$> bucket rh h) ∧
            (bucket rh h = [] ∨ minHeight rh ≤ h ≤ maxHeight rh)) as Hb'.
  { intros h Hh. rewrite forallb_forall in Hb.
    assert (In h (seq 0 (length (heights rh)))) as Hin by (apply in_seq; lia).
    apply Hb in Hin. apply andb_prop in Hin as [Hin H3].
    apply andb_prop in Hin as [H1 H2].
    apply bool_decide_eq_true_1 in H1. apply bool_decide_eq_true_1 in H2.
    apply bool_decide_eq_true_1 in H3. done. }
  assert (∀ h, length (heights rh) ≤ h → bucket rh h = []) as Hout.
  { intros h Hh. unfold bucket, bucket_of. by rewrite lookup_ge_None_2. }
  split.
  - exact Hl.
  - intros h it Hin. destruct (decide (h < length (heights rh))) as [Hh|Hh].
    + destruct (Hb' h Hh) as (HF & _ & _). rewrite Forall_forall in HF. by apply HF.
    + rewrite Hout in Hin by lia. by apply not_elem_of_nil in Hin.
  - intros h. destruct (decide (h < length (heights rh))) as [Hh|Hh].
    + by destruct (Hb' h Hh) as (_ & ? & _).
    + rewrite Hout by lia. constructor.
  - intros h Hne. destruct (decide (h < length (heights rh))) as [Hh|Hh].
    + by destruct (Hb' h Hh) as (_ & _ & [?|?]).
    + by rewrite Hout in Hne by lia.
  - done.
  - done.
Qed.

Lemma min_okb_sound rh : Heap.min_okb rh = true → Heap.min_ok rh.
Proof.
  unfold Heap.min_okb, Heap.min_ok.
  destruct (decide (size (Heap.lookup rh) = 0)); apply bool_decide_eq_true_1.
Qed.

Lemma graph_okb_sound g : graph_okb g = true → graph_ok g ∧ queue_ok g.
Proof.
  unfold graph_okb. intros H.
  apply andb_prop in H as [H Hq]. apply andb_prop in H as [H Hheap].
  apply andb_prop in H as [H Hh]. apply andb_prop in H as [H Hids].
  apply andb_prop in H as [Hwf Hmin].
  apply bool_decide_eq_true_1 in Hids. apply bool_decide_eq_true_1 in Hh.
  apply bool_decide_eq_true_1 in Hheap.
  split; [split|].
  - by apply wfb_sound.
  - by apply min_okb_sound.
  - exact Hids.
  - intros k n c Hn Hc. specialize (Hh k n Hn). cbn beta in Hh.
    rewrite forallb_forall in Hh. apply list_elem_of_In in Hc.
    specialize (Hh c Hc). destruct (nodes g !! c) as [cn|]; [|done].
    apply bool_decide_eq_true_1 in Hh. by exists cn.
  - intros k it Hit. specialize (Hheap k it Hit). cbn beta in Hheap.
    destruct (nodes g !! k) as [n|]; [|done].
    apply bool_decide_eq_true_1 in Hheap. by exists n.
  - intros y w Hy. rewrite forallb_forall in Hq. apply list_elem_of_In in Hy.
    specialize (Hq _ Hy). by apply bool_decide_eq_true_1 in Hq.
Qed.

Lemma links_okb_sound g : links_okb g = true → links_ok g.
Proof.
  unfold links_okb. intros H.
  apply andb_prop in H as [H Hf]. apply andb_prop in H as [H Hp].
  apply andb_prop in H as [Hwf Hids].
  apply bool_decide_eq_true_1 in Hids. apply bool_decide_eq_true_1 in Hp.
  apply bool_decide_eq_true_1 in Hf.
  split.
  - by apply wfb_sound.
  - exact Hids.
  - intros k n p Hn Hc. specialize (Hp k n Hn). cbn beta in Hp.
    rewrite forallb_forall in Hp. apply list_elem_of_In in Hc.
    specialize (Hp p Hc). destruct (nodes g !! p) as [pn|]; [|done].
    apply bool_decide_eq_true_1 in Hp. by exists pn.
  - intros k n Hn. destruct (Hf k n Hn) as [Hk HF]. split; [done|].
    intros x Hx. rewrite Forall_forall in HF. by apply HF.
Qed.

(** *** A turn always has a result *)

Lemma turn_total g :
  graph_ok g → Heap.Len (recomputeHeap g) ≠ 0 → is_Some (recompute_turn g).
Proof.
  intros Hok Hlen.
  destruct (turn_pop g Hok Hlen) as (it & rh & n & Hrm & Hit & Hid & Hn & Hwf & Hmin & Hlk & Hle).
  destruct Hok as [Hwf0 Hmin0 Hids Hh Hheap].
  rewrite <- Hid in Hn. rewrite (recompute_turn_eq g it rh n Hrm Hn).
  rewrite Hid in Hn. cbv zeta.
  destruct (negb (isNecessary n)); [by eexists|].
  destruct (node_Stabilize (with_heap rh g) n) as [v| |e']; [|by eexists|].
  2: { destruct (Add_one (view n) rh Hwf) as (rh' & -> & _). by eexists. }
  set (n1 := recomputed (stabilizationNum g) n).
  set (g1 := put_node n1 (fire [EvStabilize (n_id n)] (with_heap rh g))).
  set (n2 := set_changedAt (stabilizationNum g) n1).
  set (g2 := put_node n2 (with_values (<[n_id n := v]> (values g)) g1)).
  assert (static <$> nodes g1 = static <$> nodes g) as Hst1.
  { apply (statics_put (fire [EvStabilize (n_id n)] (with_heap rh g)) n n1); done. }
  assert (static <$> nodes g2 = static <$> nodes g) as Hst2.
  { rewrite <- Hst1.
    apply (statics_put (with_values (<[n_id n := v]> (values g)) g1) n1 n2); [|done].
    cbn. apply lookup_insert_eq. }
  destruct (add_children_spec g2 (n_children n) rh) as (rh' & Hadd & _).
  - done.
  - by apply (statics_ids_ok g).
  - intros c Hc. destruct (Hh _ _ c Hn Hc) as (cn & Hcn & _).
    assert ((static <$> nodes g2) !! c = Some (static cn)) as Hc2
      by (by rewrite Hst2, lookup_fmap, Hcn).
    rewrite lookup_fmap in Hc2. destruct (nodes g2 !! c); [by eexists|done].
  - rewrite Hadd. by eexists.
Qed.

(** *** At most one turn for every node *)

Lemma settled_turn g g' P :
  graph_ok g → settled g P → Heap.Len (recomputeHeap g) ≠ 0 →
  recompute_turn g = Some (Continue g') →
  ∃ i, settled g' (P ++ [i]) ∧ is_Some (nodes g !! i) ∧ (i ∉ P) ∧
    (stab_ids (events g') = stab_ids (events g) ∨
     stab_ids (events g') = stab_ids (events g) ++ [i]).
Proof.
  intros Hok [Hnd HP] Hlen Hturn.
  destruct (turn_continue g g' Hok Hlen Hturn)
    as (n & Hn & [it Hit] & Hle & Hok' & Hst & Hev & Hgone & Hin & _).
  destruct Hok as [Hwf Hmin Hids Hh Hheap].
  assert (n_id n ∉ P) as HnP.
  { intros Hc. destruct (HP _ Hc) as [Hnone _]. congruence. }
  destruct (Hheap _ _ Hit) as (n' & Hn' & Hhn). rewrite Hn in Hn'. injection Hn' as <-.
  exists (n_id n). split; [|split; [by eexists|split; [done|]]].
  - split.
    + apply NoDup_app. split_and!; [done| |apply NoDup_singleton].
      intros x Hx ->%list_elem_of_singleton. done.
    + intros p [Hp| ->%list_elem_of_singleton]%elem_of_app.
      * destruct (HP p Hp) as (Hnone & pn & Hpn & Hlow).
        destruct (statics_lookup g' g p pn) as (pn' & Hpn' & (_&Hhp&_)%static_eq);
          [done|done|].
        split.
        -- destruct (Heap.lookup (recomputeHeap g') !! p) as [x|] eqn:Hx; [|done].
           exfalso. destruct (Hin p x Hx) as [Hold|(cn & Hc & Hcn & Hhc)]; [congruence|].
           destruct (Hh _ _ _ Hn Hc) as (cn' & Hcn' & Hlt).
           rewrite Hcn in Hcn'. injection Hcn' as <-.
           rewrite Hpn in Hcn. injection Hcn as <-.
           specialize (Hlow _ _ Hit). lia.
        -- exists pn'. split; [done|]. intros k x Hx.
           destruct (Hin k x Hx) as [Hold|(cn & Hc & Hcn & Hhc)].
           ++ specialize (Hlow _ _ Hold). lia.
           ++ destruct (Hh _ _ _ Hn Hc) as (cn' & Hcn' & Hlt).
              rewrite Hcn in Hcn'. injection Hcn' as <-.
              specialize (Hlow _ _ Hit). lia.
      * split; [done|].
        destruct (statics_lookup g' g (n_id n) n) as (m & Hm & (_&Hhm&_)%static_eq);
          [done|done|].
        exists m. split; [done|]. intros k x Hx.
        destruct (Hin k x Hx) as [Hold|(cn & Hc & Hcn & Hhc)].
        -- specialize (Hle _ _ Hold). lia.
        -- destruct (Hh _ _ _ Hn Hc) as (cn' & Hcn' & Hlt).
           rewrite Hcn in Hcn'. injection Hcn' as <-. lia.
  - rewrite Hev. destruct (isNecessary n); [by right|left; by rewrite app_nil_r].
Qed.

Lemma apply_pending_events q g g' :
  apply_pending q g = Some g' → events g' = events g.
Proof.
  revert g. induction q as [|[x v] q IH]; intros g Heq; cbn [apply_pending] in Heq.
  { by injection Heq as <-. }
  do 2 bind_inv Heq. by apply IH in Heq.
Qed.

Lemma with_queue_ok q g : graph_ok g → graph_ok (with_queue q g).
Proof. intros [? ? ? ? ?]. by split. Qed.

(** The end of a pass that met no error. *)
Lemma stabilizeEnd_spec g :
  graph_ok g → queue_ok g →
  ∃ g0 g',
    apply_pending (setDuringStabilization g) (with_queue [] g) = Some g0 ∧
    stabilizeEnd g = Some g' ∧
    g' = fire (flip EvStabilizationEnd None <$> onStabilizationEnd g0)
           (with_stabilizing false g0) ∧
    graph_ok g0 ∧ stabilizationNum g0 = stabilizationNum g.
Proof.
  intros Hok Hq.
  destruct (apply_pending_ok (setDuringStabilization g) (with_queue [] g))
    as (g0 & Heq & Hok0 & _ & Hnum & _).
  { by apply with_queue_ok. }
  { exact Hq. }
  exists g0, (fire (flip EvStabilizationEnd None <$> onStabilizationEnd g0)
               (with_stabilizing false g0)).
  unfold stabilizeEnd. rewrite Heq. done.
Qed.

Lemma stabilizeEnd_events g g' :
  stabilizeEnd g = Some g' → stab_ids (events g') = stab_ids (events g).
Proof.
  unfold stabilizeEnd. intros Heq. bind_inv Heq. injection Heq as <-.
  apply apply_pending_events in E. cbn. rewrite stab_ids_app, E.
  rewrite (stab_ids_fmap_nil (flip EvStabilizationEnd None)) by done.
  by rewrite app_nil_r.
Qed.

Lemma stabilize_loop_eq fuel g :
  stabilize_loop fuel g =
    if decide (Heap.Len (recomputeHeap g) = 0) then
      g' ← stabilizeEnd g; Some (g', None)
    else
      match fuel with
      | 0 => None
      | S fuel' =>
          t ← recompute_turn g;
          match t with
          | Continue g' => stabilize_loop fuel' g'
          | Return g' e => Some (g', Some e)
          end
      end.
Proof. by destruct fuel. Qed.

Lemma stabilize_loop_once fuel g P g' r :
  graph_ok g → settled g P → stabilize_loop fuel g = Some (g', r) →
  ∃ L, stab_ids (events g') = stab_ids (events g) ++ L ∧ NoDup (P ++ L).
Proof.
  revert g P. induction fuel as [|fuel IH]; intros g P Hok Hset Heq;
    rewrite stabilize_loop_eq in Heq;
    destruct (decide (Heap.Len (recomputeHeap g) = 0)) as [Hlen|Hlen];
    cbv iota in Heq; try done.
  - bind_inv Heq. injection Heq as <- <-. apply stabilizeEnd_events in E.
    exists []. rewrite !app_nil_r. split; [done|by destruct Hset].
  - bind_inv Heq. injection Heq as <- <-. apply stabilizeEnd_events in E.
    exists []. rewrite !app_nil_r. split; [done|by destruct Hset].
  - bind_inv Heq. destruct t as [g1|g1 e].
    + destruct (settled_turn g g1 P Hok Hset Hlen E) as (i & Hset1 & _ & HiP & Hev).
      destruct (turn_continue g g1 Hok Hlen E) as (_ & _ & _ & _ & Hok1 & _).
      destruct (IH g1 (P ++ [i]) Hok1 Hset1 Heq) as (L1 & HL1 & Hnd1).
      rewrite <- app_assoc in Hnd1. cbn [app] in Hnd1.
      destruct Hev as [Hev|Hev]; rewrite Hev in HL1.
      * exists L1. split; [done|].
        apply NoDup_app in Hnd1 as (HndP & Hdisj & [_ HndL]%NoDup_cons).
        apply NoDup_app. split_and!; try done.
        intros x Hx Hx'. apply (Hdisj x Hx). by right.
      * exists (i :: L1). split; [|done]. by rewrite HL1, <- app_assoc.
    + injection Heq as <- <-.
      destruct (turn_return g g1 e Hok Hlen E)
        as (n & rh & Hn & [it Hit] & _ & _ & _ & _ & _ & _ & Hev & _).
      exists [n_id n]. split.
      * rewrite Hev, !stab_ids_app.
        rewrite (stab_ids_fmap_nil (λ l, EvOnError l (n_id n) e)) by done.
        rewrite (stab_ids_fmap_nil (flip EvStabilizationEnd (Some e))) by done.
        by rewrite !app_nil_r.
      * destruct Hset as [HndP HP]. apply NoDup_app.
        split_and!; [done| |apply NoDup_singleton].
        intros x Hx ->%list_elem_of_singleton.
        destruct (HP _ Hx) as [Hnone _]. congruence.
Qed.

Lemma settled_nil g : settled g [].
Proof. split; [constructor|]. intros p Hp. by apply not_elem_of_nil in Hp. Qed.

(** Within one pass no node has its [Stabilize] called twice. *)
Lemma Stabilize_once g fuel g' r :
  graph_ok g → Stabilize fuel g = Some (g', r) →
  ∃ L, stab_ids (events g') = stab_ids (events g) ++ L ∧ NoDup L.
Proof.
  intros Hok. unfold Graph.Stabilize. destruct (stabilizing g).
  - intros [= <- <-]. exists []. rewrite app_nil_r. split; [done|constructor].
  - intros Heq.
    destruct (stabilize_loop_once fuel (stabilizeStart g) [] g' r) as (L & HL & Hnd).
    + by apply stabilizeStart_ok.
    + apply settled_nil.
    + done.
    + exists L. split; [|done]. rewrite HL. cbn. rewrite stab_ids_app.
      by rewrite (stab_ids_fmap_nil EvStabilizationStart), app_nil_r.
Qed.

(** *** The loop comes to an end *)

Lemma known_length (m : gmap Identifier Node) (P : list Identifier) :
  NoDup P → (∀ p, p ∈ P → is_Some (m !! p)) → length P ≤ size m.
Proof.
  intros Hnd Hin. rewrite <- size_dom.
  change (size (dom m)) with (length (elements (dom m))).
  apply submseteq_length, NoDup_submseteq; [done|].
  intros x Hx. apply elem_of_elements, elem_of_dom. by apply Hin.
Qed.

Lemma stabilize_loop_total fuel g P :
  graph_ok g → queue_ok g → settled g P →
  size (nodes g) < length P + fuel →
  is_Some (stabilize_loop fuel g).
Proof.
  revert g P. induction fuel as [|fuel IH]; intros g P Hok Hq Hset Hsz;
    cbn [Graph.stabilize_loop];
    destruct (decide (Heap.Len (recomputeHeap g) = 0)) as [Hlen|Hlen].
  - destruct (stabilizeEnd_spec g Hok Hq) as (g0 & g' & _ & -> & _). by eexists.
  - exfalso. destruct Hset as [Hnd HP].
    assert (length P ≤ size (nodes g)); [|lia].
    apply known_length; [done|]. intros p Hp.
    destruct (HP p Hp) as (_ & pn & -> & _). by eexists.
  - destruct (stabilizeEnd_spec g Hok Hq) as (g0 & g' & _ & -> & _). by eexists.
  - destruct (turn_total g Hok Hlen) as [t Ht]. rewrite Ht. cbn [mbind option_bind].
    destruct t as [g1|g1 e]; [|by eexists].
    destruct (settled_turn g g1 P Hok Hset Hlen Ht) as (i & Hset1 & _ & _ & _).
    destruct (turn_continue g g1 Hok Hlen Ht)
      as (_ & _ & _ & _ & Hok1 & Hst & _ & _ & _ & _ & Hq1 & _).
    apply (IH g1 (P ++ [i])); try done.
    + intros y w Hy. rewrite Hq1 in Hy. destruct (Hq y w Hy) as [m Hm].
      destruct (statics_lookup g1 g y m) as (m' & -> & _); [done|done|by eexists].
    + rewrite length_app. cbn [length].
      assert (size (nodes g1) = size (nodes g)) as ->; [|lia].
      rewrite <- (map_size_fmap static (nodes g1)), Hst. apply map_size_fmap.
Qed.

Lemma Stabilize_total g fuel :
  graph_ok g → queue_ok g → size (nodes g) < fuel →
  is_Some (Stabilize fuel g).
Proof.
  intros Hok Hq Hsz. unfold Graph.Stabilize. destruct (stabilizing g); [by eexists|].
  apply (stabilize_loop_total fuel (stabilizeStart g) []).
  - by apply stabilizeStart_ok.
  - exact Hq.
  - apply settled_nil.
  - cbn. lia.
Qed.

(** *** An error in a node *)






(** *** A var set while the graph stabilizes *)

Lemma turns_input_value k g g' x n :
  graph_ok g → turns k g g' → nodes g !! x = Some n → n_kind n = KInput →
  values g' !!! x = values g !!! x ∧ Value g' x = Value g x.
Proof.
  intros Hok Hturns Hn Hkind.
  assert (values g' !!! x = values g !!! x) as Hv.
  { revert n Hn Hkind. induction Hturns as [g|k g g1 g2 Hlen Hturn _ IH]; [done|].
    intros n Hn Hkind.
    destruct (turn_continue g g1 Hok Hlen Hturn)
      as (m & Hm & _ & _ & Hok1 & Hst & _ & _ & _ & _ & _ & Hne & Hin).
    destruct (statics_lookup g1 g x n) as (n1 & Hn1 & (_&_&_&_&_&Hk1&_)%static_eq);
      [done|done|].
    rewrite (IH Hok1 n1 Hn1) by congruence.
    destruct (decide (x = n_id m)) as [->|Hx].
    - rewrite Hn in Hm. injection Hm as ->. by apply Hin.
    - unfold lookup_total, map_lookup_total. by rewrite Hne. }
  split; [done|].
  destruct (turns_graph_ok k g g' Hok Hturns) as (_ & Hst & _).
  destruct (statics_lookup g' g x n) as (n' & Hn' & (_&_&_&_&_&Hk'&_)%static_eq);
    [done|done|].
  unfold Value. rewrite Hn, Hn', Hk', Hkind. done.
Qed.

(** C7: [Var.Set] called while a stabilization is in progress leaves
    [Value()] of the var as it was, and so it stays for the rest of the
    pass; when the pass then completes, [Value()] is the value set,
    [setAt] is the number of the pass plus one, and the var is in the
    recompute heap. *)
Theorem Var_Set_during_stabilization g x v :
  graph_ok g → queue_ok g → in_pass g →
  n_kind <$> (nodes g !! x) = Some KInput →
  ∃ g1, Var_Set x v g = Some g1 ∧ in_pass g1 ∧ Value g1 x = Value g x ∧
    ∀ k g2, turns k g1 g2 →
      Value g2 x = Value g x ∧
      (Heap.Len (recomputeHeap g2) = 0 →
       ∀ fuel, ∃ g3 n3,
         stabilize_loop (k + fuel) g1 = Some (g3, None) ∧
         stabilizing g3 = false ∧
         Value g3 x = v ∧
         nodes g3 !! x = Some n3 ∧
         n_setAt n3 = stabilizationNum g + 1 ∧
         Heap.Has (view n3) (recomputeHeap g3) = true).
Proof.
  intros Hok Hq Hin Hx.
  destruct (nodes g !! x) as [n|] eqn:Hn; [|done]. injection Hx as Hkind.
  pose proof (in_pass_stabilizing g Hin) as Hflag.
  set (g1 := with_queue (setDuringStabilization g ++ [(x, v)]) g).
  assert (Var_Set x v g = Some g1) as Hset by (unfold Var_Set; by rewrite Hflag).
  exists g1. split; [done|]. split; [by apply (in_pass_Set fn g x v)|].
  split; [done|]. intros k g2 Hturns.
  assert (graph_ok g1) as Hok1 by (by apply with_queue_ok).
  destruct (turns_input_value k g1 g2 x n Hok1 Hturns Hn Hkind) as [_ HV].
  split; [done|]. intros Hlen fuel.
  destruct (turns_graph_ok k g1 g2 Hok1 Hturns) as (Hok2 & Hst2 & Hnum2 & Hq2 & Hflag2).
  assert (∀ y w, (y, w) ∈ setDuringStabilization g → is_Some (nodes (with_queue [] g2) !! y))
    as Hknown.
  { intros y w Hy. destruct (Hq y w Hy) as [m Hm].
    destruct (statics_lookup g2 g1 y m) as (m' & Hm' & _); [done|done|].
    cbn. rewrite Hm'. by eexists. }
  destruct (apply_pending_ok (setDuringStabilization g) (with_queue [] g2))
    as (ga & Hga & Hoka & Hsta & Hnuma & _); [by apply with_queue_ok|done|].
  destruct (statics_lookup g2 g1 x n) as (n2 & Hn2 & _); [done|done|].
  destruct (statics_lookup ga (with_queue [] g2) x n2)
    as (na & Hna & (_&_&_&_&_&Hka&_)%static_eq); [done|done|].
  destruct Hoka as [Hwfa Hmina Hidsa Hha Hheapa].
  destruct (apply_pending_one x v ga na Hwfa Hidsa Hna)
    as (gb & rh & Hgb & _ & Hgbeq & _ & _ & Hlk).
  pose proof (Hidsa _ _ Hna) as Hidna.
  eexists _, (set_setAt (S (stabilizationNum ga)) na).
  split.
  { rewrite (stabilize_loop_turns k fuel g1 g2 Hturns), stabilize_loop_eq.
    rewrite decide_True by done. unfold stabilizeEnd. rewrite Hq2.
    cbn [setDuringStabilization with_queue g1].
    rewrite apply_pending_app, Hga. cbn [mbind option_bind].
    rewrite Hgb. cbn [mbind option_bind]. reflexivity. }
  rewrite Hgbeq.
  assert (n_kind na = KInput) as Hkna.
  { destruct (statics_lookup g2 g1 x n) as (n2' & Hn2' & (_&_&_&_&_&Hk2&_)%static_eq);
      [done|done|].
    rewrite Hn2 in Hn2'. injection Hn2' as <-. congruence. }
  split_and!.
  - done.
  - unfold Value. cbn. rewrite Hidna, lookup_insert_eq. cbn. rewrite Hkna.
    apply lookup_total_insert_eq.
  - cbn. rewrite Hidna. apply lookup_insert_eq.
  - cbn. rewrite Hnuma. cbn. rewrite Hnum2. cbn. lia.
  - unfold Heap.Has. apply bool_decide_eq_true_2. cbn. rewrite Hlk.
    cbn. rewrite Hidna, lookup_insert_eq. by eexists.
Qed.

(** *** Observing and unobserving *)

Section walk.

Variables (o : Identifier) (g0 : Graph).
Hypothesis Hwk : walk_ok o g0.

Local Abbreviation observed_upto := (observed_upto o g0).
Local Abbreviation unobserved_upto := (unobserved_upto o g0).

Lemma filter_fresh (l : list Identifier) :
  o ∉ l → filter (λ x, x ≠ o) l = l.
Proof.
  induction l as [|x l IH]; [done|]. intros [? ?]%not_elem_of_cons.
  rewrite filter_cons, decide_True by done. f_equal. by apply IH.
Qed.

Lemma filter_marked n :
  o ∉ n_observers n →
  filter (λ x, x ≠ o) (n_observers (mark o n)) = n_observers n.
Proof.
  intros Hfresh. cbn. rewrite filter_app, filter_fresh by done.
  rewrite filter_cons, decide_False, filter_nil by (intros Hc; by apply Hc).
  apply app_nil_r.
Qed.

Lemma unmark n :
  set_observers (n_observers n) (mark o n) = n.
Proof. by destruct n. Qed.

Lemma observed_in M ga k :
  observed_upto M ga → k ∈ M → nodes ga !! k = mark o <$> (nodes g0 !! k).
Proof. intros (Hnodes & _) Hk. by rewrite Hnodes, decide_True. Qed.

Lemma observed_out M ga k :
  observed_upto M ga → k ∉ M → nodes ga !! k = nodes g0 !! k.
Proof. intros (Hnodes & _) Hk. by rewrite Hnodes, decide_False. Qed.

Lemma unobserved_in F U gb k :
  unobserved_upto F U gb → k ∈ F → k ∉ U →
  nodes gb !! k = mark o <$> (nodes g0 !! k).
Proof. intros (Hnodes & _) Hk Hk'. by rewrite Hnodes, decide_True. Qed.

Lemma unobserved_out F U gb k :
  unobserved_upto F U gb → k ∈ U → nodes gb !! k = nodes g0 !! k.
Proof.
  intros (Hnodes & _) Hk. rewrite Hnodes, decide_False; [done|]. by intros [_ ?].
Qed.

(** The node the walk of [observeNodes] leaves at [root]. *)
Lemma observed_step M ga root n (rh : Heap.recomputeHeap) :
  observed_upto M ga → nodes g0 !! root = Some n → root ∉ M →
  Heap.wf rh →
  observed_upto (M ++ [root]) (with_heap rh (put_node (mark o n) ga)).
Proof using Hwk.
  intros (Hnodes & Hwf) Hn Hroot Hwf'.
  pose proof (wk_ids _ _ Hwk _ _ Hn) as Hid.
  split.
  - intros k. cbn. rewrite Hid. destruct (decide (k = root)) as [->|Hne].
    + rewrite lookup_insert_eq, decide_True, Hn; [done|].
      apply elem_of_app. right. left.
    + rewrite lookup_insert_ne by done. rewrite Hnodes.
      destruct (decide (k ∈ M)) as [Hk|Hk].
      * rewrite decide_True; [done|]. apply elem_of_app. by left.
      * rewrite decide_False; [done|].
        intros [?| ->%list_elem_of_singleton]%elem_of_app; done.
  - done.
Qed.

(** The node the walk of [unobserveNodes] leaves at [root]. *)
Lemma unobserved_step F U gb root n (rh : Heap.recomputeHeap) :
  unobserved_upto F U gb → nodes g0 !! root = Some n →
  Heap.wf rh →
  unobserved_upto F (U ++ [root]) (with_heap rh (put_node n gb)).
Proof using Hwk.
  intros (Hnodes & Hwf) Hn Hwf'.
  pose proof (wk_ids _ _ Hwk _ _ Hn) as Hid.
  split.
  - intros k. cbn. rewrite Hid. destruct (decide (k = root)) as [->|Hne].
    + rewrite lookup_insert_eq, decide_False, Hn; [done|].
      intros [_ Hc]. apply Hc, elem_of_app. right. left.
    + rewrite lookup_insert_ne by done. rewrite Hnodes.
      destruct (decide (k ∈ F ∧ k ∉ U)) as [[Hk Hk']|Hk].
      * rewrite decide_True; [done|]. split; [done|].
        intros [?| ->%list_elem_of_singleton]%elem_of_app; done.
      * rewrite decide_False; [done|]. intros [? Hc]. apply Hk. split; [done|].
        intros ?. apply Hc, elem_of_app. by left.
  - done.
Qed.

(** The two walks come by the same nodes. *)
Lemma walk_both fuel : ∀ root M ga,
  observed_upto M ga →
  (∃ n, nodes g0 !! root = Some n ∧ n_height n < fuel) →
  ∃ D ga',
    observeNodes fuel o ga root = Some ga' ∧
    observed_upto (M ++ D) ga' ∧ root ∈ M ++ D ∧
    ∀ F gb, unobserved_upto F M gb → (∀ k, k ∈ M ++ D → k ∈ F) →
      ∃ gb', unobserveNodes fuel o gb root = Some gb' ∧
             unobserved_upto F (M ++ D) gb'.
Proof using Hwk.
  induction fuel as [|fuel IH]; intros root M ga Hobs (n & Hn & Hh); [lia|].
  assert (∀ ps M ga, observed_upto M ga →
            (∀ p, p ∈ ps → ∃ pn, nodes g0 !! p = Some pn ∧ n_height pn < fuel) →
            ∃ D ga',
              foldl (λ og p, g' ← og; observeNodes fuel o g' p) (Some ga) ps = Some ga' ∧
              observed_upto (M ++ D) ga' ∧
              ∀ F gb, unobserved_upto F M gb → (∀ k, k ∈ M ++ D → k ∈ F) →
                ∃ gb',
                  foldl (λ og p, g' ← og; unobserveNodes fuel o g' p) (Some gb) ps
                    = Some gb' ∧
                  unobserved_upto F (M ++ D) gb') as Hfold.
  { clear root M ga Hobs n Hn Hh.
    induction ps as [|p ps IHps]; intros M ga Hobs Hps.
    { exists [], ga. rewrite app_nil_r. split_and!; try done.
      intros F gb Hun _. by exists gb. }
    destruct (IH p M ga Hobs) as (D1 & ga1 & Heq1 & Hobs1 & _ & Hun1).
    { apply Hps. left. }
    destruct (IHps (M ++ D1) ga1 Hobs1) as (D2 & ga2 & Heq2 & Hobs2 & Hun2).
    { intros p' Hp'. apply Hps. by right. }
    exists (D1 ++ D2), ga2. rewrite app_assoc. split_and!; try done.
    { cbn [foldl mbind option_bind]. by rewrite Heq1. }
    intros F gb Hun HF.
    destruct (Hun1 F gb Hun) as (gb1 & Hgb1 & Hun1').
    { intros k Hk. apply HF, elem_of_app. by left. }
    destruct (Hun2 F gb1 Hun1' HF) as (gb2 & Hgb2 & Hun2').
    exists gb2. split; [|done]. cbn [foldl mbind option_bind]. by rewrite Hgb1. }
  pose proof (wk_fresh _ _ Hwk _ _ Hn) as Hfresh.
  pose proof (wk_ids _ _ Hwk _ _ Hn) as Hid.
  destruct (decide (root ∈ M)) as [HrM|HrM].
  - (* the walk came by [root] before *)
    exists [], ga. rewrite app_nil_r. split_and!; try done.
    + cbn [observeNodes]. rewrite (observed_in M ga root Hobs HrM), Hn.
      cbn [fmap option_fmap option_map mbind option_bind].
      rewrite bool_decide_eq_true_2; [done|]. cbn. apply elem_of_app. right. left.
    + intros F gb Hun _. exists gb. split; [|done].
      cbn [unobserveNodes]. rewrite (unobserved_out F M gb root Hun HrM), Hn.
      cbn [mbind option_bind]. by rewrite bool_decide_eq_false_2.
  - pose proof (observed_out M ga root Hobs HrM) as Hga. rewrite Hn in Hga.
    destruct (isNecessary n) eqn:Hnec.
    + (* [root] was necessary: the walk stops *)
      exists [root], (put_node (mark o n) ga). split_and!.
      * cbn [observeNodes]. rewrite Hga. cbn [mbind option_bind].
        rewrite bool_decide_eq_false_2 by done. by rewrite Hnec.
      * destruct Hobs as (? & Hwfa).
        by apply (observed_step M ga root n (recomputeHeap ga)).
      * apply elem_of_app. right. left.
      * intros F gb Hun HF.
        assert (root ∈ F) as HrF by (apply HF, elem_of_app; right; left).
        exists (put_node n gb). split.
        -- cbn [unobserveNodes]. rewrite (unobserved_in F M gb root Hun HrF HrM), Hn.
           cbn [fmap option_fmap option_map mbind option_bind].
           rewrite bool_decide_eq_true_2 by (cbn; apply elem_of_app; right; left).
           rewrite (filter_marked n Hfresh), unmark.
           rewrite bool_decide_eq_false_2; [done|].
           unfold isNecessary in Hnec. by apply bool_decide_eq_true_1 in Hnec.
        -- destruct Hun as (? & Hwfb).
           by apply (unobserved_step F M gb root n (recomputeHeap gb)).
    + (* [root] becomes necessary: the walk goes on into its parents *)
      assert (n_observers n = []) as Hnil.
      { unfold isNecessary in Hnec. apply bool_decide_eq_false_1 in Hnec.
        destruct (n_observers n); [done|]. by destruct Hnec. }
      destruct Hobs as (Hnodes & Hwfa).
      destruct (Add_one (view n) (recomputeHeap ga) Hwfa) as (rh & Hadd & Hwf' & _).
      set (ga1 := with_heap rh (put_node (mark o n) ga)).
      assert (observed_upto (M ++ [root]) ga1) as Hobs1.
      { by apply (observed_step M ga root n rh). }
      destruct (Hfold (n_parents n) (M ++ [root]) ga1 Hobs1)
        as (D & ga' & Heq & Hobs' & Hun').
      { intros p Hp. destruct (wk_parents _ _ Hwk _ _ _ Hn Hp) as (pn & Hpn & Hlt).
        exists pn. split; [done|]. lia. }
      exists (root :: D), ga'.
      replace (M ++ root :: D) with ((M ++ [root]) ++ D) by (by rewrite <- app_assoc).
      split_and!; try done.
      * cbn [observeNodes]. rewrite Hga. cbn [mbind option_bind].
        rewrite bool_decide_eq_false_2 by done. rewrite Hnec.
        change (recomputeHeap (put_node _ ga)) with (recomputeHeap ga).
        rewrite Hadd. cbn [mbind option_bind]. exact Heq.
      * apply elem_of_app. left. apply elem_of_app. right. left.
      * intros F gb Hun HF.
        assert (root ∈ F) as HrF.
        { apply HF, elem_of_app. left. apply elem_of_app. right. left. }
        pose proof (unobserved_in F M gb root Hun HrF HrM) as Hgb. rewrite Hn in Hgb.
        destruct Hun as (Hnodesb & Hwfb).
        destruct (Remove_spec (view n) (recomputeHeap gb) Hwfb)
          as (okb & rhb & Hrem & Hwfb' & _).
        set (gb1 := with_heap rhb (put_node n gb)).
        assert (unobserved_upto F (M ++ [root]) gb1) as Hun1.
        { by apply (unobserved_step F M gb root n rhb). }
        destruct (Hun' F gb1 Hun1 HF) as (gb' & Hgb' & Hunb').
        exists gb'. split; [|done].
        cbn [unobserveNodes]. rewrite Hgb.
        cbn [fmap option_fmap option_map mbind option_bind].
        rewrite bool_decide_eq_true_2 by (cbn; apply elem_of_app; right; left).
        rewrite (filter_marked n Hfresh), unmark, Hnil.
        rewrite bool_decide_eq_true_2 by done.
        change (recomputeHeap (put_node n gb)) with (recomputeHeap gb).
        change (view (mark o n)) with (view n).
        rewrite Hrem. cbn [mbind option_bind]. exact Hgb'.
Qed.

End walk.

(** X15: observing a node and then unobserving it, with the walks of
    section 4.3: both calls return, the first makes the node necessary,
    and after the second the observers, hence the necessity, of every
    node of the graph are what they were before the first; the released
    observer is left without input and its [Value()] is the zero
    value. *)
Theorem Observe_Unobserve g input :
  links_ok g → is_Some (nodes g !! input) →
  ∃ o g1 g2,
    Observe input g = Some (o, g1) ∧
    (∃ n1, nodes g1 !! input = Some n1 ∧ isNecessary n1 = true) ∧
    Unobserve o g1 = Some g2 ∧
    n_parents <$> (nodes g2 !! o) = Some [] ∧
    Value g2 o = inhabitant ∧
    ∀ k n, nodes g !! k = Some n →
      ∃ n2, nodes g2 !! k = Some n2 ∧ n_observers n2 = n_observers n ∧
            isNecessary n2 = isNecessary n.
Proof.
  intros [Hwf Hids Hpar Hfresh] [inp Hinp].
  remember (nextId g) as o eqn:Ho.
  set (on := mkNode o (height_above g [input]) [input] [] [] 0 0 0 0 0 KObserver [] []).
  set (inp' := set_children (n_children inp ++ [o]) inp).
  destruct (Hfresh _ _ Hinp) as [Hlt Hobsfresh].
  assert (input ≠ o) as Hneo by lia.
  pose proof (Hids _ _ Hinp) as Hidinp.
  assert (height_above g [input] = S (n_height inp)) as Hheight.
  { unfold height_above. cbn. rewrite Hinp. lia. }
  set (gA := put_node inp' (with_nextId (S o) (put_node on g))).
  assert (newNode KObserver [input] g = (o, gA)) as HnewNode.
  { unfold newNode. rewrite <- Ho. fold on. cbn [foldl]. f_equal. unfold link_child.
    cbn [nodes with_nextId put_node with_nodes]. change (n_id on) with o.
    rewrite lookup_insert_ne by lia. by rewrite Hinp. }
  set (gB := with_observers (observers gA ++ [o]) gA).
  destruct (Add_one (view on) (recomputeHeap gB) Hwf) as (rh & Hadd & Hwfrh & _ & _).
  set (g0 := with_heap rh gB).
  assert (∀ k, nodes g0 !! k =
               if decide (k = input) then Some inp'
               else if decide (k = o) then Some on else nodes g !! k) as Hg0.
  { intros k. cbn. rewrite Hidinp. destruct (decide (k = input)) as [->|?].
    { by rewrite lookup_insert_eq. }
    rewrite lookup_insert_ne by (done || lia). destruct (decide (k = o)) as [->|?].
    { by rewrite lookup_insert_eq. }
    by rewrite lookup_insert_ne. }
  assert (nodes gB !! o = Some on) as HgBo.
  { change (nodes gB) with (nodes g0). rewrite Hg0.
    rewrite decide_False by done. by rewrite decide_True. }
  assert (walk_ok o g0) as Hwk.
  { split.
    - intros k n Hk. rewrite Hg0 in Hk.
      destruct (decide (k = input)) as [->|?]; [by injection Hk as <-|].
      destruct (decide (k = o)) as [->|?]; [by injection Hk as <-|].
      by apply Hids.
    - intros k n p Hk Hp. rewrite Hg0 in Hk.
      assert (∀ m pn, nodes g !! m = Some pn →
                ∃ pn', nodes g0 !! m = Some pn' ∧ n_height pn' = n_height pn) as Hsame.
      { intros m pn Hm. rewrite Hg0.
        destruct (decide (m = input)) as [->|?].
        { exists inp'. split; [done|]. rewrite Hinp in Hm. by injection Hm as <-. }
        destruct (decide (m = o)) as [->|?].
        { destruct (Hfresh _ _ Hm) as [? _]. lia. }
        by exists pn. }
      destruct (decide (k = input)) as [->|?].
      { injection Hk as <-. destruct (Hpar _ _ _ Hinp Hp) as (pn & Hpn & Hlt').
        destruct (Hsame _ _ Hpn) as (pn' & Hpn' & Hh). exists pn'.
        split; [done|]. cbn. lia. }
      destruct (decide (k = o)) as [->|?].
      { injection Hk as <-. cbn in Hp. apply list_elem_of_singleton in Hp as ->.
        destruct (Hsame _ _ Hinp) as (pn' & Hpn' & Hh). exists pn'.
        split; [done|]. change (n_height on) with (height_above g [input]). lia. }
      destruct (Hpar _ _ _ Hk Hp) as (pn & Hpn & Hlt').
      destruct (Hsame _ _ Hpn) as (pn' & Hpn' & Hh). exists pn'.
      split; [done|]. lia.
    - intros k n Hk Hc. rewrite Hg0 in Hk.
      destruct (decide (k = input)) as [->|?].
      { injection Hk as <-. cbn in Hc. apply Hobsfresh in Hc. lia. }
      destruct (decide (k = o)) as [->|?].
      { injection Hk as <-. cbn in Hc. by apply not_elem_of_nil in Hc. }
      destruct (Hfresh _ _ Hk) as [_ Hf]. apply Hf in Hc. lia. }
  assert (observed_upto o g0 [] g0) as Hobs0.
  { split; [|done].
    intros k. rewrite decide_False; [done|apply not_elem_of_nil]. }
  destruct (walk_both o g0 Hwk (S (n_height inp)) input [] g0 Hobs0)
    as (D & g1 & Hwalk & Hobs1 & HinD & Hun).
  { exists inp'. rewrite Hg0, decide_True by done. split; [done|]. cbn. lia. }
  cbn [app] in Hobs1, HinD, Hun.
  assert (nodes g1 !! input = Some (mark o inp')) as Hg1inp.
  { rewrite (observed_in o g0 D g1 input Hobs1 HinD), Hg0.
    by rewrite decide_True. }
  assert (∃ on1, nodes g1 !! o = Some on1 ∧ n_parents on1 = [input]) as (on1 & Hon1 & Hpar1).
  { destruct Hobs1 as (Hnodes1 & _). rewrite Hnodes1, Hg0.
    rewrite (decide_False (P := o = input)) by lia.
    rewrite (decide_True (P := o = o)) by done.
    destruct (decide (o ∈ D)); by eexists. }
  assert (unobserved_upto o g0 D [] g1) as Hun0.
  { destruct Hobs1 as (Hnodes1 & Hwf1). split; [|done].
    intros k. rewrite Hnodes1. destruct (decide (k ∈ D)) as [Hk|Hk].
    + rewrite decide_True; [done|]. split; [done|apply not_elem_of_nil].
    + rewrite decide_False; [done|]. by intros [? _]. }
  destruct (Hun D g1 Hun0) as (gb & Hgb & (Hnodesb & Hwfb)); [done|].
  assert (∀ k, nodes gb !! k = nodes g0 !! k) as Hgbk.
  { intros k. rewrite Hnodesb, decide_False; [done|]. by intros [? ?]. }
  set (inpU := set_children (filter (λ x, x ≠ o) (n_children inp')) inp').
  set (gU := put_node inpU
               (with_observers (filter (λ x, x ≠ o) (observers gb)) gb)).
  exists o, g1, (put_node (set_children [] (set_parents [] on)) gU).
  split_and!.
  - unfold Observe. rewrite Hinp. cbn [mbind option_bind]. rewrite HnewNode.
    fold gB. rewrite HgBo. cbn [mbind option_bind]. rewrite Hadd.
    cbn [mbind option_bind]. fold g0. rewrite Hwalk. done.
  - exists (mark o inp'). split; [done|]. unfold isNecessary.
    apply bool_decide_eq_true_2. cbn. by destruct (n_observers inp).
  - unfold Unobserve. rewrite Hon1. cbn [mbind option_bind]. rewrite Hpar1.
    rewrite Hg1inp. cbn [mbind option_bind].
    change (n_height (mark o inp')) with (n_height inp). rewrite Hgb.
    cbn [mbind option_bind foldl].
    assert (Unlink o
              (with_observers (filter (λ x, x ≠ o) (observers gb)) gb)
              input = gU) as ->.
    { unfold Unlink. cbn [nodes with_observers]. rewrite Hgbk, Hg0.
      by rewrite decide_True. }
    assert (nodes gU !! o = Some on) as ->.
    { cbn. rewrite Hidinp, lookup_insert_ne by (done || lia). rewrite Hgbk, Hg0.
      rewrite decide_False by done. by rewrite decide_True. }
    done.
  - cbn. by rewrite lookup_insert_eq.
  - unfold Value. cbn. by rewrite lookup_insert_eq.
  - intros k n Hk. destruct (Hfresh _ _ Hk) as [Hko _].
    assert (k ≠ o) as Hne by lia.
    cbn. rewrite lookup_insert_ne by (done || lia). rewrite Hidinp.
    destruct (decide (k = input)) as [->|Hki].
    + rewrite lookup_insert_eq. rewrite Hinp in Hk. injection Hk as <-.
      by exists inpU.
    + rewrite lookup_insert_ne by (done || lia). rewrite Hgbk, Hg0.
      rewrite decide_False by done. rewrite decide_False by done.
      by exists n.
Qed.

End graph_facts.

(** * The graphs of the tests *)

Section graph_examples.
Import Heap Graph GraphEx.

(** C2: within one stabilization pass no node has its [Stabilize] called
    twice, whatever paths lead to it, and a pass given more turns than
    the graph has nodes returns; in the diamond [a -> b -> c -> d -> z],
    [a -> f -> e -> z], [z.numRecomputes] is 1 after the initial
    stabilization and exactly 2 after [a.Set] and one more. *)
Theorem Stabilize_at_most_once {V : Type} `{!Inhabited V}
    (fn : Identifier → list V → StabResult V) (g : Graph) (fuel : nat) :
  graph_ok g → queue_ok g → size (nodes g) < fuel →
  (∃ g' r L,
     Stabilize fn fuel g = Some (g', r) ∧
     stab_ids (events g') = stab_ids (events g) ++ L ∧ NoDup L) ∧
  (∀ fuel' g' r,
     Stabilize fn fuel' g = Some (g', r) →
     ∃ L, stab_ids (events g') = stab_ids (events g) ++ L ∧ NoDup L) ∧
  (Stabilize fnD 16 diamond = Some (diamond_once, None) ∧
   n_numRecomputes <$> (nodes diamond_once !! 6) = Some 1 ∧
   Value diamond_once 6 = "a->b->c->d+a->f->e->z"%string ∧
   Var_Set 0 "!a"%string diamond_once = Some diamond_set ∧
   Stabilize fnD 16 diamond_set = Some (diamond_twice, None) ∧
   n_numRecomputes <$> (nodes diamond_twice !! 6) = Some 2 ∧
   Value diamond_twice 6 = "!a->b->c->d+!a->f->e->z"%string ∧
   stab_ids (events diamond_twice) =
     stab_ids (events diamond_once) ++ [0; 1; 4; 2; 5; 3; 6]).
Proof.
  intros Hok Hq Hsz. split_and!.
  - destruct (Stabilize_total fn g fuel Hok Hq Hsz) as [[g' r] Heq].
    destruct (Stabilize_once fn g fuel g' r Hok Heq) as (L & HL & Hnd).
    by exists g', r, L.
  - intros fuel' g' r Heq. by apply (Stabilize_once fn g fuel' g' r).
  - by vm_compute.
  - by vm_compute.
  - by vm_compute.
  - by vm_compute.
  - by vm_compute.
  - by vm_compute.
  - by vm_compute.
  - by vm_compute.
Qed.

Lemma Stabilize_at_most_once_witness :
  graph_ok diamond ∧ queue_ok diamond ∧ size (nodes diamond) < 16 ∧
  ∃ g' r L,
    Stabilize fnD 16 diamond = Some (g', r) ∧
    stab_ids (events g') = stab_ids (events diamond) ++ L ∧ NoDup L.
Proof.
  destruct (graph_okb_sound diamond) as [Hok Hq]; [by vm_compute|].
  assert (size (nodes diamond) < 16) as Hsz by (vm_compute; lia).
  split; [exact Hok|]. split; [exact Hq|]. split; [exact Hsz|].
  exact (proj1 (Stabilize_at_most_once fnD diamond 16 Hok Hq Hsz)).
Defined.

(** The second of two calls of [Stabilize], made while the first has
    started on the diamond. *)
Lemma Stabilize_already_stabilizing_witness :
  in_pass fnD (stabilizeStart diamond) ∧
  Stabilize fnD 16 (stabilizeStart diamond)
    = Some (stabilizeStart diamond, Some ErrAlreadyStabilizing).
Proof.
  assert (in_pass fnD (stabilizeStart diamond)) as Hin.
  { apply in_pass_start. by vm_compute. }
  split; [exact Hin|].
  exact (Stabilize_already_stabilizing fnD (stabilizeStart diamond) 16 Hin).
Defined.


Lemma Var_Set_during_stabilization_witness :
  graph_ok setting_mid ∧ queue_ok setting_mid ∧ in_pass fnS setting_mid ∧
  n_kind <$> (nodes setting_mid !! 0) = Some KInput ∧
  ∃ g1, Var_Set 0 "not-foo"%string setting_mid = Some g1 ∧ in_pass fnS g1 ∧
    Value g1 0 = Value setting_mid 0 ∧
    ∀ k g2, turns fnS k g1 g2 →
      Value g2 0 = Value setting_mid 0 ∧
      (Heap.Len (recomputeHeap g2) = 0 →
       ∀ fuel, ∃ g3 n3,
         stabilize_loop fnS (k + fuel) g1 = Some (g3, None) ∧
         stabilizing g3 = false ∧
         Value g3 0 = "not-foo"%string ∧
         nodes g3 !! 0 = Some n3 ∧
         n_setAt n3 = stabilizationNum setting_mid + 1 ∧
         Heap.Has (view n3) (recomputeHeap g3) = true).
Proof.
  destruct (graph_okb_sound setting_mid) as [Hok Hq]; [by vm_compute|].
  assert (in_pass fnS setting_mid) as Hin.
  { apply (in_pass_turn fnS (stabilizeStart setting) setting_mid).
    - apply in_pass_start. by vm_compute.
    - vm_compute. lia.
    - by vm_compute. }
  assert (n_kind <$> (nodes setting_mid !! 0) = Some KInput) as Hk.
  { vm_compute. reflexivity. }
  split; [exact Hok|]. split; [exact Hq|]. split; [exact Hin|]. split; [exact Hk|].
  exact (Var_Set_during_stabilization fnS setting_mid 0 "not-foo"%string Hok Hq Hin Hk).
Defined.

Lemma Observe_Unobserve_witness :
  links_ok pair ∧ is_Some (nodes pair !! 3) ∧
  ∃ o g1 g2,
    Observe 3 pair = Some (o, g1) ∧
    (∃ n1, nodes g1 !! 3 = Some n1 ∧ isNecessary n1 = true) ∧
    Unobserve o g1 = Some g2 ∧
    n_parents <$> (nodes g2 !! o) = Some [] ∧
    Value g2 o = inhabitant ∧
    ∀ k n, nodes pair !! k = Some n →
      ∃ n2, nodes g2 !! k = Some n2 ∧ n_observers n2 = n_observers n ∧
            isNecessary n2 = isNecessary n.
Proof.
  assert (links_ok pair) as Hok by (apply links_okb_sound; by vm_compute).
  assert (is_Some (nodes pair !! 3)) as Hin by (vm_compute; by eexists).
  split; [exact Hok|]. split; [exact Hin|].
  exact (Observe_Unobserve pair 3 Hok Hin).
Defined.

End graph_examples.


(** * More of the recompute heap *)

Section heap_more.
Import Heap.

Implicit Types (rh : recomputeHeap) (n s : INode) (it : listItem).

Lemma item_of_eq rh k it :
  wf rh → recorded rh → lookup rh !! k = Some it → it = item_of (node (value it)).
Proof.
  intros Hwf Hrec Hit. destruct (wf_lookup _ Hwf _ _ Hit) as (Hk & Hid & _).
  specialize (Hrec _ _ Hit). destruct it as [k' [nd h]]. unfold item_of.
  cbn in *. by rewrite Hid, Hk, Hrec.
Qed.

Lemma addUnsafe_lookup ns rh rh' :
  wf rh → addUnsafe ns rh = Some rh' →
  ∀ k it, lookup rh' !! k = Some it →
    lookup rh !! k = Some it ∨ ∃ n, n ∈ ns ∧ id n = k ∧ it = item_of n.
Proof.
  revert rh. induction ns as [|n ns IH]; intros rh Hwf Heq k it Hit.
  { injection Heq as <-. by left. }
  cbn [addUnsafe] in Heq.
  destruct (addUnsafe1_spec n rh Hwf) as (rh1 & Heq1 & Hwf1 & Hlk1 & _).
  rewrite Heq1 in Heq. cbn [mbind option_bind] in Heq.
  destruct (IH rh1 Hwf1 Heq k it Hit) as [Hold|(m & Hm & Hid & ->)].
  - rewrite Hlk1 in Hold. destruct (decide (id n = k)) as [<-|Hne].
    + rewrite lookup_insert_eq in Hold. injection Hold as <-.
      right. exists n. split_and!; try done. left.
    + rewrite lookup_insert_ne in Hold by done. by left.
  - right. exists m. split_and!; try done. by right.
Qed.

(** [RemoveMin] on a well-formed heap: nothing to take, or the head of
    the list at [minHeight]. *)
Lemma RemoveMin_cases rh :
  wf rh →
  (bucket rh (minHeight rh) = [] ∧ RemoveMin rh = Some (None, rh)) ∨
  ∃ it tl rh',
    bucket rh (minHeight rh) = it :: tl ∧
    RemoveMin rh = Some (Some (node (value it)), rh') ∧
    lookup rh !! key it = Some it ∧ item_height (value it) = minHeight rh ∧
    wf rh' ∧ (min_ok rh → min_ok rh') ∧
    lookup rh' = delete (key it) (lookup rh) ∧
    (∀ h, bucket rh' h = filter (λ x, key x ≠ key it) (bucket rh h)) ∧
    bucket rh' (minHeight rh) = tl ∧
    maxHeight rh' = maxHeight rh.
Proof.
  intros Hwf. destruct (bucket rh (minHeight rh)) as [|it tl] eqn:Hb.
  { left. split; [done|]. apply RemoveMin_empty_bucket; [|done].
    apply (wf_min_index _ Hwf). }
  right.
  assert (it ∈ bucket rh (minHeight rh)) as Hin by (rewrite Hb; left).
  destruct (wf_bucket _ Hwf _ _ Hin) as [Hit Hh].
  destruct (removeItemUnsafe_wf rh (key it) it Hwf Hit)
    as (rh' & Hrm & Hwf' & Hlk & _ & Hbk & Hmax & _ & _ & Hok').
  exists it, tl, rh'. rewrite (RemoveMin_cons rh it tl) by done. rewrite Hrm.
  split_and!; try done.
  rewrite Hbk, Hb. rewrite filter_cons_False by (intros Hc; by apply Hc).
  apply filter_keys_id. intros x Hx Hk.
  pose proof (wf_nodup _ Hwf (minHeight rh)) as Hnd.
  rewrite Hb, fmap_cons in Hnd. apply NoDup_cons in Hnd as [Hnd _].
  apply Hnd. rewrite <- Hk. apply list_elem_of_fmap. by exists x.
Qed.

Lemma built_ok rh : built rh → wf rh ∧ min_ok rh ∧ recorded rh.
Proof.
  induction 1 as [n Hn|ns rh rh' _ (Hwf & Hmin & Hrec) Heq
                  |s rh ok rh' _ (Hwf & Hmin & Hrec) Heq
                  |rh r rh' _ (Hwf & Hmin & Hrec) Heq
                  |rh ns rh' _ (Hwf & Hmin & Hrec) Heq].
  - split_and!; [by apply newRecomputeHeap_wf|apply newRecomputeHeap_min_ok|].
    intros k it. cbn. by rewrite lookup_empty.
  - destruct (addUnsafe_spec ns rh Hwf) as (rh'' & Heq' & Hwf' & Hok').
    unfold Add in Heq. rewrite Heq in Heq'. injection Heq' as <-.
    split_and!; [done|by apply Hok'|]. intros k it Hit.
    destruct (addUnsafe_lookup ns rh rh' Hwf Heq k it Hit) as [Hold|(m & _ & _ & ->)].
    + by apply (Hrec k).
    + done.
  - destruct (Remove_spec s rh Hwf) as (ok' & rh'' & Heq' & Hwf' & Hok' & _ & Hlk).
    rewrite Heq in Heq'. injection Heq' as <- <-.
    split_and!; [done|by apply Hok'|]. intros k it. rewrite Hlk.
    intros [_ Hit]%lookup_delete_Some. by apply (Hrec k).
  - destruct (RemoveMin_wf rh r rh' Hwf Heq) as [Hwf' Hok'].
    split_and!; [done|by apply Hok'|].
    destruct (RemoveMin_cases rh Hwf)
      as [[_ Heq']|(it & tl & rh'' & _ & Heq' & _ & _ & _ & _ & Hlk & _)];
      rewrite Heq in Heq'; simplify_eq; [done|].
    intros k x. rewrite Hlk. intros [_ Hx]%lookup_delete_Some. by apply (Hrec k).
  - destruct (RemoveMinHeight_spec rh Hwf) as (ns' & rh'' & Heq' & Hwf' & Hok' & _ & Hlk).
    rewrite Heq in Heq'. injection Heq' as <- <-.
    split_and!; [done|by apply Hok'|]. intros k x. rewrite Hlk.
    destruct (decide _); [done|]. by apply (Hrec k).
Qed.

Lemma three_nodes_built : built three_nodes.
Proof.
  apply (built_Add [mkINode 1 1; mkINode 2 3; mkINode 3 1] (newRecomputeHeap 4)).
  - apply built_new. lia.
  - vm_compute. reflexivity.
Qed.

(** X1: on a heap built from [newRecomputeHeap] (with room for a height)
    by the exported operations, [Fix] included, no exported operation
    panics, and the lookup and the height lists agree: an item is in the
    list of a height exactly when the lookup holds it under its key and
    it records that height. *)
Theorem exported_operations_return rh :
  reachable rh →
  (∀ ns, ∃ rh', Add ns rh = Some rh' ∧ reachable rh') ∧
  (∀ cur ids, ∃ rh', Fix cur ids rh = Some rh' ∧ reachable rh') ∧
  (∀ s, ∃ ok rh', Remove s rh = Some (ok, rh') ∧ reachable rh') ∧
  (∃ r rh', RemoveMin rh = Some (r, rh') ∧ reachable rh') ∧
  (∃ ns rh', RemoveMinHeight rh = Some (ns, rh') ∧ reachable rh') ∧
  (∀ h it, it ∈ bucket rh h ↔
           lookup rh !! key it = Some it ∧ item_height (value it) = h).
Proof.
  intros Hr. destruct (reachable_no_panic rh Hr) as (HA & HF & HR & HM & HH).
  pose proof (reachable_wf rh Hr) as Hwf. split_and!.
  - intros ns. destruct (HA ns) as [rh' Heq]. exists rh'. split; [done|].
    by apply (reach_Add ns rh).
  - intros cur ids. destruct (HF cur ids) as [rh' Heq]. exists rh'. split; [done|].
    by apply (reach_Fix cur ids rh).
  - intros s. destruct (HR s) as [[ok rh'] Heq]. exists ok, rh'. split; [done|].
    by apply (reach_Remove s rh ok).
  - destruct HM as [[r rh'] Heq]. exists r, rh'. split; [done|].
    by apply (reach_RemoveMin rh r).
  - destruct HH as [[ns rh'] Heq]. exists ns, rh'. split; [done|].
    by apply (reach_RemoveMinHeight rh ns).
  - intros h it. split.
    + apply (wf_bucket _ Hwf).
    + intros [Hit <-]. by destruct (wf_lookup _ Hwf _ _ Hit) as (_ & _ & ?).
Qed.

(** X2: on a heap built without [Fix] that is not empty, [RemoveMin]
    returns the head of the list at [minHeight]: a node of the heap whose
    height is at most that of every node of the heap, and the first added
    among those of its height.  That node is taken out ([Has] is false,
    [Len] is one less), the others stay. *)
Theorem RemoveMin_returns_lowest rh :
  built rh → Len rh ≠ 0 →
  ∃ n tl rh',
    RemoveMin rh = Some (Some n, rh') ∧ built rh' ∧
    height n = minHeight rh ∧
    bucket rh (height n) = item_of n :: tl ∧ bucket rh' (height n) = tl ∧
    Has n rh = true ∧ Has n rh' = false ∧ S (Len rh') = Len rh ∧
    (∀ k it, lookup rh !! k = Some it → height n ≤ item_height (value it)) ∧
    (∀ k, k ≠ id n → lookup rh' !! k = lookup rh !! k).
Proof.
  intros Hb Hlen. destruct (built_ok rh Hb) as (Hwf & Hmin & Hrec).
  destruct (RemoveMin_cases rh Hwf)
    as [[Hnil _]|(it & tl & rh' & Hbk & Heq & Hit & Hh & Hwf' & _ & Hlk & _ & Htl & _)].
  { unfold min_ok in Hmin. by rewrite decide_False in Hmin. }
  pose proof (item_of_eq rh _ it Hwf Hrec Hit) as Hitem.
  destruct (wf_lookup _ Hwf _ _ Hit) as (_ & Hid & _).
  pose proof (Hrec _ _ Hit) as Hhn.
  exists (node (value it)), tl, rh'. split_and!.
  - done.
  - by apply (built_RemoveMin rh (Some (node (value it)))).
  - by rewrite Hhn.
  - by rewrite Hhn, Hh, Hbk, <- Hitem.
  - by rewrite Hhn, Hh.
  - unfold Has. apply bool_decide_eq_true_2. rewrite Hid. by eexists.
  - unfold Has. apply bool_decide_eq_false_2. rewrite Hlk, Hid, lookup_delete_eq.
    by intros [? ?].
  - unfold Len. rewrite Hlk. rewrite map_size_delete, Hit.
    unfold Len in Hlen. destruct (size (lookup rh)); [done|]. cbn. lia.
  - intros k x Hx. rewrite Hhn, Hh.
    destruct (wf_lookup _ Hwf _ _ Hx) as (_ & _ & Hxin).
    apply (wf_range _ Hwf). intros E. rewrite E in Hxin.
    by apply not_elem_of_nil in Hxin.
  - intros k Hk. rewrite Hid in Hk. rewrite Hlk. by rewrite lookup_delete_ne.
Qed.

Lemma RemoveMin_returns_lowest_aux rh :
  built rh → Len rh ≠ 0 →
  ∃ n rh',
    RemoveMin rh = Some (Some n, rh') ∧ built rh' ∧
    lookup rh !! id n = Some (item_of n) ∧ S (Len rh') = Len rh ∧
    (∀ k it, lookup rh !! k = Some it → height n ≤ item_height (value it)) ∧
    lookup rh' = delete (id n) (lookup rh).
Proof.
  intros Hb Hlen. destruct (built_ok rh Hb) as (Hwf & Hmin & Hrec).
  destruct (RemoveMin_cases rh Hwf)
    as [[Hnil _]|(it & tl & rh' & Hbk & Heq & Hit & Hh & Hwf' & _ & Hlk & _ & Htl & _)].
  { unfold min_ok in Hmin. by rewrite decide_False in Hmin. }
  pose proof (item_of_eq rh _ it Hwf Hrec Hit) as Hitem.
  destruct (wf_lookup _ Hwf _ _ Hit) as (_ & Hid & _).
  pose proof (Hrec _ _ Hit) as Hhn.
  exists (node (value it)), rh'. split_and!.
  - done.
  - by apply (built_RemoveMin rh (Some (node (value it)))).
  - by rewrite Hid, Hit, <- Hitem.
  - unfold Len. rewrite Hlk. rewrite map_size_delete, Hit.
    unfold Len in Hlen. destruct (size (lookup rh)); [done|]. cbn. lia.
  - intros k x Hx. rewrite Hhn, Hh.
    destruct (wf_lookup _ Hwf _ _ Hx) as (_ & _ & Hxin).
    apply (wf_range _ Hwf). intros E. rewrite E in Hxin.
    by apply not_elem_of_nil in Hxin.
  - by rewrite Hid.
Qed.

Lemma drain_spec k : ∀ rh,
  built rh → Len rh = k →
  ∃ ns, drain k rh = Some ns ∧ length ns = k ∧
    NoDup (id <$> ns) ∧
    (∀ a, a ∈ ns ↔ lookup rh !! id a = Some (item_of a)) ∧
    (∀ i j a b, i ≤ j → ns !! i = Some a → ns !! j = Some b →
       height a ≤ height b).
Proof.
  induction k as [|k IH]; intros rh Hb Hlen.
  { exists []. destruct (built_ok rh Hb) as (Hwf & _).
    cbn [drain]. rewrite decide_True by done. split_and!; try done.
    - constructor.
    - intros a. split; [by intros ?%not_elem_of_nil|]. intros Ha.
      unfold Len in Hlen. apply map_size_empty_inv in Hlen. rewrite Hlen in Ha.
      by rewrite lookup_empty in Ha. }
  destruct (built_ok rh Hb) as (Hwf & Hmin & Hrec).
  destruct (RemoveMin_returns_lowest_aux rh Hb) as
    (n & rh' & Heq & Hb' & Hn & Hlen' & Hlow & Hlk); [lia|].
  destruct (IH rh' Hb') as (ns & Hdr & Hlenns & Hnd & Hmem & Hsort); [lia|].
  exists (n :: ns). cbn [drain]. rewrite decide_False by lia.
  rewrite Heq. cbn [mbind option_bind]. rewrite Hdr. cbn [mbind option_bind].
  assert (∀ a, a ∈ ns → id a ≠ id n ∧ lookup rh !! id a = Some (item_of a)) as Hrest.
  { intros a Ha. apply Hmem in Ha. rewrite Hlk in Ha.
    by apply lookup_delete_Some in Ha as [? ?]. }
  split_and!.
  - done.
  - cbn. lia.
  - rewrite fmap_cons. apply NoDup_cons. split; [|done].
    intros [a [Hid Ha]]%list_elem_of_fmap. destruct (Hrest a Ha) as [Hne _].
    by apply Hne.
  - intros a. rewrite elem_of_cons. split.
    + intros [->|Ha]; [done|]. by destruct (Hrest a Ha).
    + intros Ha. destruct (decide (id a = id n)) as [Hid|Hne].
      * left. rewrite Hid, Hn in Ha. injection Ha as Ha. unfold item_of in Ha.
        destruct a, n. cbn in *. by simplify_eq.
      * right. apply Hmem. rewrite Hlk. by rewrite lookup_delete_ne.
  - intros i j a b Hij Ha Hb2. destruct i as [|i], j as [|j]; cbn in Ha, Hb2.
    + by simplify_eq.
    + injection Ha as <-. apply list_elem_of_lookup_2 in Hb2.
      destruct (Hrest b Hb2) as [_ Hbit]. by apply (Hlow _ _ Hbit).
    + lia.
    + apply (Hsort i j); [lia|done|done].
Qed.

(** X3: the loop that calls [RemoveMin] until the heap is empty, on a heap
    built without [Fix]: it ends after [Len] turns without meeting a nil
    node, returns every node of the heap exactly once, and returns them
    in non-decreasing order of the heights they were added with. *)
Theorem drain_returns_sorted rh :
  built rh →
  ∃ ns, drain (Len rh) rh = Some ns ∧ length ns = Len rh ∧
    NoDup (id <$> ns) ∧
    (∀ a, a ∈ ns ↔ lookup rh !! id a = Some (item_of a)) ∧
    (∀ i j a b, i ≤ j → ns !! i = Some a → ns !! j = Some b →
       height a ≤ height b).
Proof. intros Hb. by apply drain_spec. Qed.

(** X4: [Remove] of a node the heap does not hold returns false and
    leaves the heap as it is; [Remove] of a node it holds returns true,
    takes that node out ([Has] is false, [Len] is one less) and keeps the
    other nodes, in their lists and in their order. *)
Theorem Remove_absent_or_present rh s :
  wf rh →
  (lookup rh !! id s = None → Remove s rh = Some (false, rh)) ∧
  (is_Some (lookup rh !! id s) →
   ∃ rh', Remove s rh = Some (true, rh') ∧ wf rh' ∧
     Has s rh' = false ∧ S (Len rh') = Len rh ∧
     (∀ k, k ≠ id s → lookup rh' !! k = lookup rh !! k) ∧
     (∀ h, bucket rh' h = filter (λ x, key x ≠ id s) (bucket rh h))).
Proof.
  intros Hwf. split.
  { intros Hnone. unfold Remove. by rewrite Hnone. }
  intros [it Hit]. unfold Remove. rewrite Hit.
  destruct (removeItemUnsafe_wf rh (id s) it Hwf Hit)
    as (rh' & -> & Hwf' & Hlk & _ & Hbk & _).
  exists rh'. cbn. split_and!.
  - done.
  - done.
  - unfold Has. apply bool_decide_eq_false_2. rewrite Hlk, lookup_delete_eq.
    by intros [? ?].
  - unfold Len. rewrite Hlk, map_size_delete, Hit.
    assert (size (lookup rh) ≠ 0) as Hsz.
    { apply map_size_ne_0_lookup_2 with (id s). by eexists. }
    destruct (size (lookup rh)); [done|]. cbn. lia.
  - intros k Hk. rewrite Hlk. by rewrite lookup_delete_ne.
  - done.
Qed.

Lemma Remove_absent_or_present_witness :
  wf three_nodes ∧
  (lookup three_nodes !! 7 = None →
   Remove (mkINode 7 0) three_nodes = Some (false, three_nodes)) ∧
  (is_Some (lookup three_nodes !! 3) →
   ∃ rh', Remove (mkINode 3 1) three_nodes = Some (true, rh') ∧ wf rh' ∧
     Has (mkINode 3 1) rh' = false ∧ S (Len rh') = Len three_nodes ∧
     (∀ k, k ≠ 3 → lookup rh' !! k = lookup three_nodes !! k) ∧
     (∀ h, bucket rh' h = filter (λ x, key x ≠ 3) (bucket three_nodes h))).
Proof.
  assert (wf three_nodes) as Hwf by (apply wfb_sound; vm_compute; reflexivity).
  split; [exact Hwf|]. split.
  - exact (proj1 (Remove_absent_or_present three_nodes (mkINode 7 0) Hwf)).
  - exact (proj2 (Remove_absent_or_present three_nodes (mkINode 3 1) Hwf)).
Defined.

(** Two well-formed heaps with the same lists and a [minHeight] that
    points at nodes have the same [minHeight]. *)
Lemma min_ok_same_buckets rh rh2 :
  wf rh → wf rh2 → min_ok rh → min_ok rh2 →
  lookup rh2 = lookup rh → (∀ h, bucket rh2 h = bucket rh h) →
  minHeight rh2 = minHeight rh.
Proof.
  intros Hwf Hwf2 Hmin Hmin2 Hlk Hbk. unfold min_ok in *. rewrite Hlk in Hmin2.
  destruct (decide (size (lookup rh) = 0)); [congruence|].
  assert (minHeight rh ≤ minHeight rh2).
  { apply (wf_range _ Hwf). by rewrite <- Hbk. }
  assert (minHeight rh2 ≤ minHeight rh).
  { apply (wf_range _ Hwf2). by rewrite Hbk. }
  lia.
Qed.

(** X5: adding a node the heap does not hold and removing it again gives
    back the lookup, every height list with its order, and
    [minHeight]. *)
Theorem Add_Remove_round_trip rh n :
  wf rh → min_ok rh → lookup rh !! id n = None →
  ∃ rh1 rh2,
    Add [n] rh = Some rh1 ∧ Has n rh1 = true ∧ Len rh1 = S (Len rh) ∧
    Remove n rh1 = Some (true, rh2) ∧
    lookup rh2 = lookup rh ∧ (∀ h, bucket rh2 h = bucket rh h) ∧
    minHeight rh2 = minHeight rh.
Proof.
  intros Hwf Hmin Hnone.
  destruct (addUnsafe1_spec n rh Hwf) as (rh1 & Heq1 & Hwf1 & Hlk1 & Hbk1 & _ & Hmin1).
  assert (lookup rh1 !! id n = Some (item_of n)) as Hn1
    by (by rewrite Hlk1, lookup_insert_eq).
  destruct (removeItemUnsafe_wf rh1 (id n) (item_of n) Hwf1 Hn1)
    as (rh2 & Heq2 & Hwf2 & Hlk2 & _ & Hbk2 & _ & _ & _ & Hmin2).
  assert (lookup rh2 = lookup rh) as Hlk.
  { rewrite Hlk2, Hlk1, delete_insert_eq. by apply delete_id. }
  assert (∀ h, bucket rh2 h = bucket rh h) as Hbk.
  { intros h. rewrite Hbk2, Hbk1, filter_app.
    rewrite (filter_keys_id (id n) (filter _ (bucket rh h))).
    2: { by intros x [? _]%list_elem_of_filter. }
    rewrite (filter_keys_id (id n) (bucket rh h)).
    2: { intros x Hx. by apply (wf_absent_keys rh (id n) h). }
    destruct (decide (h = height n)); [|by rewrite app_nil_r].
    rewrite filter_cons_False by (intros Hc; by apply Hc).
    by rewrite filter_nil, app_nil_r. }
  exists rh1, rh2. split_and!.
  - unfold Add. cbn [addUnsafe]. by rewrite Heq1.
  - unfold Has. apply bool_decide_eq_true_2. by eexists.
  - unfold Len. rewrite Hlk1. by apply map_size_insert_None.
  - unfold Remove. rewrite Hn1, Heq2. done.
  - done.
  - done.
  - apply min_ok_same_buckets; try done. by apply Hmin2, Hmin1.
Qed.

Lemma Add_Remove_round_trip_witness :
  wf three_nodes ∧ min_ok three_nodes ∧ lookup three_nodes !! 5 = None ∧
  ∃ rh1 rh2,
    Add [mkINode 5 0] three_nodes = Some rh1 ∧ Has (mkINode 5 0) rh1 = true ∧
    Len rh1 = S (Len three_nodes) ∧
    Remove (mkINode 5 0) rh1 = Some (true, rh2) ∧
    lookup rh2 = lookup three_nodes ∧
    (∀ h, bucket rh2 h = bucket three_nodes h) ∧
    minHeight rh2 = minHeight three_nodes.
Proof.
  assert (wf three_nodes) as Hwf by (apply wfb_sound; vm_compute; reflexivity).
  assert (min_ok three_nodes) as Hmin by (apply min_okb_sound; vm_compute; reflexivity).
  assert (lookup three_nodes !! 5 = None) as Hnone by (vm_compute; reflexivity).
  split; [exact Hwf|]. split; [exact Hmin|]. split; [exact Hnone|].
  exact (Add_Remove_round_trip three_nodes (mkINode 5 0) Hwf Hmin Hnone).
Defined.

Lemma removeItemUnsafe_maxHeight it rh rh' :
  removeItemUnsafe it rh = Some rh' → maxHeight rh' = maxHeight rh.
Proof.
  unfold removeItemUnsafe. intros Heq.
  destruct (heights rh !! item_height (value it)) as [[l|]|]; cbn in Heq; try done.
  destruct (_ && _).
  - destruct (nextMinHeightUnsafe _); cbn in Heq; [|done]. by injection Heq as <-.
  - by injection Heq as <-.
Qed.

(** X6: no removal lowers [maxHeight]: [Remove], [RemoveMin] and
    [RemoveMinHeight] leave it as it is, so that it can name a height
    without nodes; a node added to a fresh heap and taken out again
    leaves an empty heap whose [maxHeight] is still the height of that
    node, while [minHeight] is back to 0. *)
Theorem removals_keep_maxHeight rh (k : nat) (n : INode) :
  (∀ s ok rh', Remove s rh = Some (ok, rh') → maxHeight rh' = maxHeight rh) ∧
  (∀ r rh', RemoveMin rh = Some (r, rh') → maxHeight rh' = maxHeight rh) ∧
  (∀ ns rh', RemoveMinHeight rh = Some (ns, rh') → maxHeight rh' = maxHeight rh) ∧
  (∃ rh1 rh2,
     Add [n] (newRecomputeHeap k) = Some rh1 ∧
     RemoveMin rh1 = Some (Some n, rh2) ∧
     Len rh2 = 0 ∧ MinHeight rh2 = 0 ∧ MaxHeight rh2 = height n).
Proof.
  split_and!.
  - intros s ok rh'. unfold Remove. destruct (lookup rh !! id s) as [it|].
    + destruct (removeItemUnsafe it rh) as [rh1|] eqn:E; cbn; [|done].
      intros [= <- <-]. by apply (removeItemUnsafe_maxHeight it).
    + by intros [= <- <-].
  - intros r rh'. unfold RemoveMin.
    destruct (heights rh !! minHeight rh) as [[l|]|]; cbn; try done.
    + destruct l as [|it l]; cbn; [by intros [= <- <-]|].
      destruct (decide (lenUnsafe l = 0)).
      * destruct (nextMinHeightUnsafe _); cbn; [|done]. by intros [= <- <-].
      * by intros [= <- <-].
    + by intros [= <- <-].
  - intros ns rh'. unfold RemoveMinHeight.
    destruct (heights rh !! minHeight rh) as [[l|]|]; cbn; try done.
    + destruct l as [|it l]; cbn; [by intros [= <- <-]|].
      destruct (nextMinHeightUnsafe _); cbn; [|done]. by intros [= <- <-].
    + by intros [= <- <-].
  - destruct (addNodeUnsafe_shape n (newRecomputeHeap k))
      as (rh1 & Heq1 & Hlk1 & Hbk1 & Hmin1 & Hmax1 & Hlen1 & Hhs1).
    cbn [lookup newRecomputeHeap] in Hlk1, Hmin1, Hmax1.
    rewrite decide_True in Hmin1, Hmax1 by done.
    assert (heights rh1 !! height n = Some (Some [item_of n])) as Hb.
    { rewrite Hhs1. rewrite list_lookup_insert_eq.
      - unfold bucket. cbn [heights newRecomputeHeap].
        by rewrite (bucket_of_replicate k).
      - cbn [heights newRecomputeHeap].
        rewrite length_app, !length_replicate. lia. }
    exists rh1. eexists. split_and!.
    + unfold Add. cbn [addUnsafe]. unfold addUnsafe1. cbn [lookup newRecomputeHeap].
      rewrite lookup_empty, Heq1. done.
    + unfold RemoveMin. rewrite Hmin1, Hb. cbn [mbind option_bind popUnsafe].
      rewrite decide_True by done. rewrite Hlk1.
      change (key (item_of n)) with (id n).
      rewrite delete_insert_eq, delete_empty.
      unfold nextMinHeightUnsafe. cbn [lookup].
      rewrite decide_True by done. cbn [mbind option_bind]. reflexivity.
    + done.
    + done.
    + cbn. done.
Qed.

Lemma addUnsafe1_length n rh rh' :
  wf rh → addUnsafe1 n rh = Some rh' →
  length (heights rh') = length (heights rh) `max` S (height n).
Proof.
  intros Hwf. unfold addUnsafe1. destruct (lookup rh !! id n) as [it|] eqn:Hit.
  - destruct (removeItemUnsafe_wf rh (id n) it Hwf Hit)
      as (rh0 & -> & _ & _ & Hhs & _). cbn [mbind option_bind].
    destruct (addNodeUnsafe_shape n rh0) as (rh1 & -> & _ & _ & _ & _ & Hlen & _).
    intros [= <-]. rewrite Hlen, Hhs. cbn. by rewrite length_insert.
  - destruct (addNodeUnsafe_shape n rh) as (rh1 & -> & _ & _ & _ & _ & Hlen & _).
    by intros [= <-].
Qed.

(** X7: [Add] never runs out of heights: on a well-formed heap it returns
    for nodes of any height, growing [heights] to one more than the
    greatest height added when that is beyond its length and leaving its
    length alone otherwise; afterwards the heap holds the nodes added and
    the nodes it held. *)
Theorem Add_grows_heights rh ns :
  wf rh →
  ∃ rh', Add ns rh = Some rh' ∧ wf rh' ∧
    length (heights rh') =
      length (heights rh) `max` max_list ((λ n, S (height n)) <$> ns) ∧
    (∀ k, is_Some (lookup rh' !! k) ↔
          is_Some (lookup rh !! k) ∨ k ∈ id <$> ns).
Proof.
  unfold Add. revert rh. induction ns as [|n ns IH]; intros rh Hwf.
  { exists rh. cbn. split_and!; try done; [lia|].
    intros k. split; [by left|]. intros [?|?%not_elem_of_nil]; done. }
  destruct (addUnsafe1_spec n rh Hwf) as (rh1 & Heq1 & Hwf1 & Hlk1 & _).
  pose proof (addUnsafe1_length n rh rh1 Hwf Heq1) as Hlen1.
  destruct (IH rh1 Hwf1) as (rh' & Heq & Hwf' & Hlen & Hkeys).
  exists rh'. cbn [addUnsafe]. rewrite Heq1. cbn [mbind option_bind].
  split_and!; try done.
  - rewrite Hlen, Hlen1. cbn. lia.
  - intros k. rewrite Hkeys, Hlk1, fmap_cons, elem_of_cons.
    destruct (decide (k = id n)) as [->|Hne].
    + rewrite lookup_insert_eq. split; [intros _; right; by left|].
      intros _. left. by eexists.
    + rewrite lookup_insert_ne by done. tauto.
Qed.

Lemma Add_grows_heights_witness :
  wf (newRecomputeHeap 8) ∧
  ∃ rh', Add [mkINode 0 32; mkINode 1 64] (newRecomputeHeap 8) = Some rh' ∧
    wf rh' ∧
    length (heights rh') =
      length (heights (newRecomputeHeap 8)) `max`
        max_list ((λ n, S (height n)) <$> [mkINode 0 32; mkINode 1 64]) ∧
    (∀ k, is_Some (lookup rh' !! k) ↔
          is_Some (lookup (newRecomputeHeap 8) !! k) ∨
          k ∈ id <$> [mkINode 0 32; mkINode 1 64]).
Proof.
  assert (wf (newRecomputeHeap 8)) as Hwf by (apply newRecomputeHeap_wf; lia).
  split; [exact Hwf|].
  exact (Add_grows_heights (newRecomputeHeap 8) [mkINode 0 32; mkINode 1 64] Hwf).
Defined.

(** *** [RemoveMinHeight] *)

Lemma size_without_keys (m m' : gmap Identifier listItem) (ks : list Identifier) :
  NoDup ks → (∀ k, k ∈ ks → is_Some (m !! k)) →
  (∀ k, m' !! k = if decide (k ∈ ks) then None else m !! k) →
  size m' + length ks = size m.
Proof.
  revert m'. induction ks as [|k0 ks IH]; intros m' Hnd Hin Hm'.
  { cbn. rewrite Nat.add_0_r. f_equal. apply map_eq. intros k. rewrite Hm'.
    rewrite decide_False; [done|apply not_elem_of_nil]. }
  apply NoDup_cons in Hnd as [Hk0 Hnd].
  destruct (Hin k0) as [x Hx]; [left|].
  specialize (IH (<[k0 := x]> m') Hnd).
  rewrite map_size_insert_None in IH.
  2: { rewrite Hm'. rewrite decide_True; [done|left]. }
  cbn [length]. rewrite <- IH; [lia| |].
  - intros k Hk. apply Hin. by right.
  - intros k. destruct (decide (k = k0)) as [->|Hne].
    + rewrite lookup_insert_eq. by rewrite decide_False.
    + rewrite lookup_insert_ne by done. rewrite Hm'.
      destruct (decide (k ∈ ks)) as [Hk|Hk].
      * rewrite decide_True; [done|by right].
      * rewrite decide_False; [done|].
        intros [?|?]%elem_of_cons; done.
Qed.

(** X8: [RemoveMinHeight] on a heap built without [Fix] returns the items
    of the list at [minHeight], in the order they were added; they all
    record that height, they leave the heap and nothing else does, and
    every node left is strictly higher.  Nothing is returned only when
    the heap is empty. *)
Theorem RemoveMinHeight_takes_lowest rh :
  built rh →
  ∃ ns rh', RemoveMinHeight rh = Some (ns, rh') ∧ built rh' ∧
    ns = value <$> bucket rh (minHeight rh) ∧
    (∀ v, v ∈ ns → item_height v = minHeight rh) ∧
    (∀ k, lookup rh' !! k =
          if decide (k ∈ (λ v, id (node v)) <$> ns) then None
          else lookup rh !! k) ∧
    Len rh' + length ns = Len rh ∧
    (∀ k it, lookup rh' !! k = Some it → minHeight rh < item_height (value it)) ∧
    (ns = [] ↔ Len rh = 0).
Proof.
  intros Hb. destruct (built_ok rh Hb) as (Hwf & Hmin & Hrec).
  destruct (RemoveMinHeight_spec rh Hwf) as (ns & rh' & Heq & Hwf' & _ & Hns & Hlk).
  assert (key <$> bucket rh (minHeight rh) = (λ v, id (node v)) <$> ns) as Hkeys.
  { rewrite Hns, <- list_fmap_compose. apply list_fmap_ext.
    intros i x Hx%list_elem_of_lookup_2. cbn.
    destruct (wf_bucket _ Hwf _ _ Hx) as [Hit _].
    by destruct (wf_lookup _ Hwf _ _ Hit) as (_ & -> & _). }
  exists ns, rh'. split_and!.
  - done.
  - by apply (built_RemoveMinHeight rh ns).
  - done.
  - intros v. rewrite Hns. intros (x & -> & Hx)%list_elem_of_fmap.
    by destruct (wf_bucket _ Hwf _ _ Hx).
  - intros k. rewrite Hlk, Hkeys. done.
  - unfold Len. replace (length ns) with (length (key <$> bucket rh (minHeight rh))).
    2: { by rewrite Hns, !length_fmap. }
    apply size_without_keys.
    + apply (wf_nodup _ Hwf).
    + intros k (x & -> & Hx)%list_elem_of_fmap.
      destruct (wf_bucket _ Hwf _ _ Hx) as [Hit _]. by eexists.
    + done.
  - intros k it. rewrite Hlk.
    destruct (decide (k ∈ key <$> bucket rh (minHeight rh))) as [|Hk]; [done|].
    intros Hit. destruct (wf_lookup _ Hwf _ _ Hit) as (Hkey & _ & Hin).
    assert (minHeight rh ≤ item_height (value it)) as Hle.
    { apply (wf_range _ Hwf). intros E. rewrite E in Hin.
      by apply not_elem_of_nil in Hin. }
    destruct (decide (item_height (value it) = minHeight rh)) as [E|]; [|lia].
    exfalso. apply Hk. rewrite E in Hin. apply list_elem_of_fmap. by exists it.
  - rewrite Hns. unfold min_ok in Hmin. unfold Len. split.
    + intros Hnil%fmap_nil_inv.
      destruct (decide (size (lookup rh) = 0)); [done|]. by destruct Hmin.
    + intros Hsz. by rewrite (wf_lookup_empty_buckets rh Hwf Hsz).
Qed.

Lemma foldr_delete_commute (vs : list recomputeHeapItem) (m : gmap Identifier listItem) k :
  foldr (λ v lk, delete (id (node v)) lk) (delete k m) vs =
  delete k (foldr (λ v lk, delete (id (node v)) lk) m vs).
Proof.
  induction vs as [|v vs IH]; [done|]. cbn. rewrite IH. apply delete_delete.
Qed.

Lemma RemoveMin_times_list (l : klist) : ∀ rh,
  l ≠ [] → heights rh !! minHeight rh = Some (Some l) →
  (∀ x, x ∈ l → key x = id (node (value x))) →
  RemoveMin_times (length l) rh =
    nodes_of <$> RemoveMinHeight rh.
Proof.
  induction l as [|it l IH]; intros rh Hne Hb Hkeys; [done|].
  assert (key it = id (node (value it))) as Hkit by (apply Hkeys; left).
  assert (minHeight rh < length (heights rh)) as Hlt by (by eapply lookup_lt_Some).
  cbn [length RemoveMin_times]. unfold RemoveMin at 1, RemoveMinHeight.
  rewrite Hb. cbn [mbind option_bind popUnsafe popAllUnsafe].
  destruct l as [|it2 l].
  - rewrite decide_True by done. cbn [fmap list_fmap foldr]. rewrite <- Hkit.
    destruct (nextMinHeightUnsafe _) as [m|]; cbn; done.
  - rewrite decide_False by done. cbn [mbind option_bind].
    set (rh1 := mkHeap (minHeight rh) (maxHeight rh)
                  (<[minHeight rh := Some (it2 :: l)]> (heights rh))
                  (delete (key it) (lookup rh))).
    rewrite (IH rh1); [|done| |].
    2: { cbn. by apply list_lookup_insert_eq. }
    2: { intros x Hx. apply Hkeys. by right. }
    unfold RemoveMinHeight. cbn [minHeight heights lookup rh1].
    rewrite list_lookup_insert_eq by done. cbn [mbind option_bind popAllUnsafe].
    rewrite list_insert_insert_eq.
    change (value <$> it :: it2 :: l) with (value it :: (value <$> it2 :: l)).
    cbn [foldr]. rewrite foldr_delete_commute, <- Hkit.
    destruct (nextMinHeightUnsafe _) as [m|]; cbn; done.
Qed.

(** X9: on a well-formed heap, [RemoveMinHeight] does what [RemoveMin]
    does when called once for every item of the list at [minHeight]: the
    same nodes in the same order, and the same heap afterwards. *)
Theorem RemoveMinHeight_is_RemoveMin_repeated rh :
  wf rh →
  RemoveMin_times (length (bucket rh (minHeight rh))) rh =
    nodes_of <$> RemoveMinHeight rh.
Proof.
  intros Hwf. destruct (bucket rh (minHeight rh)) as [|it l] eqn:Hbk.
  - cbn. unfold RemoveMinHeight.
    pose proof (wf_min_index _ Hwf) as Hlt.
    destruct (heights rh !! minHeight rh) as [b|] eqn:Hb.
    2: { apply lookup_ge_None in Hb. lia. }
    cbn. unfold bucket, bucket_of in Hbk. rewrite Hb in Hbk.
    destruct b as [[|]|]; done.
  - assert (bucket rh (minHeight rh) ≠ []) as Hne by (by rewrite Hbk).
    pose proof (bucket_of_nonempty_lookup _ _ Hne) as Hb.
    fold (bucket rh (minHeight rh)) in Hb. rewrite Hbk in Hb.
    apply (RemoveMin_times_list (it :: l)); [done|done|].
    intros x Hx. rewrite <- Hbk in Hx.
    destruct (wf_bucket _ Hwf _ _ Hx) as [Hit _].
    by destruct (wf_lookup _ Hwf _ _ Hit) as (_ & -> & _).
Qed.

Lemma RemoveMinHeight_is_RemoveMin_repeated_witness :
  wf three_nodes ∧
  RemoveMin_times (length (bucket three_nodes (minHeight three_nodes))) three_nodes =
    nodes_of <$> RemoveMinHeight three_nodes.
Proof.
  assert (wf three_nodes) as Hwf by (apply wfb_sound; vm_compute; reflexivity).
  split; [exact Hwf|].
  exact (RemoveMinHeight_is_RemoveMin_repeated three_nodes Hwf).
Defined.

(** *** [Fix] and [sanityCheck] *)

Lemma fixUnsafe1_present cur i rh it :
  wf rh → lookup rh !! i = Some it →
  ∃ rh', fixUnsafe1 cur i rh = Some rh' ∧ wf rh' ∧
    lookup rh' = <[i := item_of (mkINode i (cur i))]> (lookup rh) ∧
    (∀ h, bucket rh' h =
          filter (λ x, key x ≠ i) (bucket rh h) ++
          (if decide (h = cur i) then [item_of (mkINode i (cur i))] else [])) ∧
    minHeight rh' = minHeight rh `min` cur i ∧
    maxHeight rh' = maxHeight rh `max` cur i.
Proof.
  intros Hwf Hit. destruct (fixUnsafe1_wf cur i rh Hwf) as (rh' & Heq & Hwf' & _).
  exists rh'. split; [done|]. split; [done|].
  unfold fixUnsafe1 in Heq. rewrite Hit in Heq.
  destruct (wf_lookup _ Hwf _ _ Hit) as (Hk & Hid & Hin).
  assert (bucket rh (item_height (value it)) ≠ []) as Hne.
  { intros E. rewrite E in Hin. by apply not_elem_of_nil in Hin. }
  rewrite (bucket_of_nonempty_lookup _ _ Hne) in Heq. cbn [mbind option_bind] in Heq.
  fold (bucket rh (item_height (value it))) in Heq. rewrite Hid in Heq.
  set (mid := mkHeap _ _ _ _) in Heq.
  destruct (addNodeUnsafe_shape (mkINode i (cur i)) mid)
    as (rh'' & Hadd & Hlk & Hbk & Hmin & Hmax & _).
  rewrite Heq in Hadd. injection Hadd as <-.
  assert (size (lookup mid) ≠ 0) as Hsz.
  { apply map_size_ne_0_lookup_2 with i. by eexists. }
  rewrite decide_False in Hmin, Hmax by done.
  assert (∀ h, bucket mid h = filter (λ x, key x ≠ i) (bucket rh h)) as Hmid.
  { intros h. rewrite <- (without_bucket rh i it h Hwf Hit). unfold bucket, without, mid.
    cbn [heights]. by rewrite Hk. }
  split_and!.
  - done.
  - intros h. rewrite Hbk. cbn [height]. destruct (decide (h = cur i)) as [->|].
    + by rewrite Hmid.
    + by rewrite Hmid, app_nil_r.
  - done.
  - done.
Qed.

Lemma fixUnsafe_spec cur ids : ∀ rh,
  wf rh →
  ∃ rh', fixUnsafe cur ids rh = Some rh' ∧ wf rh' ∧
    (∀ k, is_Some (lookup rh' !! k) ↔ is_Some (lookup rh !! k)) ∧
    (∀ k it, lookup rh' !! k = Some it →
       if decide (k ∈ ids) then it = item_of (mkINode k (cur k))
       else lookup rh !! k = Some it) ∧
    minHeight rh' ≤ minHeight rh ∧ maxHeight rh ≤ maxHeight rh' ∧
    ((∀ i, i ∈ ids → lookup rh !! i = None) → rh' = rh).
Proof.
  induction ids as [|i ids IH]; intros rh Hwf.
  { exists rh. split_and!; done. }
  cbn [fixUnsafe].
  assert (∃ rh1, fixUnsafe1 cur i rh = Some rh1 ∧ wf rh1 ∧
            (∀ k, is_Some (lookup rh1 !! k) ↔ is_Some (lookup rh !! k)) ∧
            (∀ k it, lookup rh1 !! k = Some it →
               (k = i ∧ it = item_of (mkINode k (cur k))) ∨
               (k ≠ i ∧ lookup rh !! k = Some it) ∨
               (lookup rh !! i = None ∧ lookup rh !! k = Some it)) ∧
            minHeight rh1 ≤ minHeight rh ∧ maxHeight rh ≤ maxHeight rh1 ∧
            (lookup rh !! i = None → rh1 = rh)) as
    (rh1 & Heq1 & Hwf1 & Hkeys1 & Hlk1 & Hmin1 & Hmax1 & Hsame1).
  { destruct (lookup rh !! i) as [it|] eqn:Hit.
    - destruct (fixUnsafe1_present cur i rh it Hwf Hit)
        as (rh1 & Heq1 & Hwf1 & Hlk1 & _ & Hmin1 & Hmax1).
      exists rh1. split_and!; try done; try lia.
      + intros k. rewrite Hlk1. destruct (decide (k = i)) as [->|Hne].
        * rewrite lookup_insert_eq, Hit. split; by eexists.
        * by rewrite lookup_insert_ne.
      + intros k x. rewrite Hlk1. destruct (decide (k = i)) as [->|Hne].
        * rewrite lookup_insert_eq. intros [= <-]. by left.
        * rewrite lookup_insert_ne by done. intros ?. right. by left.
    - exists rh. unfold fixUnsafe1. rewrite Hit. split_and!; try done.
      intros k x Hx. right. by right. }
  rewrite Heq1. cbn [mbind option_bind].
  destruct (IH rh1 Hwf1) as (rh' & Heq & Hwf' & Hkeys & Hlk & Hmin & Hmax & Hsame).
  exists rh'. split_and!; try done; try lia.
  - intros k. by rewrite Hkeys, Hkeys1.
  - intros k it Hit. specialize (Hlk k it Hit).
    destruct (decide (k ∈ ids)) as [Hk|Hk].
    + rewrite decide_True; [done|by right].
    + destruct (Hlk1 k it Hlk) as [[-> ->]|[[Hne Hold]|[Hnone Hold]]].
      * rewrite decide_True; [done|left].
      * rewrite decide_False; [done|]. by intros [?|?]%elem_of_cons.
      * destruct (decide (k = i)) as [->|Hne]; [congruence|].
        rewrite decide_False; [done|]. by intros [?|?]%elem_of_cons.
  - intros Hnone. rewrite <- (Hsame1 (Hnone i ltac:(left))).
    apply Hsame. intros j Hj. rewrite (Hsame1 (Hnone i ltac:(left))).
    apply Hnone. by right.
Qed.

(** X10: [Fix] on a well-formed heap returns, keeps the heap well formed
    and holding the same nodes, and leaves every node it was given, and
    that the heap holds, filed under the height the node has now; the
    other nodes keep their items.  It never raises [minHeight] and never
    lowers [maxHeight], and with identifiers the heap does not hold it
    changes nothing. *)
Theorem Fix_refiles_nodes cur ids rh :
  wf rh →
  ∃ rh', Fix cur ids rh = Some rh' ∧ wf rh' ∧ Len rh' = Len rh ∧
    (∀ s, Has s rh' = Has s rh) ∧
    (∀ k it, lookup rh' !! k = Some it →
       if decide (k ∈ ids)
       then it = item_of (mkINode k (cur k)) ∧ it ∈ bucket rh' (cur k)
       else lookup rh !! k = Some it) ∧
    minHeight rh' ≤ minHeight rh ∧ maxHeight rh ≤ maxHeight rh' ∧
    ((∀ i, i ∈ ids → lookup rh !! i = None) → rh' = rh).
Proof.
  intros Hwf.
  destruct (fixUnsafe_spec cur ids rh Hwf)
    as (rh' & Heq & Hwf' & Hkeys & Hlk & Hmin & Hmax & Hsame).
  exists rh'. split_and!; try done.
  - unfold Len. rewrite <- !size_dom. f_equal. apply set_eq. intros k.
    rewrite !elem_of_dom. apply Hkeys.
  - intros s. unfold Has. apply bool_decide_ext, Hkeys.
  - intros k it Hit. specialize (Hlk k it Hit).
    destruct (decide (k ∈ ids)); [|exact Hlk]. split; [exact Hlk|].
    destruct (wf_lookup _ Hwf' _ _ Hit) as (_ & _ & Hin).
    cbv iota in Hlk. subst it. exact Hin.
Qed.

Lemma Fix_refiles_nodes_witness :
  wf three_nodes ∧
  ∃ rh', Fix (λ i, if decide (i = 2) then 0 else 1) [2; 9] three_nodes = Some rh' ∧
    wf rh' ∧ Len rh' = Len three_nodes ∧
    (∀ s, Has s rh' = Has s three_nodes) ∧
    (∀ k it, lookup rh' !! k = Some it →
       if decide (k ∈ [2; 9])
       then it = item_of (mkINode k (if decide (k = 2) then 0 else 1)) ∧
            it ∈ bucket rh' (if decide (k = 2) then 0 else 1)
       else lookup three_nodes !! k = Some it) ∧
    minHeight rh' ≤ minHeight three_nodes ∧
    maxHeight three_nodes ≤ maxHeight rh' ∧
    ((∀ i, i ∈ [2; 9] → lookup three_nodes !! i = None) → rh' = three_nodes).
Proof.
  assert (wf three_nodes) as Hwf by (apply wfb_sound; vm_compute; reflexivity).
  split; [exact Hwf|].
  exact (Fix_refiles_nodes (λ i, if decide (i = 2) then 0 else 1) [2; 9]
           three_nodes Hwf).
Defined.

Lemma sanityCheck_items_None cur idx (l : klist) :
  sanityCheck_items cur idx l = None ↔
  ∀ it, it ∈ l →
    item_height (value it) = idx ∧ cur (id (node (value it))) = idx.
Proof.
  induction l as [|x l IH]; cbn [sanityCheck_items].
  { split; [|done]. by intros _ it ?%not_elem_of_nil. }
  unfold sanityCheck_item.
  destruct (decide (item_height (value x) ≠ idx)) as [Hne|Heq%dec_stable].
  { split; [done|]. intros H. destruct (H x) as [? _]; [left|done]. }
  destruct (decide (item_height (value x) ≠ cur (id (node (value x)))))
    as [Hne|Heq2%dec_stable].
  { split; [done|]. intros H. destruct (H x) as [? ?]; [left|congruence]. }
  rewrite IH. split.
  - intros H it [->|Hit]%elem_of_cons; [split; congruence|by apply H].
  - intros H it Hit. apply H. by right.
Qed.

Lemma sanityCheck_from_None cur (hs : list (option klist)) : ∀ off,
  sanityCheck_from cur off hs = None ↔
  ∀ h it, it ∈ bucket_of hs h →
    item_height (value it) = off + h ∧ cur (id (node (value it))) = off + h.
Proof.
  induction hs as [|b hs IH]; intros off; cbn [sanityCheck_from].
  { split; [|done]. intros _ h it. unfold bucket_of. rewrite lookup_nil.
    by intros ?%not_elem_of_nil. }
  assert (∀ h, bucket_of (b :: hs) (S h) = bucket_of hs h) as Hcons by done.
  assert ((∀ h it, it ∈ bucket_of (b :: hs) h →
             item_height (value it) = off + h ∧
             cur (id (node (value it))) = off + h) ↔
          (∀ it, it ∈ bucket_of (b :: hs) 0 →
             item_height (value it) = off ∧ cur (id (node (value it))) = off) ∧
          (∀ h it, it ∈ bucket_of hs h →
             item_height (value it) = S off + h ∧
             cur (id (node (value it))) = S off + h)) as ->.
  { split.
    - intros H. split.
      + intros it Hit. specialize (H 0 it Hit). by rewrite Nat.add_0_r in H.
      + intros h it Hit. rewrite <- Hcons in Hit. specialize (H (S h) it Hit).
        by rewrite Nat.add_succ_r in H.
    - intros [H0 HS] [|h] it Hit.
      + rewrite Nat.add_0_r. by apply H0.
      + rewrite Nat.add_succ_r. by apply HS. }
  rewrite <- IH. destruct b as [l|].
  - change (bucket_of (Some l :: hs) 0) with l. rewrite <- sanityCheck_items_None.
    destruct (sanityCheck_items cur off l).
    + split; [done|by intros [? _]].
    + split; [done|by intros [_ ?]].
  - change (bucket_of (None :: hs) 0) with (@nil listItem). split; [|by intros [_ ?]].
    intros ?. split; [|done]. by intros it ?%not_elem_of_nil.
Qed.

(** X11: [sanityCheck] returns nil exactly when every item of every
    height list records the index of its list and that index is the
    height its node has now. *)
Theorem sanityCheck_nil_iff cur rh :
  sanityCheck cur rh = None ↔
  ∀ h it, it ∈ bucket rh h →
    item_height (value it) = h ∧ cur (id (node (value it))) = h.
Proof. unfold sanityCheck. by rewrite sanityCheck_from_None. Qed.

(** X12: on a well-formed heap [sanityCheck] fails exactly when a node of
    the heap has changed height since it was filed, and [Fix] called with
    the identifiers of (at least) the nodes whose height has changed
    leaves a heap that passes [sanityCheck]. *)
Theorem Fix_restores_sanity cur ids rh :
  wf rh →
  (sanityCheck cur rh = None ↔
   ∀ k it, lookup rh !! k = Some it → item_height (value it) = cur k) ∧
  ((∀ k it, lookup rh !! k = Some it → item_height (value it) ≠ cur k → k ∈ ids) →
   ∃ rh', Fix cur ids rh = Some rh' ∧ sanityCheck cur rh' = None).
Proof.
  intros Hwf. split.
  - rewrite sanityCheck_nil_iff. split.
    + intros H k it Hit. destruct (wf_lookup _ Hwf _ _ Hit) as (_ & Hid & Hin).
      destruct (H _ _ Hin) as [_ Hc]. by rewrite Hid in Hc.
    + intros H h it Hin. destruct (wf_bucket _ Hwf _ _ Hin) as [Hit Hh].
      destruct (wf_lookup _ Hwf _ _ Hit) as (_ & Hid & _).
      split; [done|]. rewrite Hid, <- Hh. symmetry. by apply (H _ _ Hit).
  - intros Hids.
    destruct (fixUnsafe_spec cur ids rh Hwf) as (rh' & Heq & Hwf' & _ & Hlk & _).
    exists rh'. split; [done|]. apply sanityCheck_nil_iff. intros h it Hin.
    destruct (wf_bucket _ Hwf' _ _ Hin) as [Hit Hh].
    destruct (wf_lookup _ Hwf' _ _ Hit) as (_ & Hid & _).
    split; [done|]. rewrite Hid, <- Hh. specialize (Hlk _ _ Hit).
    destruct (decide (key it ∈ ids)) as [Hk|Hk].
    + rewrite Hlk at 2. done.
    + destruct (decide (item_height (value it) = cur (key it))); [done|].
      exfalso. by apply Hk, (Hids _ it).
Qed.

Lemma Fix_restores_sanity_witness :
  wf three_nodes ∧
  (sanityCheck (λ i, if decide (i = 2) then 0 else 1) three_nodes = None ↔
   ∀ k it, lookup three_nodes !! k = Some it →
     item_height (value it) = if decide (k = 2) then 0 else 1) ∧
  ((∀ k it, lookup three_nodes !! k = Some it →
      item_height (value it) ≠ (if decide (k = 2) then 0 else 1) → k ∈ [2]) →
   ∃ rh', Fix (λ i, if decide (i = 2) then 0 else 1) [2] three_nodes = Some rh' ∧
     sanityCheck (λ i, if decide (i = 2) then 0 else 1) rh' = None).
Proof.
  assert (wf three_nodes) as Hwf by (apply wfb_sound; vm_compute; reflexivity).
  split; [exact Hwf|].
  exact (Fix_restores_sanity (λ i, if decide (i = 2) then 0 else 1) [2]
           three_nodes Hwf).
Defined.

(** *** The fresh heap and the search for the next height *)

Lemma addNodeUnsafe_no_room s :
  addNodeUnsafe s (newRecomputeHeap 0) =
  addNodeUnsafe s (newRecomputeHeap (S (height s))).
Proof.
  assert (maybeAddNewHeights (height s)
            (maybeUpdateMinMaxHeights (height s) (newRecomputeHeap 0)) =
          maybeAddNewHeights (height s)
            (maybeUpdateMinMaxHeights (height s)
               (newRecomputeHeap (S (height s))))) as Heq.
  { unfold maybeUpdateMinMaxHeights, maybeAddNewHeights, newRecomputeHeap.
    cbn [lookup heights minHeight maxHeight].
    rewrite !(decide_True (P := size (∅ : gmap Identifier listItem) = 0)) by done.
    cbn [lookup heights minHeight maxHeight].
    rewrite decide_True by (cbn; lia).
    rewrite decide_False by (rewrite length_replicate; lia).
    cbn [length app]. by rewrite Nat.sub_0_r, Nat.add_1_r. }
  unfold addNodeUnsafe. cbv zeta. by rewrite Heq.
Qed.

(** X13: a fresh heap is empty; [RemoveMin] and [RemoveMinHeight] on it
    return nothing and leave it alone when it was made with room for at
    least one height, and panic (index out of range) when it was made
    with none.  [Add] works in both cases, and leaves a well-formed
    heap. *)
Theorem fresh_heap (k : nat) :
  Len (newRecomputeHeap k) = 0 ∧
  (∀ s, Has s (newRecomputeHeap k) = false) ∧
  RemoveMin (newRecomputeHeap k) =
    (if decide (k = 0) then None else Some (None, newRecomputeHeap k)) ∧
  RemoveMinHeight (newRecomputeHeap k) =
    (if decide (k = 0) then None else Some ([], newRecomputeHeap k)) ∧
  (∀ ns, ns ≠ [] →
     ∃ rh', Add ns (newRecomputeHeap k) = Some rh' ∧ wf rh' ∧ min_ok rh').
Proof.
  split_and!.
  - done.
  - done.
  - by destruct k.
  - by destruct k.
  - intros ns Hne. destruct ns as [|s ns]; [done|].
    assert (∃ j, 0 < j ∧
              Add (s :: ns) (newRecomputeHeap k) = Add (s :: ns) (newRecomputeHeap j))
      as (j & Hj & ->).
    { destruct k as [|k]; [|exists (S k); split; [lia|done]].
      exists (S (height s)). split; [lia|]. unfold Add. cbn [addUnsafe].
      unfold addUnsafe1. cbn [lookup newRecomputeHeap]. rewrite lookup_empty.
      by rewrite addNodeUnsafe_no_room. }
    destruct (addUnsafe_spec (s :: ns) (newRecomputeHeap j)) as (rh' & Heq & Hwf & Hok).
    { by apply newRecomputeHeap_wf. }
    exists rh'. split_and!; [done|done|]. apply Hok, newRecomputeHeap_min_ok.
Qed.

Lemma scan_heights_result (hs : list (option klist)) k : ∀ x m,
  scan_heights hs x k = Some m →
  (m = 0 ∧ ∀ i, x ≤ i < x + k → bucket_of hs i = []) ∨
  (x ≤ m < x + k ∧ bucket_of hs m ≠ [] ∧ ∀ i, x ≤ i < m → bucket_of hs i = []).
Proof.
  induction k as [|k IH]; intros x m; cbn [scan_heights].
  { intros [= <-]. left. split; [done|]. intros i ?. lia. }
  destruct (hs !! x) as [b|] eqn:Hb; cbn [mbind option_bind]; [|done].
  pose proof (has_nodes_bucket_of hs x b Hb) as Hhas.
  destruct (has_nodes b).
  - intros [= <-]. right. split; [lia|]. split; [by apply Hhas|]. intros i ?. lia.
  - assert (bucket_of hs x = []) as Hnil.
    { destruct (bucket_of hs x) eqn:E; [done|].
      assert (false = true); [|done]. by apply Hhas. }
    intros Hscan. destruct (IH (S x) m Hscan) as [[-> Hall]|(Hr & Hne & Hall)].
    + left. split; [done|]. intros i Hi.
      destruct (decide (i = x)) as [->|]; [done|]. apply Hall. lia.
    + right. split; [lia|]. split; [done|]. intros i Hi.
      destruct (decide (i = x)) as [->|]; [done|]. apply Hall. lia.
Qed.

Lemma scan_heights_total (hs : list (option klist)) k : ∀ x,
  (k ≠ 0 → x + k ≤ length hs) → is_Some (scan_heights hs x k).
Proof.
  induction k as [|k IH]; intros x Hlen; cbn [scan_heights]; [by eexists|].
  destruct (lookup_lt_is_Some_2 hs x) as [b Hb]; [lia|].
  rewrite Hb. cbn [mbind option_bind]. destruct (has_nodes b); [by eexists|].
  apply IH. lia.
Qed.

(** X14: [nextMinHeightUnsafe] returns 0 on an empty heap; otherwise it
    returns the first index from [minHeight] up to [maxHeight] whose list
    has nodes, never looking below [minHeight], and 0 when no list in
    that range has nodes.  It does not panic when [maxHeight] is an index
    of [heights]. *)
Theorem nextMinHeightUnsafe_first_with_nodes rh :
  (∀ m, nextMinHeightUnsafe rh = Some m →
     (Len rh = 0 ∧ m = 0) ∨
     (Len rh ≠ 0 ∧ m = 0 ∧
      ∀ i, minHeight rh ≤ i ≤ maxHeight rh → bucket rh i = []) ∨
     (Len rh ≠ 0 ∧ minHeight rh ≤ m ≤ maxHeight rh ∧ bucket rh m ≠ [] ∧
      ∀ i, minHeight rh ≤ i < m → bucket rh i = [])) ∧
  (maxHeight rh < length (heights rh) → is_Some (nextMinHeightUnsafe rh)).
Proof.
  unfold nextMinHeightUnsafe, Len. split.
  - intros m. destruct (decide (size (lookup rh) = 0)) as [Hsz|Hsz].
    { intros [= <-]. by left. }
    intros Hscan. right.
    destruct (scan_heights_result _ _ _ _ Hscan) as [[-> Hall]|(Hr & Hne & Hall)].
    + left. split; [done|]. split; [done|]. intros i Hi. apply Hall. lia.
    + right. split; [done|]. split; [lia|]. split; [exact Hne|exact Hall].
  - intros Hmax. destruct (decide (size (lookup rh) = 0)); [by eexists|].
    apply scan_heights_total. lia.
Qed.

(** *** The heaps of the examples *)

Lemma exported_operations_return_witness :
  reachable drained_heap ∧
  (∀ ns, ∃ rh', Add ns drained_heap = Some rh' ∧ reachable rh') ∧
  (∀ cur ids, ∃ rh', Fix cur ids drained_heap = Some rh' ∧ reachable rh') ∧
  (∀ s, ∃ ok rh', Remove s drained_heap = Some (ok, rh') ∧ reachable rh') ∧
  (∃ r rh', RemoveMin drained_heap = Some (r, rh') ∧ reachable rh') ∧
  (∃ ns rh', RemoveMinHeight drained_heap = Some (ns, rh') ∧ reachable rh') ∧
  (∀ h it, it ∈ bucket drained_heap h ↔
           lookup drained_heap !! key it = Some it ∧ item_height (value it) = h).
Proof.
  split; [exact drained_heap_reachable|].
  exact (exported_operations_return drained_heap drained_heap_reachable).
Defined.

Lemma RemoveMin_returns_lowest_witness :
  built three_nodes ∧ Len three_nodes ≠ 0 ∧
  ∃ n tl rh',
    RemoveMin three_nodes = Some (Some n, rh') ∧ built rh' ∧
    height n = minHeight three_nodes ∧
    bucket three_nodes (height n) = item_of n :: tl ∧ bucket rh' (height n) = tl ∧
    Has n three_nodes = true ∧ Has n rh' = false ∧
    S (Len rh') = Len three_nodes ∧
    (∀ k it, lookup three_nodes !! k = Some it → height n ≤ item_height (value it)) ∧
    (∀ k, k ≠ id n → lookup rh' !! k = lookup three_nodes !! k).
Proof.
  assert (Len three_nodes ≠ 0) as Hlen by (vm_compute; lia).
  split; [exact three_nodes_built|]. split; [exact Hlen|].
  exact (RemoveMin_returns_lowest three_nodes three_nodes_built Hlen).
Defined.

Lemma drain_returns_sorted_witness :
  built three_nodes ∧
  ∃ ns, drain (Len three_nodes) three_nodes = Some ns ∧
    length ns = Len three_nodes ∧ NoDup (id <$> ns) ∧
    (∀ a, a ∈ ns ↔ lookup three_nodes !! id a = Some (item_of a)) ∧
    (∀ i j a b, i ≤ j → ns !! i = Some a → ns !! j = Some b →
       height a ≤ height b).
Proof.
  split; [exact three_nodes_built|].
  exact (drain_returns_sorted three_nodes three_nodes_built).
Defined.

Lemma RemoveMinHeight_takes_lowest_witness :
  built three_nodes ∧
  ∃ ns rh', RemoveMinHeight three_nodes = Some (ns, rh') ∧ built rh' ∧
    ns = value <$> bucket three_nodes (minHeight three_nodes) ∧
    (∀ v, v ∈ ns → item_height v = minHeight three_nodes) ∧
    (∀ k, lookup rh' !! k =
          if decide (k ∈ (λ v, id (node v)) <$> ns) then None
          else lookup three_nodes !! k) ∧
    Len rh' + length ns = Len three_nodes ∧
    (∀ k it, lookup rh' !! k = Some it →
       minHeight three_nodes < item_height (value it)) ∧
    (ns = [] ↔ Len three_nodes = 0).
Proof.
  split; [exact three_nodes_built|].
  exact (RemoveMinHeight_takes_lowest three_nodes three_nodes_built).
Defined.

End heap_more.

(** * More of the bind node *)

Section bind_more.
Import Bind.

Context {G : Type}.
Variable changedAt_of : G → Identifier → nat.
Variable rhsNodes : G → list Identifier.
Variable is_IBind : G → Identifier → bool.
Variable isNecessary : G → Identifier → bool.
Variable fn : G → G * option Identifier * option error.
Variable Link : option Identifier → option Identifier → G → G.
Variable Unlink : option Identifier → option Identifier → G → G.
Variable newBindChange : bindIncr → G → Identifier * G.
Variable IBind_Link : Identifier → G → G * option error.

Local Abbreviation Stabilize :=
  (Stabilize changedAt_of rhsNodes is_IBind isNecessary fn Link Unlink
     newBindChange IBind_Link).
Local Abbreviation run :=
  (run changedAt_of rhsNodes is_IBind isNecessary fn Link Unlink
     newBindChange IBind_Link).
Local Abbreviation link_rhsNodes := (link_rhsNodes is_IBind isNecessary IBind_Link).
Local Abbreviation link_walk := (link_walk is_IBind isNecessary IBind_Link).
Local Abbreviation Link_method :=
  (Link_method rhsNodes is_IBind isNecessary Link IBind_Link).
Local Abbreviation linkNewBound :=
  (linkNewBound rhsNodes is_IBind isNecessary Link IBind_Link).
Local Abbreviation linkBindChange := (linkBindChange Link newBindChange).
Local Abbreviation unlinkBindChange := (unlinkBindChange (G := G) Unlink).
Local Abbreviation unlinkOldBound := (unlinkOldBound (G := G) Unlink).

Implicit Types (b : bindIncr) (g : G) (s : St (G := G)).

(** *** What the helpers of [Stabilize] do to the state *)

Lemma unlinkOldBound_eq s :
  unlinkOldBound s =
    match bound (st_bind s) with
    | Some old =>
        (mkSt (set_bound None (st_bind s))
           (Unlink (Some (n_id (st_bind s))) (Some old)
              (Unlink (Some old) (bindChange (st_bind s)) (st_graph s)))
           (st_calls s ++ [CallUnlink (Some old) (bindChange (st_bind s));
                           CallUnlink (Some (n_id (st_bind s))) (Some old)]),
         inr ())
    | None => (s, inr ())
    end.
Proof.
  unfold Bind.unlinkOldBound, bind at 1. cbn [get_b].
  destruct (bound (st_bind s)) as [old|] eqn:Hb; [|done].
  unfold bind, do_Unlink, bind, log, on_graph, modify_b. cbn.
  rewrite <- ?app_assoc. done.
Qed.

Lemma unlinkBindChange_eq s :
  unlinkBindChange s =
    match bindChange (st_bind s) with
    | Some c =>
        let g1 := if bound (st_bind s) is Some _
                  then Unlink (bound (st_bind s)) (Some c) (st_graph s)
                  else st_graph s in
        (mkSt (set_bindChange None (st_bind s))
           (Unlink (Some c) (Some (input (st_bind s))) g1)
           (st_calls s ++
              (if bound (st_bind s) is Some _
               then [CallUnlink (bound (st_bind s)) (Some c)] else []) ++
              [CallUnlink (Some c) (Some (input (st_bind s)))]),
         inr ())
    | None => (s, inr ())
    end.
Proof.
  unfold Bind.unlinkBindChange, bind at 1. cbn [get_b].
  destruct (bindChange (st_bind s)) as [c|] eqn:Hc; [|done].
  destruct (bound (st_bind s)) as [old|] eqn:Hb;
    unfold bind, do_Unlink, bind, log, on_graph, modify_b, ret; cbn;
    rewrite ?Hc, <- ?app_assoc; done.
Qed.

Lemma linkBindChange_eq s :
  linkBindChange s =
    let '(c, g') := newBindChange (st_bind s) (st_graph s) in
    (mkSt (set_bindChange (Some c) (st_bind s))
       (Link (Some c) (Some (input (st_bind s))) g')
       (st_calls s ++ [CallNewBindChange c;
                       CallLink (Some c) (Some (input (st_bind s)))]),
     inr ()).
Proof.
  unfold Bind.linkBindChange, bind at 1. cbn [get_b]. unfold bind at 1.
  destruct (newBindChange (st_bind s) (st_graph s)) as [c g'].
  unfold bind, do_Link, bind, log, on_graph, get_b. cbn.
  rewrite <- app_assoc. done.
Qed.

Lemma linkNewBound_eq s newIncr :
  linkNewBound newIncr s =
    let b := st_bind s in
    let g2 := Link newIncr (bindChange b)
                (Link (Some (n_id b)) newIncr (st_graph s)) in
    let '(linked, g3, err) := link_walk g2 (rhsNodes g2) in
    (mkSt (set_bound newIncr b) g3
       (st_calls s ++ [CallLink (Some (n_id b)) newIncr;
                       CallLink newIncr (bindChange b)] ++
          (CallIBindLink <$> linked)),
     match err with Some e => inl e | None => inr () end).
Proof.
  unfold Bind.linkNewBound, bind at 1, modify_b. unfold bind at 1. cbn [get_b].
  unfold bind at 1, do_Link at 1, bind at 1, log at 1, on_graph at 1.
  cbn [st_bind st_graph st_calls].
  unfold bind at 1, do_Link at 1, bind at 1, log at 1, on_graph at 1.
  cbn [st_bind st_graph st_calls].
  unfold bind at 1. cbn [get_g st_graph].
  rewrite (link_rhsNodes_walk is_IBind isNecessary IBind_Link).
  cbn [st_bind st_graph st_calls bound bindChange n_id set_bound].
  destruct (link_walk _ _) as [[linked g3] err].
  rewrite <- !app_assoc. done.
Qed.

(** [Stabilize] on a bind attached to a graph whose input changed, up
    to the call of the bind function. *)
Lemma Stabilize_changed b g gr :
  n_graph b = Some gr → n_changedAt b ≤ changedAt_of g (input b) →
  Stabilize (mkSt b g []) =
    let '(g1, newIncr, err) := fn g in
    match err with
    | Some e => (mkSt b g1 [CallFn], inl e)
    | None =>
        bind
          match bound b, newIncr with
          | Some old, Some new =>
              if bool_decide (old ≠ new) then
                bind unlinkOldBound (λ _,
                bind unlinkBindChange (λ _,
                bind linkBindChange (λ _,
                bind (linkNewBound newIncr) (λ _, ret true))))
              else
                bind get_g (λ g',
                  let bindChanged :=
                    bool_decide (n_boundAt b < changedAt_of g' old) in
                  bind Link_method (λ _, ret bindChanged))
          | None, Some new =>
              bind linkBindChange (λ _,
              bind (linkNewBound newIncr) (λ _, ret true))
          | Some old, None =>
              bind unlinkOldBound (λ _,
              bind unlinkBindChange (λ _, ret true))
          | None, None => ret false
          end
          (λ bindChanged : bool,
             if bindChanged
             then modify_b (set_boundAt (stabilizationNum gr))
             else ret ())
          (mkSt b g1 [CallFn])
    end.
Proof.
  intros Hgr Hle.
  unfold Bind.Stabilize. unfold bind at 1. cbn [get_b st_bind].
  rewrite Hgr. unfold bind at 1. cbn [get_g st_graph].
  unfold didInputChange. rewrite bool_decide_eq_true_2 by done. cbn [negb].
  unfold bind at 1, do_fn at 1, bind at 1, log at 1. cbn [st_bind st_graph st_calls app].
  destruct (fn g) as [[g1 newIncr] [e|]]; done.
Qed.

(** What follows [linkBindChange] and [linkNewBound] when the bind
    function returned a node the bind is not bound to. *)
Lemma link_new s new gr :
  bind (bind linkBindChange
          (λ _, bind (linkNewBound (Some new)) (λ _, ret true)))
       (λ bindChanged : bool,
          if bindChanged
          then modify_b (set_boundAt (stabilizationNum gr)) else ret ()) s =
    let b := st_bind s in
    let '(c, gC) := newBindChange b (st_graph s) in
    let g2 := Link (Some new) (Some c)
                (Link (Some (n_id b)) (Some new)
                   (Link (Some c) (Some (input b)) gC)) in
    let '(linked, g3, err) := link_walk g2 (rhsNodes g2) in
    let b2 := set_bound (Some new) (set_bindChange (Some c) b) in
    (mkSt (if err is None then set_boundAt (stabilizationNum gr) b2 else b2) g3
       (st_calls s ++
          [CallNewBindChange c; CallLink (Some c) (Some (input b));
           CallLink (Some (n_id b)) (Some new); CallLink (Some new) (Some c)] ++
          (CallIBindLink <$> linked)),
     match err with Some e => inl e | None => inr () end).
Proof.
  unfold bind at 1, bind at 1. rewrite linkBindChange_eq.
  destruct (newBindChange (st_bind s) (st_graph s)) as [c gC].
  unfold bind at 1. rewrite linkNewBound_eq.
  cbn [st_bind st_graph st_calls bindChange bound set_bindChange input n_id].
  destruct (link_walk _ _) as [[linked g3] [e|]].
  - rewrite <- !app_assoc. done.
  - unfold ret, modify_b. cbn [st_bind st_graph st_calls].
    rewrite <- !app_assoc. done.
Qed.

Lemma bind_assoc {X Y Z} (m : M X) (k : X → M Y) (K : Y → M Z) s :
  bind (bind m k) K s = bind m (λ x, bind (k x) K) s.
Proof. unfold bind. by destruct (m s) as [s' [e|x]]. Qed.

(** [unlinkOldBound] followed by [unlinkBindChange], on a bind that is
    bound. *)
Lemma unlink_both_then {X Y} (k : M X) (K : X → M Y) s old :
  bound (st_bind s) = Some old →
  bind (bind unlinkOldBound (λ _, bind unlinkBindChange (λ _, k))) K s =
    bind k K
      (mkSt (unbound (st_bind s)) (Unlink_graph Unlink (st_bind s) (st_graph s))
         (st_calls s ++ Unlink_calls (st_bind s))).
Proof.
  intros Hb. rewrite bind_assoc.
  unfold bind at 1. rewrite unlinkOldBound_eq, Hb.
  rewrite bind_assoc. unfold bind at 1. rewrite unlinkBindChange_eq.
  cbn [st_bind st_graph st_calls bindChange bound set_bound input n_id].
  unfold unbound, Unlink_graph, Unlink_calls. rewrite Hb.
  destruct (bindChange (st_bind s)) as [c|]; cbn [app]; rewrite <- ?app_assoc; done.
Qed.

(** X16: [unlinkOldBound] and [unlinkBindChange] are idempotent: each
    sets to nil the field it tests, so that calling it a second time
    makes no call and changes nothing. *)
Theorem unlink_twice s :
  bind unlinkOldBound (λ _, unlinkOldBound) s = unlinkOldBound s ∧
  bind unlinkBindChange (λ _, unlinkBindChange) s = unlinkBindChange s.
Proof.
  split.
  - unfold bind. rewrite unlinkOldBound_eq.
    destruct (bound (st_bind s)) eqn:Hb.
    + by rewrite unlinkOldBound_eq.
    + by rewrite unlinkOldBound_eq, Hb.
  - unfold bind. rewrite unlinkBindChange_eq.
    destruct (bindChange (st_bind s)) eqn:Hc.
    + cbv beta iota zeta. by rewrite unlinkBindChange_eq.
    + by rewrite unlinkBindChange_eq, Hc.
Qed.

(** *** What a run of [Stabilize] leaves, case by case *)

Lemma unbound_fields b :
  n_id (unbound b) = n_id b ∧ n_graph (unbound b) = n_graph b ∧
  n_changedAt (unbound b) = n_changedAt b ∧ input (unbound b) = input b ∧
  n_boundAt (unbound b) = n_boundAt b ∧
  bound (unbound b) = None ∧
  bindChange (unbound b) = (if bound b is Some _ then None else bindChange b).
Proof.
  unfold unbound. destruct (bound b) eqn:Hb, (bindChange b) eqn:Hc; cbn; done.
Qed.

Lemma run_unset b g :
  n_graph b = None → run b g = (b, g, [], Some ErrGraphUnset).
Proof.
  intros Hgr. unfold Bind.run, Bind.Stabilize, bind at 1. cbn [get_b st_bind].
  by rewrite Hgr.
Qed.

Lemma run_quiet b g gr :
  n_graph b = Some gr → changedAt_of g (input b) < n_changedAt b →
  run b g = (set_boundAt (stabilizationNum gr) b, g, [], None).
Proof.
  intros Hgr Hlt. unfold Bind.run, Bind.Stabilize, bind at 1. cbn [get_b st_bind].
  rewrite Hgr. unfold bind at 1. cbn [get_g st_graph]. unfold didInputChange.
  rewrite bool_decide_eq_false_2 by lia. done.
Qed.

Lemma run_fn_error b g gr g1 r e :
  n_graph b = Some gr → n_changedAt b ≤ changedAt_of g (input b) →
  fn g = (g1, r, Some e) →
  run b g = (b, g1, [CallFn], Some e).
Proof.
  intros Hgr Hle Hfn. unfold Bind.run.
  by rewrite (Stabilize_changed b g gr Hgr Hle), Hfn.
Qed.

Lemma run_fn_nil b g gr g1 :
  n_graph b = Some gr → n_changedAt b ≤ changedAt_of g (input b) →
  fn g = (g1, None, None) →
  run b g =
    (if bound b is Some _
     then set_boundAt (stabilizationNum gr) (unbound b) else b,
     Unlink_graph Unlink b g1, [CallFn] ++ Unlink_calls b, None).
Proof.
  intros Hgr Hle Hfn. unfold Bind.run.
  rewrite (Stabilize_changed b g gr Hgr Hle), Hfn.
  destruct (bound b) as [old|] eqn:Hb.
  - rewrite (unlink_both_then _ _ _ old) by done.
    unfold bind, ret, modify_b. cbn [st_bind st_graph st_calls]. done.
  - unfold bind, ret. cbn [st_bind st_graph st_calls].
    unfold Unlink_graph, Unlink_calls. rewrite Hb. done.
Qed.

Lemma run_new b g gr g1 new :
  n_graph b = Some gr → n_changedAt b ≤ changedAt_of g (input b) →
  fn g = (g1, Some new, None) → bound b ≠ Some new →
  run b g =
    let '(c, gC) := newBindChange (unbound b) (Unlink_graph Unlink b g1) in
    let g2 := Link (Some new) (Some c)
                (Link (Some (n_id b)) (Some new)
                   (Link (Some c) (Some (input b)) gC)) in
    let '(linked, g3, err) := link_walk g2 (rhsNodes g2) in
    let b2 := set_bound (Some new) (set_bindChange (Some c) (unbound b)) in
    (if err is None then set_boundAt (stabilizationNum gr) b2 else b2, g3,
     [CallFn] ++ Unlink_calls b ++
       [CallNewBindChange c; CallLink (Some c) (Some (input b));
        CallLink (Some (n_id b)) (Some new); CallLink (Some new) (Some c)] ++
       (CallIBindLink <$> linked),
     err).
Proof.
  intros Hgr Hle Hfn Hnew.
  assert (Stabilize (mkSt b g []) =
          bind (bind linkBindChange
                  (λ _, bind (linkNewBound (Some new)) (λ _, ret true)))
               (λ bindChanged : bool,
                  if bindChanged
                  then modify_b (set_boundAt (stabilizationNum gr)) else ret ())
               (mkSt (unbound b) (Unlink_graph Unlink b g1)
                  ([CallFn] ++ Unlink_calls b))) as Heq.
  { rewrite (Stabilize_changed b g gr Hgr Hle), Hfn.
    destruct (bound b) as [old|] eqn:Hb.
    - rewrite bool_decide_eq_true_2 by congruence.
      by rewrite (unlink_both_then _ _ _ old).
    - unfold unbound, Unlink_graph, Unlink_calls. by rewrite Hb. }
  rewrite link_new in Heq. cbn [st_bind st_graph st_calls] in Heq.
  destruct (unbound_fields b) as (Hid & _ & _ & Hinp & _).
  rewrite Hid, Hinp in Heq.
  destruct (newBindChange (unbound b) (Unlink_graph Unlink b g1)) as [c gC].
  cbv zeta in Heq |- *.
  destruct (link_walk _ _) as [[linked g3] err].
  unfold Bind.run. rewrite Heq.
  destruct err as [e|]; cbn; rewrite <- ?app_assoc; done.
Qed.

Lemma Link_method_eq s gr :
  n_graph (st_bind s) = Some gr →
  Link_method s =
    let b := st_bind s in
    match bound b with
    | Some _ =>
        let g2 := Link_graph Link b (st_graph s) in
        let '(linked, g3, err) := link_walk g2 (rhsNodes g2) in
        (mkSt b g3 (st_calls s ++ Link_calls b ++ (CallIBindLink <$> linked)),
         match err with Some e => inl e | None => inr () end)
    | None =>
        (mkSt b
           (if bindChange b is Some _
            then Link (bindChange b) (Some (input b)) (st_graph s)
            else st_graph s)
           (st_calls s ++
              (if bindChange b is Some _
               then [CallLink (bindChange b) (Some (input b))] else [])),
         inr ())
    end.
Proof.
  intros Hgr. unfold Bind.Link_method, bind at 1. cbn [get_b]. rewrite Hgr.
  cbv zeta. unfold Link_graph, Link_calls.
  destruct (bound (st_bind s)) as [old|] eqn:Hb.
  - destruct (bindChange (st_bind s)) as [c|] eqn:Hc.
    + unfold bind at 1, do_Link at 1, bind at 1, log at 1, on_graph at 1.
      cbn [st_bind st_graph st_calls].
      unfold bind at 1, do_Link at 1, bind at 1, log at 1, on_graph at 1.
      cbn [st_bind st_graph st_calls].
      unfold bind at 1, do_Link at 1, bind at 1, log at 1, on_graph at 1.
      cbn [st_bind st_graph st_calls].
      unfold bind at 1. cbn [get_g st_graph].
      rewrite (link_rhsNodes_walk is_IBind isNecessary IBind_Link).
      cbn [st_bind st_graph st_calls].
      destruct (link_walk _ _) as [[linked g3] err].
      cbn [app]. rewrite <- !app_assoc. done.
    + unfold bind at 1, ret at 1.
      unfold bind at 1, do_Link at 1, bind at 1, log at 1, on_graph at 1.
      cbn [st_bind st_graph st_calls].
      unfold bind at 1, do_Link at 1, bind at 1, log at 1, on_graph at 1.
      cbn [st_bind st_graph st_calls].
      unfold bind at 1. cbn [get_g st_graph].
      rewrite (link_rhsNodes_walk is_IBind isNecessary IBind_Link).
      cbn [st_bind st_graph st_calls].
      destruct (link_walk _ _) as [[linked g3] err].
      cbn [app]. rewrite <- !app_assoc. done.
  - destruct (bindChange (st_bind s)) as [c|] eqn:Hc.
    + unfold bind, do_Link, bind, log, on_graph, ret. cbn. by destruct s.
    + unfold bind, ret. cbn. rewrite app_nil_r. by destruct s.
Qed.

Lemma run_same b g gr g1 old :
  n_graph b = Some gr → n_changedAt b ≤ changedAt_of g (input b) →
  fn g = (g1, Some old, None) → bound b = Some old →
  run b g =
    let g2 := Link_graph Link b g1 in
    let '(linked, g3, err) := link_walk g2 (rhsNodes g2) in
    (if err is None
     then (if bool_decide (n_boundAt b < changedAt_of g1 old)
           then set_boundAt (stabilizationNum gr) b else b)
     else b,
     g3, [CallFn] ++ Link_calls b ++ (CallIBindLink <$> linked), err).
Proof.
  intros Hgr Hle Hfn Hb. unfold Bind.run.
  rewrite (Stabilize_changed b g gr Hgr Hle), Hfn, Hb.
  rewrite bool_decide_eq_false_2 by (intros Hc; by apply Hc).
  unfold bind at 1, bind at 1. cbn [get_g st_graph].
  unfold bind at 1. rewrite (Link_method_eq _ gr) by done.
  cbn [st_bind st_graph st_calls]. rewrite Hb. cbv zeta.
  destruct (link_walk _ _) as [[linked g3] [e|]]; [done|].
  unfold ret.
  destruct (bool_decide (n_boundAt b < changedAt_of g1 old)); done.
Qed.

(** X17: the bind function returns, without error, a node the bind is
    not bound to (the bind is bound to another node, or to none).  The
    old right-hand side, if any, is unlinked from the bind-change node
    and from the bind, and the old bind-change node from the input; a
    new bind-change node is made and linked to the input, the bind is
    linked to the new node and the new node to the new bind-change
    node; then [Link] is called on the necessary binds of the scope up
    to the first error.  [bound] and [bindChange] are the new ones even
    when such a call fails; [boundAt] becomes the [stabilizationNum]
    only when none fails, and [Stabilize] returns the error of the call
    that failed. *)
Theorem Stabilize_new_rhs b g g1 gr new :
  n_graph b = Some gr →
  n_changedAt b ≤ changedAt_of g (input b) →
  fn g = (g1, Some new, None) →
  bound b ≠ Some new →
  let '(c, gC) := newBindChange (unbound b) (Unlink_graph Unlink b g1) in
  let g2 := Link (Some new) (Some c)
              (Link (Some (n_id b)) (Some new)
                 (Link (Some c) (Some (input b)) gC)) in
  let '(linked, g3, err) := link_walk g2 (rhsNodes g2) in
  let '(b', g', calls, res) := run b g in
  bound b' = Some new ∧ bindChange b' = Some c ∧
  n_boundAt b' = (if err is None then stabilizationNum gr else n_boundAt b) ∧
  calls = [CallFn] ++ Unlink_calls b ++
          [CallNewBindChange c; CallLink (Some c) (Some (input b));
           CallLink (Some (n_id b)) (Some new); CallLink (Some new) (Some c)] ++
          (CallIBindLink <$> linked) ∧
  linked `sublist_of` rhsNodes g2 ∧
  g' = g3 ∧ res = err.
Proof.
  intros Hgr Hle Hfn Hnew. rewrite (run_new b g gr g1 new) by done.
  destruct (newBindChange (unbound b) (Unlink_graph Unlink b g1)) as [c gC].
  cbv zeta.
  pose proof (link_walk_spec is_IBind isNecessary IBind_Link
                (rhsNodes (Link (Some new) (Some c)
                   (Link (Some (n_id b)) (Some new)
                      (Link (Some c) (Some (input b)) gC))))
                (Link (Some new) (Some c)
                   (Link (Some (n_id b)) (Some new)
                      (Link (Some c) (Some (input b)) gC)))) as Hspec.
  destruct (link_walk _ _) as [[linked g3] err].
  destruct Hspec as (Hsub & _).
  destruct (unbound_fields b) as (_ & _ & _ & _ & Hat & _).
  destruct err as [e|]; cbn; rewrite ?Hat; split_and!; done.
Qed.

(** X18: the bind function returns nil without error.  A bind that is
    bound is unbound: the right-hand side is unlinked from the
    bind-change node and from the bind, the bind-change node from the
    input, [bound] and [bindChange] become nil and [boundAt] the
    [stabilizationNum].  A bind that is not bound is left as it is,
    [boundAt] included.  [Stabilize] returns nil in both cases, and no
    node is linked. *)
Theorem Stabilize_unbind b g g1 gr :
  n_graph b = Some gr →
  n_changedAt b ≤ changedAt_of g (input b) →
  fn g = (g1, None, None) →
  let '(b', g', calls, res) := run b g in
  res = None ∧ bound b' = None ∧
  calls = [CallFn] ++ Unlink_calls b ∧ g' = Unlink_graph Unlink b g1 ∧
  (bound b = None → b' = b) ∧
  (bound b ≠ None →
     bindChange b' = None ∧ n_boundAt b' = stabilizationNum gr).
Proof.
  intros Hgr Hle Hfn. rewrite (run_fn_nil b g gr g1) by done.
  destruct (unbound_fields b) as (_ & _ & _ & _ & _ & Hub & Huc).
  destruct (bound b) as [old|] eqn:Hb; cbn; rewrite ?Hub, ?Huc; split_and!; done.
Qed.

(** X19: the two ways [Stabilize] fails before it touches the bind.  On
    a bind that is not attached to a graph it returns the graph-unset
    error without a call; when the bind function returns an error it
    returns that error after that one call, and the node the function
    returned with the error is not looked at.  In both cases the bind is
    left as it was: [bound], [bindChange] and [boundAt] keep their
    values and nothing is linked or unlinked. *)
Theorem Stabilize_fails_early b g :
  (n_graph b = None → run b g = (b, g, [], Some ErrGraphUnset)) ∧
  (∀ gr g1 r e,
     n_graph b = Some gr → n_changedAt b ≤ changedAt_of g (input b) →
     fn g = (g1, r, Some e) →
     run b g = (b, g1, [CallFn], Some e)).
Proof.
  split; [apply run_unset|]. intros gr g1 r e. apply run_fn_error.
Qed.

(** *** What no run of [Stabilize] does *)

Lemma CallFn_not_IBind (l : list Identifier) : CallFn ∉ CallIBindLink <$> l.
Proof. intros (x & Hx & _)%list_elem_of_fmap. discriminate. Qed.

Ltac not_in_calls H :=
  repeat (apply elem_of_cons in H as [H|H]; [discriminate|]);
  by apply not_elem_of_nil in H.

Lemma CallFn_not_Unlink b : CallFn ∉ Unlink_calls b.
Proof.
  unfold Unlink_calls. destruct (bound b), (bindChange b); cbn; intros H;
    not_in_calls H.
Qed.

Lemma CallFn_not_Link b : CallFn ∉ Link_calls b.
Proof.
  unfold Link_calls. destruct (bindChange b); cbn; intros H; not_in_calls H.
Qed.

Lemma links_only_app (l1 l2 : list Call) :
  links_only l1 → links_only l2 → links_only (l1 ++ l2).
Proof. intros H1 H2 c [?|?]%elem_of_app; [by apply H1|by apply H2]. Qed.

Lemma links_only_IBind (l : list Identifier) : links_only (CallIBindLink <$> l).
Proof. intros c (x & -> & _)%list_elem_of_fmap. done. Qed.

Lemma links_only_Link b : links_only (Link_calls b).
Proof.
  unfold Link_calls. intros c Hc. destruct (bindChange b); cbn in Hc;
    repeat (apply elem_of_cons in Hc as [->|Hc]; [done|]);
    by apply not_elem_of_nil in Hc.
Qed.

Lemma links_only_Fn : links_only [CallFn].
Proof. intros c ->%list_elem_of_singleton. done. Qed.

(** X20: what no run of [Stabilize] does, whatever the bind, the object
    graph and the bind function.  It never writes the identifier, the
    graph, [changedAt] or the input of the bind; [boundAt] keeps its
    value or becomes the [stabilizationNum] of the graph, and keeps its
    value whenever an error is returned; the bind function is called at
    most once, before any other call; and when [bound] is afterwards what
    it was before, so is [bindChange], and nothing was unlinked and no
    bind-change node was made. *)
Theorem Stabilize_frame b g :
  let '(b', g', calls, res) := run b g in
  (n_id b' = n_id b ∧ n_graph b' = n_graph b ∧
   n_changedAt b' = n_changedAt b ∧ input b' = input b) ∧
  (n_boundAt b' = n_boundAt b ∨
   ∃ gr, n_graph b = Some gr ∧ n_boundAt b' = stabilizationNum gr) ∧
  (res ≠ None → n_boundAt b' = n_boundAt b) ∧
  (calls = [] ∨ ∃ rest, calls = CallFn :: rest ∧ CallFn ∉ rest) ∧
  (bound b' = bound b → bindChange b' = bindChange b ∧ links_only calls).
Proof.
  assert (links_only [] ∧ (CallFn : Call) ∉ []) as [Hl0 Hn0].
  { split; [intros c Hc; by apply not_elem_of_nil in Hc|apply not_elem_of_nil]. }
  pose proof links_only_Fn as Hl1.
  destruct (n_graph b) as [gr|] eqn:Hgr.
  2: { rewrite run_unset by done.
       split_and!; try done; try (by left); try (intros _; by split). }
  destruct (decide (n_changedAt b ≤ changedAt_of g (input b))) as [Hle|Hlt].
  2: { rewrite (run_quiet b g gr) by (done || lia). cbn.
       split_and!; try done; try (by left); try (right; by exists gr);
         try (intros _; by split). }
  destruct (fn g) as [[g1 r] [e|]] eqn:Hfn.
  { rewrite (run_fn_error b g gr g1 r e) by done.
    split_and!; try done; try (by left); try (intros _; by split).
    right. by exists []. }
  destruct (unbound_fields b) as (Hid & Hg & Hc & Hinp & Hat & Hub & Huc).
  pose proof (CallFn_not_Unlink b) as HnU.
  destruct r as [new|].
  2: { rewrite (run_fn_nil b g gr g1) by done.
       destruct (bound b) as [old|] eqn:Hb.
       - cbn. rewrite Hid, Hg, Hc, Hinp, Hub.
         split_and!; try done; try (right; by exists gr).
         right. by eexists.
       - split_and!; try done; try (by left).
         + right. by eexists.
         + intros _. split; [done|]. unfold Unlink_calls. by rewrite Hb. }
  destruct (decide (bound b = Some new)) as [Hb|Hb].
  - rewrite (run_same b g gr g1 new) by done. cbv zeta.
    destruct (link_walk _ _) as [[linked g3] err].
    assert (CallFn ∉ Link_calls b ++ (CallIBindLink <$> linked)) as Hn.
    { intros [?|?]%elem_of_app; [by eapply CallFn_not_Link|by eapply CallFn_not_IBind]. }
    assert (links_only ([CallFn] ++ Link_calls b ++ (CallIBindLink <$> linked))) as Hl.
    { apply links_only_app; [apply links_only_Fn|].
      apply links_only_app; [apply links_only_Link|apply links_only_IBind]. }
    destruct err as [e|];
      [|destruct (bool_decide (n_boundAt b < changedAt_of g1 new)); cbn];
      split_and!; try done; try (by left); try (right; by exists gr);
      try (right; by eexists).
  - rewrite (run_new b g gr g1 new) by done.
    destruct (newBindChange (unbound b) (Unlink_graph Unlink b g1)) as [c gC].
    cbv zeta. destruct (link_walk _ _) as [[linked g3] err].
    assert (CallFn ∉ Unlink_calls b ++
              [CallNewBindChange c; CallLink (Some c) (Some (input b));
               CallLink (Some (n_id b)) (Some new); CallLink (Some new) (Some c)] ++
              (CallIBindLink <$> linked)) as Hn.
    { intros [?|[H|?]%elem_of_app]%elem_of_app.
      - by eapply CallFn_not_Unlink.
      - not_in_calls H.
      - by eapply CallFn_not_IBind. }
    destruct err as [e|]; cbn; rewrite Hid, Hg, Hc, Hinp, ?Hat;
      split_and!; try done; try (by left); try (right; by exists gr);
      try (right; by eexists); intros ?; congruence.
Qed.

End bind_more.

(** * The bind-change node *)

Section bind_change.
Import Bind.

Context {G : Type}.
Variable changedAt_of : G → Identifier → nat.
Variable rhsNodes : G → list Identifier.
Variable is_IBind : G → Identifier → bool.
Variable isNecessary : G → Identifier → bool.
Variable fn : G → G * option Identifier * option error.
Variable Link : option Identifier → option Identifier → G → G.
Variable Unlink : option Identifier → option Identifier → G → G.
Variable newBindChange : bindIncr → G → Identifier * G.
Variable IBind_Link : Identifier → G → G * option error.

Lemma unbound_unbound (b : bindIncr) : set_bound None (unbound b) = unbound b.
Proof. unfold unbound. destruct b as [? ? ? ? ? [?|] [?|]]; done. Qed.

(** X21: the bind-change node is always made while the bind is bound to
    nothing: [linkBindChange] runs after [unlinkOldBound] has set
    [bound] to nil (or on a bind that was not bound) and before
    [linkNewBound] sets it, so the [rhs] the node is made with is nil.
    No run of [Stabilize] depends on what the maker of the bind-change
    node would do with the [bound] of the bind. *)
Theorem bindChange_made_unbound (b : bindIncr) (g : G) :
  run changedAt_of rhsNodes is_IBind isNecessary fn Link Unlink
    (λ b' g', newBindChange (set_bound None b') g') IBind_Link b g =
  run changedAt_of rhsNodes is_IBind isNecessary fn Link Unlink
    newBindChange IBind_Link b g.
Proof.
  destruct (n_graph b) as [gr|] eqn:Hgr.
  2: { by rewrite !run_unset. }
  destruct (decide (n_changedAt b ≤ changedAt_of g (input b))) as [Hle|Hlt].
  2: { by rewrite !(run_quiet _ _ _ _ _ _ _ _ _ b g gr) by (done || lia). }
  destruct (fn g) as [[g1 r] [e|]] eqn:Hfn.
  { by rewrite !(run_fn_error _ _ _ _ _ _ _ _ _ b g gr g1 r e). }
  destruct r as [new|].
  2: { by rewrite !(run_fn_nil _ _ _ _ _ _ _ _ _ b g gr g1). }
  destruct (decide (bound b = Some new)) as [Hb|Hb].
  - by rewrite !(run_same _ _ _ _ _ _ _ _ _ b g gr g1 new).
  - rewrite !(run_new _ _ _ _ _ _ _ _ _ b g gr g1 new) by done.
    by rewrite unbound_unbound.
Qed.

End bind_change.

(** ** The bind of the small world, rebound and unbound *)

Section bind_more_examples.
Import Bind BindEx.

Lemma Stabilize_new_rhs_witness :
  n_graph bind0 = Some (mkGraph 4) ∧
  n_changedAt bind0 ≤ changedAt0 [] (input bind0) ∧
  fn_other [] = ([], Some 4, None) ∧
  bound bind0 ≠ Some 4 ∧
  (let '(b', g', calls, res) := run_other bind0 [] in
   bound b' = Some 4 ∧ bindChange b' = Some 9 ∧ n_boundAt b' = 4 ∧
   calls = [CallFn; CallUnlink (Some 5) (Some 6); CallUnlink (Some 2) (Some 5);
            CallUnlink (Some 6) (Some 1); CallNewBindChange 9;
            CallLink (Some 9) (Some 1); CallLink (Some 2) (Some 4);
            CallLink (Some 4) (Some 9); CallIBindLink 8] ∧
   res = None).
Proof.
  assert (n_changedAt bind0 ≤ changedAt0 [] (input bind0)) as Hle
    by (vm_compute; lia).
  assert (bound bind0 ≠ Some 4) as Hne by (vm_compute; congruence).
  split; [reflexivity|]. split; [exact Hle|]. split; [reflexivity|].
  split; [exact Hne|].
  pose proof (Stabilize_new_rhs changedAt0 rhsNodes0 is_IBind0 isNecessary0
                fn_other Link0 Unlink0 newBindChange0 IBind_Link0 bind0 [] []
                (mkGraph 4) 4 eq_refl Hle eq_refl Hne) as H.
  destruct (newBindChange0 (unbound bind0) (Unlink_graph Unlink0 bind0 []))
    as [c gC] eqn:Ec.
  vm_compute in Ec. injection Ec as <- <-. cbv zeta in H.
  destruct (link_walk is_IBind0 isNecessary0 IBind_Link0 _ _)
    as [[linked g3] err] eqn:Ewalk.
  vm_compute in Ewalk. injection Ewalk as <- <- <-.
  unfold run_other.
  destruct (run changedAt0 rhsNodes0 is_IBind0 isNecessary0 fn_other Link0 Unlink0
              newBindChange0 IBind_Link0 bind0 []) as [[[b' g'] calls] res].
  destruct H as (H1 & H2 & H3 & H4 & _ & _ & H7).
  split; [exact H1|]. split; [exact H2|]. split; [exact H3|].
  split; [exact H4|exact H7].
Defined.

Lemma Stabilize_unbind_witness :
  n_graph bind0 = Some (mkGraph 4) ∧
  n_changedAt bind0 ≤ changedAt0 [] (input bind0) ∧
  fn_nil [] = ([], None, None) ∧
  (let '(b', g', calls, res) := run_nil bind0 [] in
   res = None ∧ bound b' = None ∧
   calls = [CallFn; CallUnlink (Some 5) (Some 6); CallUnlink (Some 2) (Some 5);
            CallUnlink (Some 6) (Some 1)] ∧
   (bound bind0 ≠ None → bindChange b' = None ∧ n_boundAt b' = 4)).
Proof.
  assert (n_changedAt bind0 ≤ changedAt0 [] (input bind0)) as Hle
    by (vm_compute; lia).
  split; [reflexivity|]. split; [exact Hle|]. split; [reflexivity|].
  pose proof (Stabilize_unbind changedAt0 rhsNodes0 is_IBind0 isNecessary0
                fn_nil Link0 Unlink0 newBindChange0 IBind_Link0 bind0 [] []
                (mkGraph 4) eq_refl Hle eq_refl) as H.
  unfold run_nil.
  destruct (run changedAt0 rhsNodes0 is_IBind0 isNecessary0 fn_nil Link0 Unlink0
              newBindChange0 IBind_Link0 bind0 []) as [[[b' g'] calls] res].
  destruct H as (H1 & H2 & H3 & _ & _ & H6).
  split; [exact H1|]. split; [exact H2|]. split; [exact H3|exact H6].
Defined.

End bind_more_examples.

